(** * Log analysis tool: entry parser, pattern normaliser, aggregator, advisor

    A shallow embedding of [app/analyze_logs.py]: [parse_log_entry],
    [analyze_log_entries] and [suggest_solutions], together with the parts of
    Python's [str] and [re] that these three functions call.

    Text.  A Python [str] is modelled as a Rocq [string] whose characters are
    the code points U+0000 .. U+00FF.  The character tables below ([isspace],
    [is_word], [lower_char], ...) are Python's tables restricted to that
    range.  The entry parser is also given on text with any character
    ([Wide]), where the case-insensitive severity search meets U+0130 and
    U+0131; on text up to U+00FF the two agree ([parse_log_entry_widens]). *)

From Stdlib Require Import String Ascii List Arith Bool Lia NArith Sorted.
Import ListNotations.
Open Scope string_scope.

(* ================================================================= *)
(** ** Python's [str] *)

Module Py.

Definition code (c : ascii) : N := N_of_ascii c.

Definition between (lo hi : N) (c : ascii) : bool :=
  (lo <=? code c)%N && (code c <=? hi)%N.

(** [str.isspace] on one character: TAB..CR, FS..US and SPACE, NEL, NBSP.
    This is the set that [str.strip()] removes. *)
Definition isspace (c : ascii) : bool :=
  between 9 13 c || between 28 32 c || (code c =? 133)%N || (code c =? 160)%N.

(** [\d] of [re] on a [str] pattern. *)
Definition is_digit (c : ascii) : bool := between 48 57 c.

(** [\w] of [re] on a [str] pattern: alphanumerics and the underscore. *)
Definition is_word (c : ascii) : bool :=
  between 48 57 c || between 65 90 c || (code c =? 95)%N || between 97 122 c
  || (code c =? 170)%N || between 178 179 c || (code c =? 181)%N
  || between 185 186 c || between 188 190 c || between 192 214 c
  || between 216 246 c || between 248 255 c.

Definition shift_up (c : ascii) : ascii := ascii_of_N (code c + 32).
Definition shift_down (c : ascii) : ascii := ascii_of_N (code c - 32).

(** [str.lower] on one character. *)
Definition lower_char (c : ascii) : ascii :=
  if between 65 90 c || between 192 214 c || between 216 222 c
  then shift_up c else c.

(** [str.upper] on one character.  Python maps U+00B5, U+00DF and U+00FF out
    of the modelled range; the program upper-cases matched severity keywords
    only, which are made of the letters a-z and A-Z. *)
Definition upper_char (c : ascii) : ascii :=
  if between 97 122 c || between 224 246 c || between 248 254 c
  then shift_down c else c.

Fixpoint map_str (f : ascii -> ascii) (s : string) : string :=
  match s with
  | EmptyString => EmptyString
  | String c s' => String (f c) (map_str f s')
  end.

Definition lower : string -> string := map_str lower_char.
Definition upper : string -> string := map_str upper_char.

Fixpoint lstrip (s : string) : string :=
  match s with
  | String c s' => if isspace c then lstrip s' else s
  | EmptyString => EmptyString
  end.

Fixpoint rstrip (s : string) : string :=
  match s with
  | EmptyString => EmptyString
  | String c s' =>
      match rstrip s' with
      | EmptyString => if isspace c then EmptyString else String c EmptyString
      | r => String c r
      end
  end.

(** [s.strip()] *)
Definition strip (s : string) : string := rstrip (lstrip s).

(** [drop_prefix p s]: the text of [s] after its prefix [p], when [s] starts
    with [p]. *)
Fixpoint drop_prefix (p s : string) : option string :=
  match p, s with
  | EmptyString, _ => Some s
  | String a p', String b s' => if Ascii.eqb a b then drop_prefix p' s' else None
  | String _ _, EmptyString => None
  end.

(** [after_first sep s]: the text after the first (leftmost) occurrence of
    [sep] in [s], when there is one. *)
Fixpoint after_first (sep s : string) : option string :=
  match drop_prefix sep s with
  | Some r => Some r
  | None =>
      match s with
      | EmptyString => None
      | String _ s' => after_first sep s'
      end
  end.

(** [sub in s] *)
Definition contains (sub s : string) : bool :=
  match after_first sub s with Some _ => true | None => false end.

(** [s.split(sep, 1)[-1]]: at most one split, at the first occurrence of
    [sep]; the last piece is the text after it, and the whole of [s] when
    [sep] does not occur.  ([sep] is never empty in the program; Python
    raises ValueError on an empty separator.) *)
Definition split1_last (sep s : string) : string :=
  match after_first sep s with
  | Some r => r
  | None => s
  end.

(** [bool(s)]: a string is truthy when it is not empty. *)
Definition truthy (s : string) : bool :=
  match s with EmptyString => false | String _ _ => true end.

(** [s[i:j]] for [0 <= i <= j]. *)
Definition slice (i j : nat) (s : string) : string := substring i (j - i) s.

End Py.

(* ================================================================= *)
(** ** Python's [re]: a backtracking matcher

    The fragment of [re] the program uses: character classes, greedy counted
    repetition of a class, concatenation, ordered alternation, the word
    boundary and capture groups.  Matching is by backtracking, leftmost
    alternative and longest repetition first, as in CPython's engine. *)

Module Re.

Inductive regex : Type :=
| Eps
| Chr (p : ascii -> bool)
| Rep (p : ascii -> bool) (lo : nat) (hi : option nat)
| Cat (r1 r2 : regex)
| Alt (r1 r2 : regex)
| Bnd
| Grp (n : nat) (r : regex).

(** Where the matcher stands: the index in the subject, the character just
    before it (for the word boundary), and the spans captured so far, most
    recent first. *)
Record mstate : Type := MState {
  pos : nat;
  prev : option ascii;
  caps : list (nat * (nat * nat))
}.

Definition start : mstate := MState 0 None [].

Definition step (st : mstate) (c : ascii) : mstate :=
  MState (S (pos st)) (Some c) (caps st).

Definition set_cap (n i j : nat) (st : mstate) : mstate :=
  MState (pos st) (prev st) ((n, (i, j)) :: caps st).

Definition word_opt (o : option ascii) : bool :=
  match o with Some c => Py.is_word c | None => false end.

Definition head (s : string) : option ascii :=
  match s with String c _ => Some c | EmptyString => None end.

(** [\b]: exactly one of the two neighbouring characters is a word
    character; the outside of the subject counts as a non-word character. *)
Definition at_boundary (st : mstate) (s : string) : bool :=
  xorb (word_opt (prev st)) (word_opt (head s)).

Definition kont : Type := mstate -> string -> option (mstate * string).

Definition room (hi : option nat) : bool :=
  match hi with Some 0 => false | _ => true end.

(** Greedy [p{lo,hi}]: take one more character while allowed, and fall back
    to stopping here when the rest of the pattern fails after that. *)
Fixpoint rep (p : ascii -> bool) (lo : nat) (hi : option nat)
    (st : mstate) (s : string) (k : kont) : option (mstate * string) :=
  let stop := match lo with 0 => k st s | S _ => None end in
  match s with
  | String c s' =>
      if p c && room hi then
        match rep p (pred lo) (option_map pred hi) (step st c) s' k with
        | Some r => Some r
        | None => stop
        end
      else stop
  | EmptyString => stop
  end.

Fixpoint run (r : regex) (st : mstate) (s : string) (k : kont)
    : option (mstate * string) :=
  match r with
  | Eps => k st s
  | Chr p =>
      match s with
      | String c s' => if p c then k (step st c) s' else None
      | EmptyString => None
      end
  | Rep p lo hi => rep p lo hi st s k
  | Cat r1 r2 => run r1 st s (fun st1 s1 => run r2 st1 s1 k)
  | Alt r1 r2 =>
      match run r1 st s k with
      | Some x => Some x
      | None => run r2 st s k
      end
  | Bnd => if at_boundary st s then k st s else None
  | Grp n r1 => run r1 st s (fun st1 s1 => k (set_cap n (pos st) (pos st1) st1) s1)
  end.

Definition accept : kont := fun st s => Some (st, s).

(** [pattern.match] at the current position. *)
Definition match_here (r : regex) (st : mstate) (s : string)
    : option (mstate * string) :=
  run r st s accept.

(** A match object: the span of group 0 and the captured spans. *)
Record rmatch : Type := RMatch {
  m_start : nat;
  m_end : nat;
  m_caps : list (nat * (nat * nat))
}.

Fixpoint scan (r : regex) (st : mstate) (s : string) : option rmatch :=
  match match_here r st s with
  | Some (e, _) => Some (RMatch (pos st) (pos e) (caps e))
  | None =>
      match s with
      | EmptyString => None
      | String c s' => scan r (step st c) s'
      end
  end.

(** [re.search(r, s)]: the match at the leftmost position that has one. *)
Definition search (r : regex) (s : string) : option rmatch := scan r start s.

Fixpoint lookup_cap (n : nat) (l : list (nat * (nat * nat))) : option (nat * nat) :=
  match l with
  | [] => None
  | (n', sp) :: l' => if Nat.eqb n n' then Some sp else lookup_cap n l'
  end.

(** [m.group(0)] and [m.group(n)] on the subject [s]; groups that took part
    in the match are the only ones the program asks for. *)
Definition group0 (m : rmatch) (s : string) : string :=
  Py.slice (m_start m) (m_end m) s.

Definition group (n : nat) (m : rmatch) (s : string) : string :=
  match lookup_cap n (m_caps m) with
  | Some (i, j) => Py.slice i j s
  | None => EmptyString
  end.

(** [re.sub(r, repl, s)] for patterns that match at least one character, as
    both patterns of the program do: matches are found left to right, each
    search resuming where the previous match ended, and every match is
    replaced by [repl].  [skip] counts the characters of the current match
    that are still to be passed over. *)
Fixpoint sub_scan (r : regex) (repl : string) (skip : nat)
    (st : mstate) (s : string) : string :=
  match skip with
  | S n =>
      match s with
      | String c s' => sub_scan r repl n (step st c) s'
      | EmptyString => EmptyString
      end
  | 0 =>
      match s with
      | EmptyString => EmptyString
      | String c s' =>
          match match_here r st s with
          | Some (e, _) =>
              match pos e - pos st with
              | S n => repl ++ sub_scan r repl n (step st c) s'
              | 0 => String c (sub_scan r repl 0 (step st c) s')
              end
          | None => String c (sub_scan r repl 0 (step st c) s')
          end
      end
  end.

Definition sub (r : regex) (repl s : string) : string :=
  sub_scan r repl 0 start s.

(** Building blocks for writing patterns. *)

Definition just (c : ascii) : ascii -> bool := Ascii.eqb c.

(** A literal character under [re.IGNORECASE], on text up to U+00FF.  (Two
    characters beyond U+00FF match the letter I; [Wide.is_ci] has them.) *)
Definition is_ci (c : ascii) : ascii -> bool :=
  fun x => Ascii.eqb (Py.lower_char x) (Py.lower_char c).

Fixpoint lit_ci (w : string) : regex :=
  match w with
  | EmptyString => Eps
  | String c w' => Cat (Chr (is_ci c)) (lit_ci w')
  end.

Fixpoint alts (rs : list regex) : regex :=
  match rs with
  | [] => Chr (fun _ => false)
  | [r] => r
  | r :: rs' => Alt r (alts rs')
  end.

Fixpoint cats (rs : list regex) : regex :=
  match rs with
  | [] => Eps
  | [r] => r
  | r :: rs' => Cat r (cats rs')
  end.

Definition times (p : ascii -> bool) (n : nat) : regex := Rep p n (Some n).

End Re.

(* ================================================================= *)
(** ** Entry parser: [parse_log_entry] *)

Import Re.

Definition digit : ascii -> bool := Py.is_digit.

(** [[T ]] *)
Definition t_or_space (c : ascii) : bool := just "T" c || just " " c.

(** [[a-f0-9\-]] *)
Definition hex_or_hyphen (c : ascii) : bool :=
  Py.between 97 102 c || Py.between 48 57 c || just "-" c.

(** [[^\]]] *)
Definition not_close (c : ascii) : bool := negb (just "]" c).

(** [(\d{4}-\d{2}-\d{2}[T ]\d{2}:\d{2}:\d{2})|((\d{1,2}/\d{1,2}/\d{4})[ T]\d{2}:\d{2})] *)
Definition timestamp_re : regex :=
  Alt
    (Grp 1 (cats [times digit 4; Chr (just "-"); times digit 2; Chr (just "-");
                  times digit 2; Chr t_or_space;
                  times digit 2; Chr (just ":"); times digit 2; Chr (just ":");
                  times digit 2]))
    (Grp 2 (cats [Grp 3 (cats [Rep digit 1 (Some 2); Chr (just "/");
                               Rep digit 1 (Some 2); Chr (just "/");
                               times digit 4]);
                  Chr t_or_space; times digit 2; Chr (just ":"); times digit 2])).

Definition severity_keywords : list string :=
  ["ERROR"; "INFO"; "WARNING"; "DEBUG"; "CRITICAL"; "WARN"; "FATAL"].

(** [\b(ERROR|INFO|WARNING|DEBUG|CRITICAL|WARN|FATAL)\b] with [re.IGNORECASE] *)
Definition severity_re : regex :=
  Cat Bnd (Cat (Grp 1 (alts (map lit_ci severity_keywords))) Bnd).

(** [\[([^\]]+)\]] *)
Definition component_re : regex :=
  cats [Chr (just "["); Grp 1 (Rep not_close 1 None); Chr (just "]")].

Record log_entry : Type := LogEntry {
  raw : string;
  timestamp : option string;
  severity : string;
  component : option string;
  message : string
}.

(** The text in which the component is looked for (lines 82-85). *)
Definition remainder_of (line : string) : string :=
  match search severity_re line with
  | Some severity_match =>
      Py.strip (Py.split1_last (group0 severity_match line) line)
  | None => line
  end.

Definition parse_log_entry (line : string) : log_entry :=
  let timestamp_match := search timestamp_re line in
  let severity_match := search severity_re line in
  let remainder := remainder_of line in
  let component_match := search component_re remainder in
  {| raw := line;
     timestamp := option_map (fun m => group0 m line) timestamp_match;
     severity :=
       match severity_match with
       | Some m => Py.upper (group 1 m line)
       | None => "UNKNOWN"
       end;
     component := option_map (fun m => group 1 m remainder) component_match;
     message :=
       match component_match with
       | Some _ => Py.strip (Py.split1_last "]:" remainder)
       | None => remainder
       end |}.

(* ================================================================= *)
(** ** Pattern normaliser (lines 125-126 of [analyze_log_entries]) *)

(** [\b[a-f0-9\-]{8,}\b], no flags *)
Definition id_re : regex := cats [Bnd; Rep hex_or_hyphen 8 None; Bnd].

(** [\d+] *)
Definition num_re : regex := Rep digit 1 None.

Definition mask_ids (error : string) : string := sub id_re "<ID>" error.
Definition mask_nums (pattern : string) : string := sub num_re "<NUM>" pattern.

(** [pattern = re.sub(ID, '<ID>', error); pattern = re.sub(NUM, '<NUM>', pattern)] *)
Definition normalize (error : string) : string := mask_nums (mask_ids error).

(* ================================================================= *)
(** ** Python's insertion-ordered [dict], [Counter] and [defaultdict(list)]

    Keys are kept in the order of their first insertion, which is the order
    [items()] iterates in. *)

Section Dict.
Context {K V : Type} (eqb : K -> K -> bool).

Fixpoint dict_get (k : K) (d : list (K * V)) : option V :=
  match d with
  | [] => None
  | (k', v) :: d' => if eqb k k' then Some v else dict_get k d'
  end.

(** [d[k] = f(d[k])] for a mapping whose missing entries read as [dflt]. *)
Fixpoint dict_upd (dflt : V) (f : V -> V) (k : K) (d : list (K * V)) : list (K * V) :=
  match d with
  | [] => [(k, f dflt)]
  | (k', v) :: d' =>
      if eqb k k' then (k', f v) :: d' else (k', v) :: dict_upd dflt f k d'
  end.
End Dict.

(** [c[k] += 1] on a [Counter] *)
Definition incr {K : Type} (eqb : K -> K -> bool) : K -> list (K * nat) -> list (K * nat) :=
  dict_upd eqb 0 S.

(** [d[k].append(v)] on a [defaultdict(list)] *)
Definition push {K V : Type} (eqb : K -> K -> bool) (k : K) (v : V)
    : list (K * list V) -> list (K * list V) :=
  dict_upd eqb [] (fun l => (l ++ [v])%list) k.

(** [Counter(iterable)] *)
Definition Counter {K : Type} (eqb : K -> K -> bool) (l : list K) : list (K * nat) :=
  fold_left (fun c k => incr eqb k c) l [].

(** [sorted(items, key=itemgetter(1), reverse=True)]: a stable sort, so items
    with equal counts stay in their original order. *)
Fixpoint insert_desc {K : Type} (x : K * nat) (l : list (K * nat)) : list (K * nat) :=
  match l with
  | [] => [x]
  | y :: l' => if Nat.ltb (snd x) (snd y) then y :: insert_desc x l' else x :: y :: l'
  end.

Fixpoint sort_desc {K : Type} (l : list (K * nat)) : list (K * nat) :=
  match l with
  | [] => []
  | x :: l' => insert_desc x (sort_desc l')
  end.

(** [c.most_common(n)], which is [heapq.nlargest(n, c.items(), key=itemgetter(1))],
    documented as [sorted(c.items(), key=itemgetter(1), reverse=True)[:n]]. *)
Definition most_common {K : Type} (n : nat) (c : list (K * nat)) : list (K * nat) :=
  firstn n (sort_desc c).

(** [sorted(timestamps)] on strings, compared by code points. *)
Fixpoint insert_asc (x : string) (l : list string) : list string :=
  match l with
  | [] => [x]
  | y :: l' => if String.ltb y x then y :: insert_asc x l' else x :: y :: l'
  end.

Fixpoint sorted (l : list string) : list string :=
  match l with
  | [] => []
  | x :: l' => insert_asc x (sorted l')
  end.

Definition key_eqb (a b : string * string) : bool :=
  String.eqb (fst a) (fst b) && String.eqb (snd a) (snd b).

(* ================================================================= *)
(** ** Aggregator: [analyze_log_entries] *)

(** A match record as [search_files] and [load_csv_logs] build it. *)
Record entry : Type := Entry {
  file : string;
  line_number : option nat;
  content : string
}.

(** The four accumulators of the loop at lines 101-109. *)
Record accum : Type := Accum {
  severities : list (string * nat);
  comps : list (string * nat);
  errors_by_component : list (string * list string);
  timestamps : list string
}.

Definition accum0 : accum := Accum [] [] [] [].

Definition is_error_severity (s : string) : bool :=
  existsb (String.eqb s) ["ERROR"; "CRITICAL"; "FATAL"].

(** One iteration of the loop, on an already parsed line. *)
Definition visit_parsed (a : accum) (parsed : log_entry) : accum :=
  let severities' := incr String.eqb (severity parsed) (severities a) in
  let '(comps', errors') :=
    match component parsed with
    | Some c =>
        (incr String.eqb c (comps a),
         if is_error_severity (severity parsed)
         then push String.eqb c (message parsed) (errors_by_component a)
         else errors_by_component a)
    | None => (comps a, errors_by_component a)
    end in
  let timestamps' :=
    match timestamp parsed with
    | Some t => (timestamps a ++ [t])%list
    | None => timestamps a
    end in
  Accum severities' comps' errors' timestamps'.

Definition visit (a : accum) (e : entry) : accum :=
  visit_parsed a (parse_log_entry (content e)).

Definition accumulate (entries : list entry) : accum :=
  fold_left visit entries accum0.

Record time_span : Type := TimeSpan {
  first_occurrence : string;
  last_occurrence : string;
  total_occurrences : nat
}.

(** Lines 110-120.  Strings always compare, so the [except] branch is never
    taken. *)
Definition time_pattern_of (ts : list string) : option time_span :=
  match sorted ts with
  | [] => None
  | t0 :: rest => Some (TimeSpan t0 (last rest t0) (length (t0 :: rest)))
  end.

(** Lines 121-127: the list [error_patterns] of (component, pattern) pairs,
    in the order the two nested loops append them. *)
Definition pattern_of_error (component error : string) : list (string * string) :=
  if Py.truthy error && Nat.ltb 10 (String.length error)
  then [(component, normalize error)]
  else [].

Definition error_pattern_pairs (ebc : list (string * list string)) : list (string * string) :=
  flat_map (fun item => flat_map (pattern_of_error (fst item)) (snd item)) ebc.

Record error_pattern : Type := ErrorPattern {
  ep_component : string;
  ep_pattern : string;
  ep_count : nat
}.

Definition render (item : (string * string) * nat) : error_pattern :=
  ErrorPattern (fst (fst item)) (snd (fst item)) (snd item).

Record analysis : Type := Analysis {
  total_entries : nat;
  severity_distribution : list (string * nat);
  components : list (string * nat);
  time_pattern : option time_span;
  error_patterns : list error_pattern
}.

(** Line 128: [common_patterns = Counter(error_patterns).most_common(10)] *)
Definition common_patterns (entries : list entry) : list ((string * string) * nat) :=
  most_common 10
    (Counter key_eqb (error_pattern_pairs (errors_by_component (accumulate entries)))).

Definition analyze_log_entries (entries : list entry) : analysis :=
  let a := accumulate entries in
  {| total_entries := length entries;
     severity_distribution := severities a;
     components := comps a;
     time_pattern := time_pattern_of (timestamps a);
     error_patterns := map render (common_patterns entries) |}.

(* ================================================================= *)
(** ** Solution advisor: [suggest_solutions] *)

Record suggestion : Type := Suggestion {
  problem : string;
  solution : string
}.

(** [any(pat for pat in patterns if cond(pat))]: some pattern that passes the
    filter is truthy. *)
Definition any_where (cond : string -> bool) (patterns : list string) : bool :=
  existsb Py.truthy (filter cond patterns).

Definition connection_rule (pat : string) : bool :=
  Py.contains "connect" pat || Py.contains "timeout" pat.

Definition permission_rule (pat : string) : bool :=
  Py.contains "permission" pat || Py.contains "denied" pat.

Definition resource_rule (pat : string) : bool :=
  Py.contains "memory" pat || Py.contains "cpu" pat || Py.contains "disk" pat.

Definition connection_issues : suggestion :=
  Suggestion "Connection issues"
             "Check network settings, server availability, and timeouts.".

Definition permission_issues : suggestion :=
  Suggestion "Permission issues"
             "Check file and system permissions, user roles, and ACLs.".

Definition resource_limits : suggestion :=
  Suggestion "System resource limits"
             "Monitor and upgrade resource usage: RAM, CPU, storage.".

Definition uncategorized : suggestion :=
  Suggestion "Uncategorized errors"
             "Check logs manually. Consider refining component configs.".

Definition add_if (b : bool) (s : suggestion) (solutions : list suggestion) : list suggestion :=
  if b then (solutions ++ [s])%list else solutions.

(** [analysis.get('error_patterns', [])] always finds the key in a summary
    built by [analyze_log_entries]. *)
Definition suggest_solutions (a : analysis) : list suggestion :=
  let patterns := map (fun item => Py.lower (ep_pattern item)) (error_patterns a) in
  let solutions := [] in
  let solutions := add_if (any_where connection_rule patterns) connection_issues solutions in
  let solutions := add_if (any_where permission_rule patterns) permission_issues solutions in
  let solutions := add_if (any_where resource_rule patterns) resource_limits solutions in
  match solutions with
  | [] => [uncategorized]
  | _ => solutions
  end.

(* ================================================================= *)
(** ** What a match consists of

    [span r st s st' s'] describes, without the search order, the matches of
    [r] that start in state [st] before the text [s] and end in state [st']
    before the rest [s']. *)

Fixpoint steps (st : mstate) (t : string) : mstate :=
  match t with
  | EmptyString => st
  | String c t' => steps (step st c) t'
  end.

Fixpoint all_chars (p : ascii -> bool) (t : string) : bool :=
  match t with
  | EmptyString => true
  | String c t' => p c && all_chars p t'
  end.

Definition within (hi : option nat) (n : nat) : Prop :=
  match hi with Some h => n <= h | None => True end.

Fixpoint span (r : regex) (st : mstate) (s : string) (st' : mstate) (s' : string) : Prop :=
  match r with
  | Eps => st' = st /\ s' = s
  | Chr p => exists c, s = String c s' /\ p c = true /\ st' = step st c
  | Rep p lo hi =>
      exists t, s = t ++ s' /\ all_chars p t = true /\
                lo <= String.length t /\ within hi (String.length t) /\
                st' = steps st t
  | Cat r1 r2 => exists st1 s1, span r1 st s st1 s1 /\ span r2 st1 s1 st' s'
  | Alt r1 r2 => span r1 st s st' s' \/ span r2 st s st' s'
  | Bnd => st' = st /\ s' = s /\ at_boundary st s = true
  | Grp n r1 =>
      exists st1, span r1 st s st1 s' /\ st' = set_cap n (pos st) (pos st1) st1
  end.

(* ================================================================= *)
(** ** Vocabulary of the statements *)

(** Every character is one of the 256 code points. *)
Definition all_ascii : list ascii := map ascii_of_nat (seq 0 256).

Definition trimmed_left (s : string) : Prop :=
  match s with
  | EmptyString => True
  | String c _ => Py.isspace c = false
  end.

(** [[a-f0-9]]: the word characters among [[a-f0-9\-]]. *)
Definition lower_hex (c : ascii) : bool :=
  Py.between 97 102 c || Py.between 48 57 c.

Definition lowered_patterns (a : analysis) : list string :=
  map (fun item => Py.lower (ep_pattern item)) (error_patterns a).

(** [first_seen eqb k l]: the index at which [k] first occurs in [l]
    (the length of [l] when it does not occur). *)
Fixpoint first_seen {K : Type} (eqb : K -> K -> bool) (k : K) (l : list K) : nat :=
  match l with
  | [] => 0
  | x :: l' => if eqb k x then 0 else S (first_seen eqb k l')
  end.

(** The value a [Counter] reads at a key: zero for a missing key. *)
Definition counter_val {K : Type} (eqb : K -> K -> bool) (k : K) (c : list (K * nat)) : nat :=
  match dict_get eqb k c with Some n => n | None => 0 end.

(** How the ranking orders two items: by larger count, and among equal
    counts by the relation [R] that held between them before sorting. *)
Definition ranked {K : Type} (R : K -> K -> Prop) (a b : K * nat) : Prop :=
  snd b < snd a \/ (snd a = snd b /\ R (fst a) (fst b)).

(** The parsed form of an entry's line. *)
Definition parsed (e : entry) : log_entry := parse_log_entry (content e).

(** An entry that has both a component and one of the three error
    severities. *)
Definition contributes (e : entry) : bool :=
  match component (parsed e) with
  | Some _ => is_error_severity (severity (parsed e))
  | None => false
  end.

(** What one iteration of the loop does to [errors_by_component]. *)
Definition buffer_step (b : list (string * list string)) (e : entry)
    : list (string * list string) :=
  match component (parsed e) with
  | Some c =>
      if is_error_severity (severity (parsed e))
      then push String.eqb c (message (parsed e)) b
      else b
  | None => b
  end.

(** The message [msg] is in the error list of component [c]. *)
Definition buffered (b : list (string * list string)) (c msg : string) : Prop :=
  exists errs, In (c, errs) b /\ In msg errs.

Definition key_of (item : error_pattern) : string * string :=
  (ep_component item, ep_pattern item).

(** The sum of the counts of a counter. *)
Definition counter_total {K : Type} (c : list (K * nat)) : nat :=
  list_sum (map snd c).

(** The component and the timestamp of an entry, as lists of zero or one. *)
Definition component_list (e : entry) : list string :=
  match component (parsed e) with Some c => [c] | None => [] end.

Definition timestamp_list (e : entry) : list string :=
  match timestamp (parsed e) with Some t => [t] | None => [] end.

(** What [errors_by_component[c]] reads: the empty list for a missing key. *)
Definition buffer_val (c : string) (b : list (string * list string)) : list string :=
  match dict_get String.eqb c b with Some l => l | None => [] end.

(** An entry of component [c] with an error severity. *)
Definition error_of (c : string) (e : entry) : bool :=
  match component (parsed e) with
  | Some c' => String.eqb c c' && is_error_severity (severity (parsed e))
  | None => false
  end.

(** [a <= b] on strings, compared by code points, as [sorted] compares. *)
Definition str_le (a b : string) : Prop := String.ltb b a = false.

(** The characters a pattern can consume, and the least and greatest number
    of characters a match of it can have ([None]: no bound). *)
Fixpoint may_consume (r : regex) (c : ascii) : bool :=
  match r with
  | Eps | Bnd => false
  | Chr p | Rep p _ _ => p c
  | Cat r1 r2 | Alt r1 r2 => may_consume r1 c || may_consume r2 c
  | Grp _ r1 => may_consume r1 c
  end.

Fixpoint min_len (r : regex) : nat :=
  match r with
  | Eps | Bnd => 0
  | Chr _ => 1
  | Rep _ lo _ => lo
  | Cat r1 r2 => min_len r1 + min_len r2
  | Alt r1 r2 => Nat.min (min_len r1) (min_len r2)
  | Grp _ r1 => min_len r1
  end.

Definition opt_lift (f : nat -> nat -> nat) (a b : option nat) : option nat :=
  match a, b with
  | Some x, Some y => Some (f x y)
  | _, _ => None
  end.

Fixpoint max_len (r : regex) : option nat :=
  match r with
  | Eps | Bnd => Some 0
  | Chr _ => Some 1
  | Rep _ _ hi => hi
  | Cat r1 r2 => opt_lift Nat.add (max_len r1) (max_len r2)
  | Alt r1 r2 => opt_lift Nat.max (max_len r1) (max_len r2)
  | Grp _ r1 => max_len r1
  end.

(** The characters of a timestamp: digits and the separators [- / : T] and
    the space. *)
Definition timestamp_char (c : ascii) : bool :=
  digit c || just "-" c || just "/" c || just ":" c || just "T" c || just " " c.

Definition not_digit (c : ascii) : bool := negb (digit c).

(** [part t s]: the text [t] occurs in [s]. *)
Definition part (t s : string) : Prop := exists a b, s = a ++ t ++ b.

(* ================================================================= *)
(** ** File discovery and search: [find_log_files], [load_csv_logs],
       [search_files]

    The file system is outside the program: [os.walk], [os.path.join], the
    lines of a text file and the frame [pd.read_csv] returns are taken as
    given. *)

(** [s.endswith(suffix)] *)
Fixpoint ends_with (suffix s : string) : bool :=
  String.eqb suffix s ||
  match s with
  | EmptyString => false
  | String _ s' => ends_with suffix s'
  end.

(** [file.endswith(('.log', '.csv'))] *)
Definition is_log_name (file : string) : bool :=
  ends_with ".log" file || ends_with ".csv" file.

Section Discovery.
Variable path_join : string -> string -> string.

(** The inner loop of [find_log_files] (lines 28-32) over the files of one
    directory; [break] leaves this loop only. *)
Fixpoint scan_dir (root : string) (files : list string) (max_files : nat)
    (log_files : list string) : list string :=
  match files with
  | [] => log_files
  | file :: rest =>
      let log_files :=
        if is_log_name file then (log_files ++ [path_join root file])%list
        else log_files in
      if Nat.leb max_files (length log_files) then log_files
      else scan_dir root rest max_files log_files
  end.

(** [walk] is the sequence of [(root, dirs, files)] that [os.walk(directory)]
    yields. *)
Definition find_log_files (walk : list (string * list string * list string))
    (max_files : nat) : list string :=
  fold_left (fun log_files item => scan_dir (fst (fst item)) (snd item) max_files log_files)
            walk [].

(** All files of the walk with a log suffix, joined to their directory. *)
Definition candidates (walk : list (string * list string * list string)) : list string :=
  flat_map (fun item => map (path_join (fst (fst item))) (filter is_log_name (snd item))) walk.

End Discovery.

Definition COLUMN_MAP : list (string * string) :=
  [("timestamp", "Timestamp"); ("severity", "Level");
   ("component", "Component"); ("message", "Message")].

(** [COLUMN_MAP[c]] for one of the four keys of the map. *)
Definition column (c : string) : string :=
  match dict_get String.eqb c COLUMN_MAP with Some v => v | None => EmptyString end.

(** A frame: its column labels and its rows, each row mapping labels to the
    text its cell is formatted to. *)
Record data_frame : Type := DataFrame {
  df_columns : list string;
  df_rows : list (list (string * string))
}.

(** The f-string of line 46. *)
Definition csv_content (ts sev comp msg : string) : string :=
  ts ++ " " ++ sev ++ " [" ++ comp ++ "]: " ++ msg.

(** One iteration of the loop at lines 42-47; [None] when a cell lookup
    raises. *)
Definition row_entry (file_path : string) (row : list (string * string)) : option entry :=
  match dict_get String.eqb (column "timestamp") row,
        dict_get String.eqb (column "severity") row,
        dict_get String.eqb (column "component") row,
        dict_get String.eqb (column "message") row with
  | Some ts, Some sev, Some comp, Some msg =>
      Some (Entry file_path None (csv_content ts sev comp msg))
  | _, _, _, _ => None
  end.

Fixpoint all_some {A : Type} (l : list (option A)) : option (list A) :=
  match l with
  | [] => Some []
  | None :: _ => None
  | Some a :: l' =>
      match all_some l' with
      | Some r => Some (a :: r)
      | None => None
      end
  end.

Section Search.
(** [read_csv]: the frame of a file, [None] when [pd.read_csv] raises.
    [read_lines]: the lines a text file yields before any error. *)
Variable read_csv : string -> option data_frame.
Variable read_lines : string -> list string.

(** Any exception, the [ValueError] for a missing column included, is caught
    and gives the empty list. *)
Definition load_csv_logs (file_path : string) : list entry :=
  match read_csv file_path with
  | None => []
  | Some df =>
      let required_columns :=
        map column ["timestamp"; "severity"; "component"; "message"] in
      if forallb (fun col => existsb (String.eqb col) (df_columns df)) required_columns
      then match all_some (map (row_entry file_path) (df_rows df)) with
           | Some entries => entries
           | None => []
           end
      else []
  end.

(** The loop at lines 61-67 from line index [i] on. *)
Fixpoint matching_lines (file_path search_term : string) (i : nat)
    (lines : list string) : list entry :=
  match lines with
  | [] => []
  | line :: rest =>
      ((if Py.contains (Py.lower search_term) (Py.lower line)
        then [Entry file_path (Some (i + 1)) (Py.strip line)]
        else []) ++
       matching_lines file_path search_term (S i) rest)%list
  end.

Definition search_files (files : list string) (search_term : string) : list entry :=
  flat_map (fun file_path =>
              if ends_with ".csv" file_path
              then load_csv_logs file_path
              else matching_lines file_path search_term 0 (read_lines file_path))
           files.

End Search.

(* ================================================================= *)
(** ** AI enhancement: [enhance_solution_direct] and the loop of
       [enhance_solutions] in [app/agent_helper.py] *)

Module Enhance.

Definition NL : string := String (ascii_of_nat 10) EmptyString.

(** [s.split()]: the maximal runs of non-blank characters. *)
Fixpoint words_from (cur s : string) : list string :=
  match s with
  | EmptyString => if Py.truthy cur then [cur] else []
  | String c s' =>
      if Py.isspace c
      then ((if Py.truthy cur then [cur] else []) ++ words_from EmptyString s')%list
      else words_from (cur ++ String c EmptyString) s'
  end.

Definition split_ws (s : string) : list string := words_from EmptyString s.

(** The prompt of lines 96-102. *)
Definition prompt_of (problem solution : string) (log_examples : list string) : string :=
  let log_text :=
    String.concat NL (match log_examples with
                      | [] => ["No examples"]
                      | _ => log_examples
                      end) in
  "Enhance this log analysis solution:" ++ NL ++
  "Problem: " ++ problem ++ NL ++
  "Basic solution: " ++ solution ++ NL ++
  "Log examples:" ++ NL ++
  log_text ++ NL ++
  "Provide a detailed explanation and specific steps to resolve the issue.".

(** Line 126-127: the patterns handed to the model for one problem. *)
Definition mentions (problem : string) (p : error_pattern) : bool :=
  existsb (fun k => Py.contains k (Py.lower (ep_pattern p)))
          (split_ws (Py.lower problem)).

Definition example_patterns (problem : string) (eps : list error_pattern) : list string :=
  firstn 3 (map ep_pattern (filter (mentions problem) eps)).

Record enhanced : Type := Enhanced {
  en_problem : string;
  en_solution : string;
  ai_enhanced : bool;
  original_solution : option string
}.

Section WithModel.
(** The model call: the text it answers, [None] when the request raises. *)
Variable model : string -> option string.

Definition enhance_solution_direct (problem solution : string)
    (log_examples : list string) : string :=
  match model (prompt_of problem solution log_examples) with
  | Some answer => answer
  | None => solution
  end.

(** One iteration of the loop at lines 124-134. *)
Definition enhance_one (eps : list error_pattern) (s : suggestion) : enhanced :=
  let base := solution s in
  let patterns := example_patterns (problem s) eps in
  let new_sol := enhance_solution_direct (problem s) base patterns in
  let changed := negb (String.eqb new_sol base) in
  {| en_problem := problem s;
     en_solution := if changed then new_sol else base;
     ai_enhanced := changed;
     original_solution := if changed then Some base else None |}.

Definition enhance_all (eps : list error_pattern) (solutions : list suggestion)
    : list enhanced :=
  map (enhance_one eps) solutions.

End WithModel.

End Enhance.

(** What [find_log_files] keeps true of the list it builds, against the
    candidates seen so far: the first [max_files] agree, below [max_files]
    nothing was left out, and nothing else was added. *)
Definition found_so_far (max_files : nat) (log_files seen : list string) : Prop :=
  firstn max_files log_files = firstn max_files seen /\
  (length log_files < max_files -> log_files = seen) /\
  incl log_files seen.

Definition not_blank (c : ascii) : bool := negb (Py.isspace c).

(** Sample inputs for the statements at concrete inputs. *)
Definition sample_batch : list entry :=
  map (Entry "app.log" None)
      ["2023-01-02 03:04:05 ERROR [A]: message number one";
       "2023-01-01 00:00:00 FATAL [B]: message number two";
       "ERROR [A]: message number three";
       "ERROR no component here";
       "2024-05-06 07:08:09 info [C]: started"].

Definition sample_lines (file_path : string) : list string :=
  if String.eqb file_path "app.log"
  then ["boot ok"; "  Error: disk full  "; "ERRORS seen"]
  else [].

Definition sample_frame : data_frame :=
  DataFrame ["Timestamp"; "Level"; "Component"; "Message"]
    [[("Timestamp", "2023-06-01 10:05"); ("Level", "ERROR");
      ("Component", "Demo"); ("Message", "Connection failed")]].

Definition sample_cells (row : list (string * string)) : string * string * string * string :=
  let cell k := match dict_get String.eqb k row with Some v => v | None => "" end in
  (cell "Timestamp", cell "Level", cell "Component", cell "Message").

(** A separator: a character that is neither a word character nor a hyphen;
    it belongs to no ID run and makes a word boundary with a word character
    next to it. *)
Definition separator (c : ascii) : bool :=
  negb (Py.is_word c) && negb (hex_or_hyphen c).

Fixpoint last_char (s : string) : option ascii :=
  match s with
  | EmptyString => None
  | String c EmptyString => Some c
  | String _ s' => last_char s'
  end.

(** The edge of the text, or a separator. *)
Definition sep_opt (o : option ascii) : bool :=
  match o with None => true | Some c => separator c end.

(** A non-empty text whose last character is outside [[a-f0-9\-]]. *)
Definition ends_open (s : string) : bool :=
  match last_char s with Some c => negb (hex_or_hyphen c) | None => false end.

(** The end of the ID pattern: accept at a word boundary. *)
Definition at_bound : kont :=
  fun st s => if at_boundary st s then Some (st, s) else None.

Definition glue (rest : string) (r : mstate * string) : mstate * string :=
  (fst r, snd r ++ rest).

(** Two states that see the same previous character, at positions that
    differ by a fixed offset. *)
Definition same_view (a b : nat) (st st' : mstate) : Prop :=
  prev st = prev st' /\ pos st + a = pos st' + b.

Definition same_result (a b : nat) (o o' : option (mstate * string)) : Prop :=
  match o, o' with
  | None, None => True
  | Some (e, s), Some (e', s') => same_view a b e e' /\ s = s'
  | _, _ => False
  end.

(* ================================================================= *)
(** ** The entry parser on text beyond U+00FF

    Under [re.IGNORECASE] a letter of the pattern matches every character
    that Python's case tables relate to it.  For the letters of the seven
    severity keywords these are the two cases of the letter, and for the
    letter I also U+0130 (capital I with dot above) and U+0131 (dotless
    small i); no other character matches any of them.  [Wide] is
    [parse_log_entry] on text in which those two characters, and any other
    character, may occur. *)

Module Wide.

Local Open Scope list_scope.

(** What Python's tables say about a character that is not written out
    below: [\w] only, [\d] (and so [\w]), [str.isspace], or none of them. *)
Inductive kind : Type := KWord | KDigit | KSpace | KPlain.

(** A character: a code point up to U+00FF, U+0130, U+0131, or any other
    code point together with its kind. *)
Inductive uchar : Type :=
| Latin (a : ascii)
| DotI
| DotlessI
| Other (n : N) (k : kind).

Definition text : Type := list uchar.

Fixpoint of_string (s : string) : text :=
  match s with
  | EmptyString => []
  | String c s' => Latin c :: of_string s'
  end.

Definition kind_eqb (j k : kind) : bool :=
  match j, k with
  | KWord, KWord | KDigit, KDigit | KSpace, KSpace | KPlain, KPlain => true
  | _, _ => false
  end.

Definition eqb (x y : uchar) : bool :=
  match x, y with
  | Latin a, Latin b => Ascii.eqb a b
  | DotI, DotI => true
  | DotlessI, DotlessI => true
  | Other n j, Other m k => N.eqb n m && kind_eqb j k
  | _, _ => false
  end.

(** [str.isspace]; U+0130 and U+0131 are letters. *)
Definition isspace (x : uchar) : bool :=
  match x with
  | Latin a => Py.isspace a
  | Other _ KSpace => true
  | _ => false
  end.

(** [\d] *)
Definition is_digit (x : uchar) : bool :=
  match x with
  | Latin a => Py.is_digit a
  | Other _ KDigit => true
  | _ => false
  end.

(** [\w] *)
Definition is_word (x : uchar) : bool :=
  match x with
  | Latin a => Py.is_word a
  | DotI | DotlessI => true
  | Other _ KWord | Other _ KDigit => true
  | Other _ _ => false
  end.

(** [str.upper] on one character: U+0130 is its own upper case and the
    upper case of U+0131 is the letter I.  The program upper-cases matched
    severity tokens only; they hold no other character from outside
    U+0000 .. U+00FF, which is left as it is here. *)
Definition upper_char (x : uchar) : uchar :=
  match x with
  | Latin a => Latin (Py.upper_char a)
  | DotI => DotI
  | DotlessI => Latin "I"
  | Other n k => Other n k
  end.

Definition upper : text -> text := map upper_char.

Fixpoint lstrip (s : text) : text :=
  match s with
  | c :: s' => if isspace c then lstrip s' else s
  | [] => []
  end.

Fixpoint rstrip (s : text) : text :=
  match s with
  | [] => []
  | c :: s' =>
      match rstrip s' with
      | [] => if isspace c then [] else [c]
      | r => c :: r
      end
  end.

Definition strip (s : text) : text := rstrip (lstrip s).

Fixpoint drop_prefix (p s : text) : option text :=
  match p, s with
  | [], _ => Some s
  | a :: p', b :: s' => if eqb a b then drop_prefix p' s' else None
  | _ :: _, [] => None
  end.

Fixpoint after_first (sep s : text) : option text :=
  match drop_prefix sep s with
  | Some r => Some r
  | None =>
      match s with
      | [] => None
      | _ :: s' => after_first sep s'
      end
  end.

(** [s.split(sep, 1)[-1]] *)
Definition split1_last (sep s : text) : text :=
  match after_first sep s with
  | Some r => r
  | None => s
  end.

(** [s[i:j]] for [0 <= i <= j]. *)
Definition slice (i j : nat) (s : text) : text := firstn (j - i) (skipn i s).

(** The matcher of [Re], on this text. *)

Inductive regex : Type :=
| Eps
| Chr (p : uchar -> bool)
| Rep (p : uchar -> bool) (lo : nat) (hi : option nat)
| Cat (r1 r2 : regex)
| Alt (r1 r2 : regex)
| Bnd
| Grp (n : nat) (r : regex).

Record mstate : Type := MState {
  pos : nat;
  prev : option uchar;
  caps : list (nat * (nat * nat))
}.

Definition start : mstate := MState 0 None [].

Definition step (st : mstate) (c : uchar) : mstate :=
  MState (S (pos st)) (Some c) (caps st).

Definition set_cap (n i j : nat) (st : mstate) : mstate :=
  MState (pos st) (prev st) ((n, (i, j)) :: caps st).

Definition word_opt (o : option uchar) : bool :=
  match o with Some c => is_word c | None => false end.

Definition at_boundary (st : mstate) (s : text) : bool :=
  xorb (word_opt (prev st)) (word_opt (hd_error s)).

Definition kont : Type := mstate -> text -> option (mstate * text).

Fixpoint rep (p : uchar -> bool) (lo : nat) (hi : option nat)
    (st : mstate) (s : text) (k : kont) : option (mstate * text) :=
  let stop := match lo with 0 => k st s | S _ => None end in
  match s with
  | c :: s' =>
      if p c && room hi then
        match rep p (pred lo) (option_map pred hi) (step st c) s' k with
        | Some r => Some r
        | None => stop
        end
      else stop
  | [] => stop
  end.

Fixpoint run (r : regex) (st : mstate) (s : text) (k : kont)
    : option (mstate * text) :=
  match r with
  | Eps => k st s
  | Chr p =>
      match s with
      | c :: s' => if p c then k (step st c) s' else None
      | [] => None
      end
  | Rep p lo hi => rep p lo hi st s k
  | Cat r1 r2 => run r1 st s (fun st1 s1 => run r2 st1 s1 k)
  | Alt r1 r2 =>
      match run r1 st s k with
      | Some x => Some x
      | None => run r2 st s k
      end
  | Bnd => if at_boundary st s then k st s else None
  | Grp n r1 => run r1 st s (fun st1 s1 => k (set_cap n (pos st) (pos st1) st1) s1)
  end.

Definition accept : kont := fun st s => Some (st, s).

Definition match_here (r : regex) (st : mstate) (s : text)
    : option (mstate * text) :=
  run r st s accept.

Fixpoint scan (r : regex) (st : mstate) (s : text) : option rmatch :=
  match match_here r st s with
  | Some (e, _) => Some (RMatch (pos st) (pos e) (caps e))
  | None =>
      match s with
      | [] => None
      | c :: s' => scan r (step st c) s'
      end
  end.

Definition search (r : regex) (s : text) : option rmatch := scan r start s.

Definition group0 (m : rmatch) (s : text) : text :=
  slice (m_start m) (m_end m) s.

Definition group (n : nat) (m : rmatch) (s : text) : text :=
  match lookup_cap n (m_caps m) with
  | Some (i, j) => slice i j s
  | None => []
  end.

(** A class of characters up to U+00FF; no other character is in it. *)
Definition latin (p : ascii -> bool) (x : uchar) : bool :=
  match x with Latin a => p a | _ => false end.

Definition just (c : ascii) : uchar -> bool := latin (Ascii.eqb c).

(** A keyword spelled in upper-case and lower-case letters: the character
    is one of the two cases of the letter. *)
Definition same_letter (c : ascii) : uchar -> bool :=
  latin (fun a => Ascii.eqb (Py.lower_char a) (Py.lower_char c)).

(** A letter of a severity keyword under [re.IGNORECASE]: the two cases of
    the letter, and for the letter I also U+0130 and U+0131. *)
Definition is_ci (c : ascii) (x : uchar) : bool :=
  match x with
  | Latin a => Ascii.eqb (Py.lower_char a) (Py.lower_char c)
  | DotI | DotlessI => Ascii.eqb (Py.lower_char c) "i"
  | Other _ _ => false
  end.

Fixpoint lit_ci (w : string) : regex :=
  match w with
  | EmptyString => Eps
  | String c w' => Cat (Chr (is_ci c)) (lit_ci w')
  end.

Fixpoint alts (rs : list regex) : regex :=
  match rs with
  | [] => Chr (fun _ => false)
  | [r] => r
  | r :: rs' => Alt r (alts rs')
  end.

Fixpoint cats (rs : list regex) : regex :=
  match rs with
  | [] => Eps
  | [r] => r
  | r :: rs' => Cat r (cats rs')
  end.

Definition times (p : uchar -> bool) (n : nat) : regex := Rep p n (Some n).

Definition digit : uchar -> bool := is_digit.

(** [[T ]] *)
Definition t_or_space (c : uchar) : bool := just "T" c || just " " c.

(** [[^\]]] *)
Definition not_close (c : uchar) : bool := negb (just "]" c).

Definition timestamp_re : regex :=
  Alt
    (Grp 1 (cats [times digit 4; Chr (just "-"); times digit 2; Chr (just "-");
                  times digit 2; Chr t_or_space;
                  times digit 2; Chr (just ":"); times digit 2; Chr (just ":");
                  times digit 2]))
    (Grp 2 (cats [Grp 3 (cats [Rep digit 1 (Some 2); Chr (just "/");
                               Rep digit 1 (Some 2); Chr (just "/");
                               times digit 4]);
                  Chr t_or_space; times digit 2; Chr (just ":"); times digit 2])).

(** [\b(ERROR|INFO|WARNING|DEBUG|CRITICAL|WARN|FATAL)\b] with [re.IGNORECASE] *)
Definition severity_re : regex :=
  Cat Bnd (Cat (Grp 1 (alts (map lit_ci severity_keywords))) Bnd).

(** [\[([^\]]+)\]] *)
Definition component_re : regex :=
  cats [Chr (just "["); Grp 1 (Rep not_close 1 None); Chr (just "]")].

Record log_entry : Type := LogEntry {
  raw : text;
  timestamp : option text;
  severity : text;
  component : option text;
  message : text
}.

Definition remainder_of (line : text) : text :=
  match search severity_re line with
  | Some severity_match =>
      strip (split1_last (group0 severity_match line) line)
  | None => line
  end.

Definition parse_log_entry (line : text) : log_entry :=
  let timestamp_match := search timestamp_re line in
  let severity_match := search severity_re line in
  let remainder := remainder_of line in
  let component_match := search component_re remainder in
  {| raw := line;
     timestamp := option_map (fun m => group0 m line) timestamp_match;
     severity :=
       match severity_match with
       | Some m => upper (group 1 m line)
       | None => of_string "UNKNOWN"
       end;
     component := option_map (fun m => group 1 m remainder) component_match;
     message :=
       match component_match with
       | Some _ => strip (split1_last (of_string "]:") remainder)
       | None => remainder
       end |}.

(** The text passed by the matcher, and what a match consists of. *)

Fixpoint steps (st : mstate) (t : text) : mstate :=
  match t with
  | [] => st
  | c :: t' => steps (step st c) t'
  end.

Fixpoint span (r : regex) (st : mstate) (s : text) (st' : mstate) (s' : text) : Prop :=
  match r with
  | Eps => st' = st /\ s' = s
  | Chr p => exists c, s = c :: s' /\ p c = true /\ st' = step st c
  | Rep p lo hi =>
      exists t, s = t ++ s' /\ forallb p t = true /\
                lo <= length t /\ within hi (length t) /\
                st' = steps st t
  | Cat r1 r2 => exists st1 s1, span r1 st s st1 s1 /\ span r2 st1 s1 st' s'
  | Alt r1 r2 => span r1 st s st' s' \/ span r2 st s st' s'
  | Bnd => st' = st /\ s' = s /\ at_boundary st s = true
  | Grp n r1 =>
      exists st1, span r1 st s st1 s' /\ st' = set_cap n (pos st) (pos st1) st1
  end.

(** [spelled p w t]: the text [t] spells the word [w], letter by letter,
    under the comparison [p]. *)
Fixpoint spelled (p : ascii -> uchar -> bool) (w : string) (t : text) : bool :=
  match w, t with
  | EmptyString, [] => true
  | String c w', x :: t' => p c x && spelled p w' t'
  | _, _ => false
  end.

(** [starts p w s]: [s] begins with a spelling of [w]. *)
Fixpoint starts (p : ascii -> uchar -> bool) (w : string) (s : text) : bool :=
  match w, s with
  | EmptyString, _ => true
  | String c w', x :: s' => p c x && starts p w' s'
  | String _ _, [] => false
  end.

(** [occurs p w s]: a spelling of [w] occurs somewhere in [s]. *)
Fixpoint occurs (p : ascii -> uchar -> bool) (w : string) (s : text) : bool :=
  starts p w s ||
  match s with
  | [] => false
  | _ :: s' => occurs p w s'
  end.

(** Neither U+0130 nor U+0131. *)
Definition undotted (x : uchar) : bool :=
  match x with DotI | DotlessI => false | _ => true end.

Definition not_dot_i (x : uchar) : bool :=
  match x with DotI => false | _ => true end.

Definition keywords : list text := map of_string severity_keywords.

(** The two sample lines: U+0130 followed by ["NFO [x]: y"], and
    ["[pre] UNKNOWN "], U+0131, ["nfo [a] x"]. *)
Definition dotted_line : text := DotI :: of_string "NFO [x]: y".

Definition dotless_line : text :=
  of_string "[pre] UNKNOWN " ++ DotlessI :: of_string "nfo [a] x".

End Wide.

(** Text of code points up to U+00FF as text of [Wide], with the matcher
    states and the entries that go with it. *)
Definition of_state (st : mstate) : Wide.mstate :=
  Wide.MState (pos st) (option_map Wide.Latin (prev st)) (caps st).

Definition of_result (o : option (mstate * string))
    : option (Wide.mstate * Wide.text) :=
  option_map (fun r => (of_state (fst r), Wide.of_string (snd r))) o.

Definition of_entry (e : log_entry) : Wide.log_entry :=
  {| Wide.raw := Wide.of_string (raw e);
     Wide.timestamp := option_map Wide.of_string (timestamp e);
     Wide.severity := Wide.of_string (severity e);
     Wide.component := option_map Wide.of_string (component e);
     Wide.message := Wide.of_string (message e) |}.

(** [widens r R]: the two patterns are the same pattern, and their classes
    agree on the characters up to U+00FF. *)
Fixpoint widens (r : regex) (R : Wide.regex) : Prop :=
  match r, R with
  | Eps, Wide.Eps => True
  | Chr p, Wide.Chr P => forall a, P (Wide.Latin a) = p a
  | Rep p lo hi, Wide.Rep P lo' hi' =>
      (forall a, P (Wide.Latin a) = p a) /\ lo = lo' /\ hi = hi'
  | Cat r1 r2, Wide.Cat R1 R2 => widens r1 R1 /\ widens r2 R2
  | Alt r1 r2, Wide.Alt R1 R2 => widens r1 R1 /\ widens r2 R2
  | Bnd, Wide.Bnd => True
  | Grp n r1, Wide.Grp n' R1 => n = n' /\ widens r1 R1
  | _, _ => False
  end.

(* ================================================================= *)
(** ** Facts about strings *)

Section StringFacts.

Lemma app_empty_r (s : string) : s ++ "" = s.
Proof. induction s as [|c s IH]; simpl; [reflexivity | now rewrite IH]. Qed.

Lemma app_assoc_str (a b c : string) : (a ++ b) ++ c = a ++ (b ++ c).
Proof. induction a as [|x a IH]; simpl; [reflexivity | now rewrite IH]. Qed.

Lemma app_snoc (a : string) (c : ascii) (b : string) :
  (a ++ String c "") ++ b = a ++ String c b.
Proof. now rewrite app_assoc_str. Qed.

Lemma length_app (a b : string) :
  String.length (a ++ b) = String.length a + String.length b.
Proof. induction a as [|x a IH]; simpl; [reflexivity | now rewrite IH]. Qed.

Lemma substring_all (s : string) : substring 0 (String.length s) s = s.
Proof. induction s as [|c s IH]; simpl; [reflexivity | now rewrite IH]. Qed.

Lemma substring_prefix (t s : string) :
  substring 0 (String.length t) (t ++ s) = t.
Proof.
  induction t as [|c t IH]; simpl.
  - destruct s; reflexivity.
  - now rewrite IH.
Qed.

Lemma substring_middle (pre t s : string) :
  substring (String.length pre) (String.length t) (pre ++ t ++ s) = t.
Proof.
  induction pre as [|c pre IH]; simpl.
  - apply substring_prefix.
  - exact IH.
Qed.

Lemma slice_middle (pre t s : string) :
  Py.slice (String.length pre) (String.length pre + String.length t) (pre ++ t ++ s) = t.
Proof.
  unfold Py.slice.
  replace (String.length pre + String.length t - String.length pre)
    with (String.length t) by lia.
  apply substring_middle.
Qed.

Lemma drop_prefix_app (p s : string) : Py.drop_prefix p (p ++ s) = Some s.
Proof.
  induction p as [|c p IH]; simpl; [reflexivity|].
  now rewrite Ascii.eqb_refl.
Qed.

Lemma drop_prefix_sound (p s r : string) :
  Py.drop_prefix p s = Some r -> s = p ++ r.
Proof.
  revert s; induction p as [|c p IH]; intros s H; simpl in *.
  - now inversion H.
  - destruct s as [|b s]; [discriminate|].
    destruct (Ascii.eqb c b) eqn:E; [|discriminate].
    apply Ascii.eqb_eq in E; subst b.
    now rewrite (IH _ H).
Qed.

Lemma after_first_sound (sep s r : string) :
  Py.after_first sep s = Some r -> exists pre, s = pre ++ sep ++ r.
Proof.
  induction s as [|c s IH]; simpl.
  - destruct (Py.drop_prefix sep "") eqn:E; [|discriminate].
    intros H; inversion H; subst.
    exists ""; simpl. now apply drop_prefix_sound.
  - destruct (Py.drop_prefix sep (String c s)) eqn:E.
    + intros H; inversion H; subst.
      exists ""; simpl. now apply drop_prefix_sound.
    + intros H. destruct (IH H) as [pre Hpre].
      exists (String c pre). simpl. now rewrite Hpre.
Qed.

Lemma after_first_here (sep s r : string) :
  Py.drop_prefix sep s = Some r -> Py.after_first sep s = Some r.
Proof. intros H. destruct s; simpl; now rewrite H. Qed.

Lemma after_first_found (sep pre r : string) :
  exists r', Py.after_first sep (pre ++ sep ++ r) = Some r'.
Proof.
  induction pre as [|c pre IH].
  - exists r. apply after_first_here. exact (drop_prefix_app sep r).
  - destruct IH as [r' IH]. simpl.
    destruct (Py.drop_prefix sep (String c (pre ++ sep ++ r))); eauto.
Qed.

Lemma contains_app (sub pre r : string) :
  Py.contains sub (pre ++ sub ++ r) = true.
Proof.
  unfold Py.contains.
  destruct (after_first_found sub pre r) as [r' H]. now rewrite H.
Qed.

Lemma contains_false_split1 (sep s : string) :
  Py.contains sep s = false -> Py.split1_last sep s = s.
Proof.
  unfold Py.contains, Py.split1_last.
  destruct (Py.after_first sep s); [discriminate | reflexivity].
Qed.

Lemma map_str_app (f : ascii -> ascii) (a b : string) :
  Py.map_str f (a ++ b) = Py.map_str f a ++ Py.map_str f b.
Proof. induction a as [|c a IH]; simpl; [reflexivity | now rewrite IH]. Qed.

Lemma in_all_ascii (c : ascii) : In c all_ascii.
Proof.
  unfold all_ascii. rewrite <- (ascii_nat_embedding c).
  apply in_map, in_seq. pose proof (nat_ascii_bounded c). lia.
Qed.

Lemma for_all_ascii (P : ascii -> bool) :
  forallb P all_ascii = true -> forall c, P c = true.
Proof.
  intros H c. rewrite forallb_forall in H. apply H, in_all_ascii.
Qed.

(** Two characters that agree after [lower] agree after [upper]. *)
Lemma lower_char_upper_char (x c : ascii) :
  Py.lower_char x = Py.lower_char c -> Py.upper_char x = Py.upper_char c.
Proof.
  intros H.
  assert (G : forall a b,
             implb (Ascii.eqb (Py.lower_char a) (Py.lower_char b))
                   (Ascii.eqb (Py.upper_char a) (Py.upper_char b)) = true).
  { intros a. apply for_all_ascii. revert a. apply for_all_ascii.
    vm_compute. reflexivity. }
  specialize (G x c). rewrite H, Ascii.eqb_refl in G. simpl in G.
  now apply Ascii.eqb_eq.
Qed.

End StringFacts.

(* ================================================================= *)
(** ** Facts about the matcher *)

Section MatcherFacts.

Lemma steps_app (st : mstate) (a b : string) :
  steps st (a ++ b) = steps (steps st a) b.
Proof. revert st; induction a as [|c a IH]; intros st; simpl; [reflexivity | apply IH]. Qed.

Lemma pos_steps (st : mstate) (t : string) :
  pos (steps st t) = pos st + String.length t.
Proof.
  revert st; induction t as [|c t IH]; intros st; simpl; [lia|].
  rewrite IH. simpl. lia.
Qed.

Lemma caps_steps (st : mstate) (t : string) : caps (steps st t) = caps st.
Proof. revert st; induction t as [|c t IH]; intros st; simpl; [reflexivity | now rewrite IH]. Qed.

(** The character before the position only depends on the text passed. *)
Lemma prev_steps (st st' : mstate) (c : ascii) (t : string) :
  prev (steps st (String c t)) = prev (steps st' (String c t)).
Proof.
  revert st st' c; induction t as [|d t IH]; intros st st' c; [reflexivity|].
  exact (IH (step st c) (step st' c) d).
Qed.

Lemma rep_sound (p : ascii -> bool) (s : string) :
  forall lo hi st k res,
    rep p lo hi st s k = Some res ->
    exists t s', s = t ++ s' /\ all_chars p t = true /\
                 lo <= String.length t /\ within hi (String.length t) /\
                 k (steps st t) s' = Some res.
Proof.
  induction s as [|c s IH]; intros lo hi st k res H.
  - simpl in H. destruct lo; [|discriminate].
    exists "", "". repeat split; auto. destruct hi; simpl; lia.
  - simpl in H.
    assert (Stop : match lo with 0 => k st (String c s) | S _ => None end = Some res ->
                   exists t s', String c s = t ++ s' /\ all_chars p t = true /\
                     lo <= String.length t /\ within hi (String.length t) /\
                     k (steps st t) s' = Some res).
    { intros E. destruct lo; [|discriminate].
      exists "", (String c s). repeat split; auto. destruct hi; simpl; lia. }
    destruct (p c) eqn:Pc; simpl in H; [|now apply Stop].
    destruct (room hi) eqn:Rm; [|now apply Stop].
    destruct (rep p (pred lo) (option_map pred hi) (step st c) s k) eqn:E;
      [|now apply Stop].
    inversion H; subst p0; clear H.
    destruct (IH _ _ _ _ _ E) as (t & s' & Hs & Ht & Hlo & Hhi & Hk).
    exists (String c t), s'. simpl. rewrite Pc, Ht, Hs.
    repeat split; auto; try lia.
    destruct hi as [h|]; simpl in *; [|exact I].
    destruct h; [discriminate | lia].
Qed.

(** A successful run went through some match of the pattern, and the
    continuation accepted where that match ended. *)
Lemma run_sound (r : regex) :
  forall st s k res,
    run r st s k = Some res ->
    exists st' s', span r st s st' s' /\ k st' s' = Some res.
Proof.
  induction r as [|p|p lo hi|r1 IH1 r2 IH2|r1 IH1 r2 IH2| |n r1 IH1];
    intros st s k res H; simpl in H.
  - exists st, s. simpl. auto.
  - destruct s as [|c s]; [discriminate|].
    destruct (p c) eqn:Pc; [|discriminate].
    exists (step st c), s. simpl. eauto.
  - destruct (rep_sound _ _ _ _ _ _ _ H) as (t & s' & Hs & Ht & Hlo & Hhi & Hk).
    exists (steps st t), s'. simpl. split; [exists t|]; auto.
  - destruct (IH1 _ _ _ _ H) as (st1 & s1 & Sp1 & H1).
    destruct (IH2 _ _ _ _ H1) as (st2 & s2 & Sp2 & H2).
    exists st2, s2. simpl. eauto.
  - destruct (run r1 st s k) eqn:E.
    + inversion H; subst p; clear H.
      destruct (IH1 _ _ _ _ E) as (st1 & s1 & Sp1 & H1).
      exists st1, s1. simpl. auto.
    + destruct (IH2 _ _ _ _ H) as (st2 & s2 & Sp2 & H2).
      exists st2, s2. simpl. auto.
  - destruct (at_boundary st s) eqn:B; [|discriminate].
    exists st, s. simpl. auto.
  - destruct (IH1 _ _ _ _ H) as (st1 & s1 & Sp1 & H1).
    exists (set_cap n (pos st) (pos st1) st1), s1. simpl. eauto.
Qed.

Lemma match_here_sound (r : regex) (st : mstate) (s : string) (e : mstate) (s' : string) :
  match_here r st s = Some (e, s') -> span r st s e s'.
Proof.
  intros H. destruct (run_sound _ _ _ _ _ H) as (st' & s1 & Sp & Hk).
  unfold accept in Hk. now inversion Hk; subst.
Qed.

(** A match consumes a prefix of the text and moves the position past it. *)
Lemma span_text (r : regex) :
  forall st s st' s',
    span r st s st' s' ->
    exists t, s = t ++ s' /\ pos st' = pos st + String.length t /\
              prev st' = prev (steps st t).
Proof.
  induction r as [|p|p lo hi|r1 IH1 r2 IH2|r1 IH1 r2 IH2| |n r1 IH1];
    intros st s st' s' H; simpl in H.
  - destruct H as [-> ->]. exists "". simpl. auto.
  - destruct H as (c & -> & _ & ->). exists (String c ""). simpl. split; auto. split; auto; lia.
  - destruct H as (t & -> & _ & _ & _ & ->). exists t. rewrite pos_steps. auto.
  - destruct H as (st1 & s1 & Sp1 & Sp2).
    destruct (IH1 _ _ _ _ Sp1) as (t1 & -> & P1 & V1).
    destruct (IH2 _ _ _ _ Sp2) as (t2 & -> & P2 & V2).
    exists (t1 ++ t2). rewrite app_assoc_str, length_app, steps_app.
    repeat split; auto; [lia|].
    rewrite V2. destruct t2 as [|c t2]; simpl; [exact V1 | apply prev_steps].
  - destruct H as [H|H]; eauto.
  - destruct H as (-> & -> & _). exists "". simpl. auto.
  - destruct H as (st1 & Sp1 & ->).
    destruct (IH1 _ _ _ _ Sp1) as (t & -> & P & V). exists t. simpl. auto.
Qed.

(** [scan] reports a match of the pattern at some position of the text. *)
Lemma scan_sound (r : regex) (s : string) :
  forall st m,
    scan r st s = Some m ->
    exists pre s1 e s',
      s = pre ++ s1 /\ span r (steps st pre) s1 e s' /\
      m = RMatch (pos (steps st pre)) (pos e) (caps e).
Proof.
  induction s as [|c s IH]; intros st m H; simpl in H.
  - destruct (match_here r st "") as [[e s']|] eqn:E; [|discriminate].
    inversion H; subst m. exists "", "", e, s'. simpl.
    repeat split; auto. now apply match_here_sound.
  - destruct (match_here r st (String c s)) as [[e s']|] eqn:E.
    + inversion H; subst m. exists "", (String c s), e, s'. simpl.
      repeat split; auto. now apply match_here_sound.
    + destruct (IH _ _ H) as (pre & s1 & e & s' & -> & Sp & ->).
      exists (String c pre), s1, e, s'. simpl. auto.
Qed.

(** When [scan] finds nothing, no position of the text has a match. *)
Lemma scan_none (r : regex) (s : string) :
  forall st, scan r st s = None ->
    forall pre s1, s = pre ++ s1 -> match_here r (steps st pre) s1 = None.
Proof.
  induction s as [|c s IH]; intros st H pre s1 Hs; simpl in H.
  - destruct pre; [|discriminate]. simpl in *. subst s1.
    destruct (match_here r st ""); [destruct p; discriminate | reflexivity].
  - destruct (match_here r st (String c s)) as [[e s']|] eqn:E; [discriminate|].
    destruct pre as [|d pre]; simpl in *.
    + now subst s1.
    + inversion Hs; subst. now apply IH.
Qed.

Lemma span_alts (rs : list regex) :
  forall st s st' s',
    span (alts rs) st s st' s' -> exists r, In r rs /\ span r st s st' s'.
Proof.
  induction rs as [|r rs IH]; intros st s st' s' H.
  - simpl in H. destruct H as (c & _ & F & _). discriminate.
  - destruct rs as [|r' rs].
    + exists r. simpl. auto.
    + change (span r st s st' s' \/ span (alts (r' :: rs)) st s st' s') in H.
      destruct H as [H|H].
      * exists r. simpl. auto.
      * destruct (IH _ _ _ _ H) as (r0 & In0 & Sp0).
        exists r0. split; [right|]; auto.
Qed.

Lemma span_lit_ci (w : string) :
  forall st s st' s',
    span (lit_ci w) st s st' s' ->
    exists t, s = t ++ s' /\ st' = steps st t /\ Py.lower t = Py.lower w.
Proof.
  induction w as [|c w IH]; intros st s st' s' H; simpl in H.
  - destruct H as [-> ->]. exists "". auto.
  - destruct H as (st1 & s1 & (x & -> & Hx & ->) & Sp).
    destruct (IH _ _ _ _ Sp) as (t & -> & -> & Ht).
    exists (String x t). simpl. repeat split; auto.
    unfold is_ci in Hx. apply Ascii.eqb_eq in Hx.
    unfold Py.lower in *. simpl. now rewrite Hx, Ht.
Qed.

End MatcherFacts.

(* ================================================================= *)
(** ** Facts about the entry parser *)

Section ParserFacts.

Lemma upper_keyword (w : string) : In w severity_keywords -> Py.upper w = w.
Proof.
  unfold severity_keywords. simpl.
  intros H. repeat (destruct H as [<-|H]; [reflexivity|]). contradiction.
Qed.

Lemma parse_unmatched (line : string) :
  search severity_re line = None ->
  severity (parse_log_entry line) = "UNKNOWN" /\ remainder_of line = line.
Proof.
  intros H. unfold parse_log_entry, remainder_of. rewrite H. auto.
Qed.

Lemma message_of_remainder (line : string) :
  message (parse_log_entry line) =
    match search component_re (remainder_of line) with
    | Some _ => Py.strip (Py.split1_last "]:" (remainder_of line))
    | None => remainder_of line
    end.
Proof. reflexivity. Qed.

Lemma component_of_remainder (line : string) :
  component (parse_log_entry line) =
    option_map (fun m => group 1 m (remainder_of line))
               (search component_re (remainder_of line)).
Proof. reflexivity. Qed.

End ParserFacts.

Section StripFacts.

Lemma lstrip_trimmed (s : string) : trimmed_left (Py.lstrip s).
Proof.
  induction s as [|c s IH]; simpl; [exact I|].
  destruct (Py.isspace c) eqn:E; [exact IH | exact E].
Qed.

Lemma lstrip_fixed (s : string) : trimmed_left s -> Py.lstrip s = s.
Proof. destruct s as [|c s]; simpl; [reflexivity | now intros ->]. Qed.

Lemma rstrip_trimmed (s : string) : trimmed_left s -> trimmed_left (Py.rstrip s).
Proof.
  destruct s as [|c s]; simpl; [auto|]. intros H.
  destruct (Py.rstrip s); [rewrite H|]; exact H.
Qed.

Lemma rstrip_idem (s : string) : Py.rstrip (Py.rstrip s) = Py.rstrip s.
Proof.
  induction s as [|c s IH]; [reflexivity|]. simpl.
  destruct (Py.rstrip s) as [|d r] eqn:E.
  - destruct (Py.isspace c) eqn:Sc; simpl; [reflexivity | now rewrite Sc].
  - change (Py.rstrip (String c (String d r))) with
      (match Py.rstrip (String d r) with
       | EmptyString => if Py.isspace c then EmptyString else String c EmptyString
       | r' => String c r'
       end).
    now rewrite IH.
Qed.

Lemma strip_idem (s : string) : Py.strip (Py.strip s) = Py.strip s.
Proof.
  unfold Py.strip.
  rewrite (lstrip_fixed (Py.rstrip (Py.lstrip s))).
  - apply rstrip_idem.
  - apply rstrip_trimmed, lstrip_trimmed.
Qed.

End StripFacts.

Section ComponentFacts.

(** The component search matches a bracket pair around a non-empty text
    without closing bracket; group 1 is that text. *)
Lemma component_match_text (s : string) (m : rmatch) :
  search component_re s = Some m ->
  exists pre c post,
    s = pre ++ "[" ++ c ++ "]" ++ post /\
    all_chars not_close c = true /\ 1 <= String.length c /\
    group 1 m s = c.
Proof.
  intros H. unfold search in H.
  destruct (scan_sound _ _ _ _ H) as (pre & s1 & e & s' & Hl & Sp & Hm).
  unfold component_re in Sp. cbn [span cats] in Sp.
  destruct Sp as (st1 & s2 & (x & -> & Hx & ->) & st2 & s3 &
                  (st3 & (c & -> & Hc & Hn & _ & ->) & ->) & (y & -> & Hy & ->)).
  apply Ascii.eqb_eq in Hx, Hy. subst x y.
  exists pre, c, s'. subst m s.
  unfold group. cbn [m_caps set_cap step pos caps lookup_cap].
  rewrite !pos_steps. simpl Nat.eqb. cbv iota.
  repeat split; auto.
  cbn [step pos start]. rewrite pos_steps. cbn [pos start].
  change (pre ++ String "[" (c ++ String "]" s'))
    with (pre ++ String "[" "" ++ (c ++ String "]" s')).
  rewrite <- app_assoc_str.
  replace (S (0 + String.length pre))
    with (String.length (pre ++ String "[" ""))
    by (rewrite length_app; simpl; lia).
  apply slice_middle.
Qed.

End ComponentFacts.

(* ================================================================= *)
(** ** The entry parser: message and component *)

(** C1 (as stated, refuted).  The line ["ERROR [db] failed"] has a severity
    token and a component bracket and no ["]:"] anywhere, yet its message is
    ["[db] failed"], bracket included, and not the text after the closing
    bracket, ["failed"]. *)
Lemma message_after_bracket_fails :
  let line := "ERROR [db] failed" in
  severity (parse_log_entry line) = "ERROR" /\
  component (parse_log_entry line) = Some "db" /\
  Py.contains "]:" line = false /\
  message (parse_log_entry line) = "[db] failed" /\
  message (parse_log_entry line) <> Py.strip " failed".
Proof.
  cbv zeta. repeat split; try (vm_compute; reflexivity).
  vm_compute. discriminate.
Qed.

(** C1 (amended).  For every line with a severity match and a component
    bracket in the remainder (the trimmed text after the first occurrence of
    the matched severity text), if the remainder holds no ["]:"] then the
    message is the whole remainder, already trimmed; the bracketed component
    is still part of it. *)
Theorem message_without_marker_is_remainder (line : string) (m cm : rmatch) :
  search severity_re line = Some m ->
  search component_re (remainder_of line) = Some cm ->
  Py.contains "]:" (remainder_of line) = false ->
  remainder_of line = Py.strip (Py.split1_last (group0 m line) line) /\
  message (parse_log_entry line) = remainder_of line /\
  exists c pre post,
    component (parse_log_entry line) = Some c /\
    message (parse_log_entry line) = pre ++ "[" ++ c ++ "]" ++ post.
Proof.
  intros Hs Hc Hn.
  assert (R : remainder_of line = Py.strip (Py.split1_last (group0 m line) line))
    by (unfold remainder_of; now rewrite Hs).
  assert (M : message (parse_log_entry line) = remainder_of line).
  { rewrite message_of_remainder, Hc, (contains_false_split1 _ _ Hn).
    rewrite R. apply strip_idem. }
  repeat split; auto.
  destruct (component_match_text _ _ Hc) as (pre & c & post & Hr & _ & _ & Hg).
  exists c, pre, post. split.
  - rewrite component_of_remainder, Hc. simpl. now rewrite Hg.
  - now rewrite M.
Qed.

Lemma message_without_marker_witness :
  let line := "ERROR [db] failed" in
  remainder_of line = Py.strip (Py.split1_last "ERROR" line) /\
  message (parse_log_entry line) = remainder_of line /\
  exists c pre post,
    component (parse_log_entry line) = Some c /\
    message (parse_log_entry line) = pre ++ "[" ++ c ++ "]" ++ post.
Proof.
  cbv zeta.
  refine (message_without_marker_is_remainder "ERROR [db] failed"
            (RMatch 0 5 [(1, (0, 5))]) (RMatch 0 4 [(1, (1, 3))]) _ _ _);
    vm_compute; reflexivity.
Defined.

(** C2 (as stated, refuted).  Neither line below has a severity keyword.
    The first has a component bracket and loses its text up to ["]:"]; the
    second has none and keeps its surrounding blanks. *)
Lemma unknown_message_is_trimmed_line_fails :
  (search severity_re "[db]: hello" = None /\
   message (parse_log_entry "[db]: hello") = "hello" /\
   message (parse_log_entry "[db]: hello") <> Py.strip "[db]: hello") /\
  (search severity_re " plain text " = None /\
   message (parse_log_entry " plain text ") = " plain text " /\
   message (parse_log_entry " plain text ") <> Py.strip " plain text ").
Proof.
  repeat split; try (vm_compute; reflexivity); vm_compute; discriminate.
Qed.

(** C2 (amended).  For every line in which the severity search finds no
    keyword, the severity is UNKNOWN; without a bracketed component the
    message is the line exactly as given, and with one it is the trimmed text
    after the first ["]:"] of the line (the whole line, trimmed, when there is
    no ["]:"]). *)
Theorem unknown_severity_message (line : string) :
  search severity_re line = None ->
  severity (parse_log_entry line) = "UNKNOWN" /\
  (component (parse_log_entry line) = None ->
   message (parse_log_entry line) = line) /\
  (component (parse_log_entry line) <> None ->
   message (parse_log_entry line) = Py.strip (Py.split1_last "]:" line)) /\
  (component (parse_log_entry line) <> None ->
   Py.contains "]:" line = false ->
   message (parse_log_entry line) = Py.strip line).
Proof.
  intros H. destruct (parse_unmatched _ H) as [Hsev Hrem].
  rewrite component_of_remainder, message_of_remainder, Hrem.
  split; [exact Hsev|].
  destruct (search component_re line) as [cm|]; simpl.
  - split; [discriminate|]. split; [reflexivity|].
    intros _ Hn. now rewrite (contains_false_split1 _ _ Hn).
  - split; [reflexivity|]. split; intros F; now elim F.
Qed.

Lemma unknown_severity_message_witness :
  search severity_re "[db]: hello" = None /\
  severity (parse_log_entry "[db]: hello") = "UNKNOWN" /\
  message (parse_log_entry "[db]: hello") = Py.strip (Py.split1_last "]:" "[db]: hello") /\
  message (parse_log_entry " plain text ") = " plain text " /\
  message (parse_log_entry " [db] hello ") = Py.strip " [db] hello ".
Proof.
  assert (H1 : search severity_re "[db]: hello" = None) by (vm_compute; reflexivity).
  assert (H2 : search severity_re " plain text " = None) by (vm_compute; reflexivity).
  assert (H3 : search severity_re " [db] hello " = None) by (vm_compute; reflexivity).
  pose proof (unknown_severity_message "[db]: hello" H1) as (S1 & _ & M1 & _).
  pose proof (unknown_severity_message " plain text " H2) as (_ & M2 & _).
  pose proof (unknown_severity_message " [db] hello " H3) as (_ & _ & _ & M3).
  split; [exact H1|]. split; [exact S1|]. split; [|split].
  - apply M1. vm_compute. discriminate.
  - apply M2. vm_compute. reflexivity.
  - apply M3; vm_compute; [discriminate | reflexivity].
Defined.

(** C4 (the code at the failing input).  In ["xERROR[a] ERROR [db]: m"] the
    severity match is the free-standing ["ERROR"] at index 10..15, and the
    first bracket after it is ["[db]"].  The remainder is cut after the first
    occurrence of the text ["ERROR"], the one inside ["xERROR"], so the
    component found is ["a"]. *)
Lemma component_searched_after_first_occurrence :
  let line := "xERROR[a] ERROR [db]: m" in
  let after_token := Py.slice 15 (String.length line) line in
  option_map (fun m => (m_start m, m_end m, group0 m line))
             (search severity_re line) = Some (10, 15, "ERROR") /\
  option_map (fun cm => group 1 cm after_token)
             (search component_re after_token) = Some "db" /\
  remainder_of line = "[a] ERROR [db]: m" /\
  component (parse_log_entry line) = Some "a".
Proof. cbv zeta. repeat split; vm_compute; reflexivity. Qed.

(* ================================================================= *)
(** ** The pattern normaliser *)

Section NormaliserFacts.

Lemma lower_hex_class (c : ascii) :
  lower_hex c = true -> hex_or_hyphen c = true /\ Py.is_word c = true.
Proof.
  assert (G : forall x, implb (lower_hex x) (hex_or_hyphen x && Py.is_word x) = true).
  { apply for_all_ascii. vm_compute. reflexivity. }
  intros H. specialize (G c). rewrite H in G. simpl in G.
  now apply andb_true_iff in G.
Qed.

Lemma all_chars_app (p : ascii -> bool) (a b : string) :
  all_chars p (a ++ b) = all_chars p a && all_chars p b.
Proof.
  induction a as [|c a IH]; simpl; [reflexivity|].
  now rewrite IH, andb_assoc.
Qed.

Lemma all_chars_weaken (p q : ascii -> bool) (t : string) :
  (forall c, p c = true -> q c = true) ->
  all_chars p t = true -> all_chars q t = true.
Proof.
  intros Hpq. induction t as [|c t IH]; simpl; [auto|].
  intros H. apply andb_true_iff in H. destruct H as [Hc Ht].
  now rewrite (Hpq _ Hc), IH.
Qed.

(** After a non-empty run of word characters the previous character is a
    word character. *)
Lemma prev_after_words (t : string) :
  forall st, all_chars Py.is_word t = true -> 1 <= String.length t ->
             word_opt (prev (steps st t)) = true.
Proof.
  induction t as [|c t IH]; intros st H L; simpl in *; [lia|].
  apply andb_true_iff in H. destruct H as [Hc Ht].
  destruct t as [|d t]; [exact Hc|].
  apply IH; [exact Ht | simpl; lia].
Qed.

(** A greedy repetition without upper bound that can run to the end of the
    text does so, when the rest of the pattern accepts there. *)
Lemma rep_to_end (p : ascii -> bool) (t : string) :
  forall lo st k res,
    all_chars p t = true -> lo <= String.length t ->
    k (steps st t) "" = Some res ->
    rep p lo None st t k = Some res.
Proof.
  induction t as [|c t IH]; intros lo st k res H L Hk; simpl in *.
  - destruct lo; [exact Hk | lia].
  - apply andb_true_iff in H. destruct H as [Hc Ht].
    rewrite Hc. simpl.
    rewrite (IH (pred lo) (step st c) k res Ht); [reflexivity | lia | exact Hk].
Qed.

Lemma sub_scan_skip (r : regex) (repl s : string) :
  forall st, sub_scan r repl (String.length s) st s = "".
Proof. induction s as [|c s IH]; intros st; simpl; [reflexivity | apply IH]. Qed.

Lemma id_match_whole_word (w : string) :
  all_chars lower_hex w = true -> 8 <= String.length w ->
  match_here id_re start w = Some (steps start w, "").
Proof.
  intros H L.
  assert (Hh : all_chars hex_or_hyphen w = true)
    by (eapply all_chars_weaken; [|exact H]; intros c Hc; now apply lower_hex_class).
  assert (Hw : all_chars Py.is_word w = true)
    by (eapply all_chars_weaken; [|exact H]; intros c Hc; now apply lower_hex_class).
  unfold match_here, id_re. cbn [cats run].
  assert (B : at_boundary start w = true).
  { destruct w as [|c w]; [simpl in L; lia|].
    simpl in Hw. apply andb_true_iff in Hw. unfold at_boundary. simpl. tauto. }
  rewrite B. apply rep_to_end; [exact Hh | exact L|].
  unfold at_boundary. rewrite prev_after_words; [reflexivity | exact Hw | lia].
Qed.

Lemma mask_ids_lower_hex_word (w : string) :
  all_chars lower_hex w = true -> 8 <= String.length w -> mask_ids w = "<ID>".
Proof.
  intros H L. pose proof (id_match_whole_word w H L) as M.
  destruct w as [|c w]; [simpl in L; lia|].
  unfold mask_ids, sub. cbn [sub_scan]. rewrite M.
  rewrite pos_steps. cbn [pos start String.length].
  replace (0 + S (String.length w) - 0) with (S (String.length w)) by lia.
  now rewrite sub_scan_skip.
Qed.

(** Inside a run of word characters the ID pattern can only match the whole
    run, so a run with a character outside [[a-f0-9\-]] is left alone. *)
Lemma sub_scan_id_words (repl s : string) :
  forall st,
    all_chars Py.is_word s = true ->
    word_opt (prev st) = true \/ all_chars hex_or_hyphen s = false ->
    sub_scan id_re repl 0 st s = s.
Proof.
  induction s as [|c s IH]; intros st Hw Hd; [reflexivity|].
  assert (N : match_here id_re st (String c s) = None).
  { destruct (match_here id_re st (String c s)) as [[e s'']|] eqn:E; [|reflexivity].
    exfalso. apply match_here_sound in E.
    unfold id_re in E. cbn [cats span] in E.
    destruct E as (st1 & s1 & (-> & -> & B1) & st2 & s2 &
                   (t & Hs & Ht & Hl & _ & ->) & (-> & -> & B2)).
    unfold at_boundary in B1, B2. simpl in Hw, B1.
    apply andb_true_iff in Hw. destruct Hw as [Hc Hw'].
    rewrite Hc in B1.
    destruct Hd as [Hd|Hd]; [rewrite Hd in B1; discriminate|].
    assert (Hall : all_chars Py.is_word (t ++ s2) = true)
      by (rewrite <- Hs; simpl; now rewrite Hc, Hw').
    rewrite Hs, all_chars_app, Ht in Hd. simpl in Hd.
    rewrite all_chars_app in Hall. apply andb_true_iff in Hall.
    destruct Hall as [Wt W2].
    rewrite (prev_after_words t st Wt) in B2 by lia.
    destruct s2 as [|d s2]; [discriminate|].
    simpl in W2, B2. apply andb_true_iff in W2. destruct W2 as [Wd _].
    rewrite Wd in B2. discriminate. }
  cbn [sub_scan]. rewrite N.
  simpl in Hw. apply andb_true_iff in Hw. destruct Hw as [Hc Hw'].
  rewrite IH; [reflexivity | exact Hw' | left; exact Hc].
Qed.

Lemma mask_ids_other_word (w : string) :
  all_chars Py.is_word w = true -> all_chars hex_or_hyphen w = false ->
  mask_ids w = w.
Proof. intros Hw Hd. apply sub_scan_id_words; auto. Qed.

(** Both patterns of the normaliser consume at least one character, so
    [re.sub] never meets an empty match. *)
Lemma masks_consume (st : mstate) (s : string) (e : mstate) (s' : string) :
  match_here id_re st s = Some (e, s') \/ match_here num_re st s = Some (e, s') ->
  pos st < pos e.
Proof.
  intros [H|H]; apply match_here_sound in H.
  - unfold id_re in H. cbn [cats span] in H.
    destruct H as (st1 & s1 & (-> & -> & _) & st2 & s2 &
                   (t & _ & _ & Hl & _ & ->) & (-> & -> & _)).
    rewrite pos_steps. lia.
  - unfold num_re in H. cbn [span] in H.
    destruct H as (t & _ & _ & Hl & _ & ->).
    rewrite pos_steps. lia.
Qed.

End NormaliserFacts.

(** C5.  One call of the normaliser applies the ID substitution first and
    the digit substitution to its result; on the sample message the pattern
    is ["conn-id <ID> failed after <NUM> retries"], which the opposite order
    does not give. *)
Theorem normalize_masks_ids_first :
  (forall error, normalize error = sub num_re "<NUM>" (sub id_re "<ID>" error)) /\
  normalize "conn-id a1b2c3d4e5 failed after 30 retries"
    = "conn-id <ID> failed after <NUM> retries" /\
  mask_ids (mask_nums "conn-id a1b2c3d4e5 failed after 30 retries")
    = "conn-id a<NUM>b<NUM>c<NUM>d<NUM>e<NUM> failed after <NUM> retries".
Proof. repeat split; vm_compute; reflexivity. Qed.

(* ================================================================= *)
(** ** The aggregator on the empty batch *)

(** C7.  On the empty batch the aggregator returns zero entries, an empty
    severity distribution, an empty component map, no time pattern and an
    empty list of error patterns. *)
Theorem analyze_empty_batch :
  analyze_log_entries [] =
    {| total_entries := 0;
       severity_distribution := [];
       components := [];
       time_pattern := None;
       error_patterns := [] |}.
Proof. reflexivity. Qed.

(* ================================================================= *)
(** ** The solution advisor *)

Section AdvisorFacts.

(** A filter that rejects the empty string only lets truthy patterns through,
    so [any] over the filtered patterns is [existsb] of the filter. *)
Lemma any_where_existsb (cond : string -> bool) (patterns : list string) :
  cond "" = false -> any_where cond patterns = existsb cond patterns.
Proof.
  intros E. unfold any_where.
  induction patterns as [|p l IH]; simpl; [reflexivity|].
  destruct (cond p) eqn:C; simpl; [|exact IH].
  destruct p; [congruence | reflexivity].
Qed.

Lemma suggest_by_cases (a : analysis) :
  suggest_solutions a =
    match existsb connection_rule (lowered_patterns a),
          existsb permission_rule (lowered_patterns a),
          existsb resource_rule (lowered_patterns a) with
    | false, false, false => [uncategorized]
    | c, p, r =>
        ((if c then [connection_issues] else []) ++
         (if p then [permission_issues] else []) ++
         (if r then [resource_limits] else []))%list
    end.
Proof.
  unfold suggest_solutions. fold (lowered_patterns a).
  rewrite !any_where_existsb by reflexivity.
  destruct (existsb connection_rule (lowered_patterns a)),
           (existsb permission_rule (lowered_patterns a)),
           (existsb resource_rule (lowered_patterns a)); reflexivity.
Qed.

End AdvisorFacts.

(** C8.  Each of the three rules contributes its suggestion exactly when
    some lower-cased pattern holds one of its keywords, whatever the other
    rules do; in particular a pattern containing ["connect"] or ["timeout"]
    yields the "Connection issues" suggestion.  When no rule matches, and so
    when there are no patterns at all, the result is the single
    "Uncategorized errors" suggestion. *)
Theorem suggest_rules_are_independent (a : analysis) :
  let patterns := map (fun item => Py.lower (ep_pattern item)) (error_patterns a) in
  (In connection_issues (suggest_solutions a) <->
   exists pat, In pat patterns /\
     (Py.contains "connect" pat = true \/ Py.contains "timeout" pat = true)) /\
  (In permission_issues (suggest_solutions a) <->
   exists pat, In pat patterns /\
     (Py.contains "permission" pat = true \/ Py.contains "denied" pat = true)) /\
  (In resource_limits (suggest_solutions a) <->
   exists pat, In pat patterns /\
     (Py.contains "memory" pat = true \/ Py.contains "cpu" pat = true \/
      Py.contains "disk" pat = true)) /\
  ((forall pat, In pat patterns ->
      connection_rule pat = false /\ permission_rule pat = false /\
      resource_rule pat = false) ->
   suggest_solutions a = [uncategorized]) /\
  (error_patterns a = [] -> suggest_solutions a = [uncategorized]).
Proof.
  cbv zeta. fold (lowered_patterns a). rewrite suggest_by_cases.
  assert (RC : existsb connection_rule (lowered_patterns a) = true <->
               exists pat, In pat (lowered_patterns a) /\
                 (Py.contains "connect" pat = true \/ Py.contains "timeout" pat = true)).
  { rewrite existsb_exists. unfold connection_rule.
    split; intros (p & Hp & H); exists p; split; auto.
    - now apply orb_true_iff in H.
    - now apply orb_true_iff. }
  assert (RP : existsb permission_rule (lowered_patterns a) = true <->
               exists pat, In pat (lowered_patterns a) /\
                 (Py.contains "permission" pat = true \/ Py.contains "denied" pat = true)).
  { rewrite existsb_exists. unfold permission_rule.
    split; intros (p & Hp & H); exists p; split; auto.
    - now apply orb_true_iff in H.
    - now apply orb_true_iff. }
  assert (RR : existsb resource_rule (lowered_patterns a) = true <->
               exists pat, In pat (lowered_patterns a) /\
                 (Py.contains "memory" pat = true \/ Py.contains "cpu" pat = true \/
                  Py.contains "disk" pat = true)).
  { rewrite existsb_exists. unfold resource_rule.
    split; intros (p & Hp & H); exists p; split; auto.
    - rewrite !orb_true_iff in H. tauto.
    - rewrite !orb_true_iff. tauto. }
  assert (NO : (forall pat, In pat (lowered_patterns a) ->
                  connection_rule pat = false /\ permission_rule pat = false /\
                  resource_rule pat = false) ->
               existsb connection_rule (lowered_patterns a) = false /\
               existsb permission_rule (lowered_patterns a) = false /\
               existsb resource_rule (lowered_patterns a) = false).
  { intros H. repeat split; apply not_true_is_false; rewrite existsb_exists;
      intros (p & Hp & Hc); destruct (H p Hp) as (H1 & H2 & H3); congruence. }
  rewrite <- RC, <- RP, <- RR.
  split; [|split; [|split; [|split]]].
  - destruct (existsb connection_rule _), (existsb permission_rule _),
      (existsb resource_rule _); simpl; split; intros H; auto;
      try discriminate; repeat (destruct H as [H|H]; try discriminate); contradiction.
  - destruct (existsb connection_rule _), (existsb permission_rule _),
      (existsb resource_rule _); simpl; split; intros H; auto;
      try discriminate; repeat (destruct H as [H|H]; try discriminate); contradiction.
  - destruct (existsb connection_rule _), (existsb permission_rule _),
      (existsb resource_rule _); simpl; split; intros H; auto;
      try discriminate; repeat (destruct H as [H|H]; try discriminate); contradiction.
  - intros H. destruct (NO H) as (-> & -> & ->). reflexivity.
  - intros E. unfold lowered_patterns. rewrite E. reflexivity.
Qed.

Lemma suggest_rules_witness :
  (let a := Analysis 2 [("ERROR", 2)] [("db", 2)] None
              [ErrorPattern "db" "Connection refused after <NUM> ms" 1;
               ErrorPattern "db" "Disk quota: access DENIED" 1] in
   In connection_issues (suggest_solutions a) /\
   In permission_issues (suggest_solutions a) /\
   In resource_limits (suggest_solutions a)) /\
  (let a := Analysis 1 [("ERROR", 1)] [("db", 1)] None
              [ErrorPattern "db" "it broke somewhere" 1] in
   suggest_solutions a = [uncategorized]) /\
  (let a := Analysis 0 [] [] None [] in
   suggest_solutions a = [uncategorized]).
Proof.
  cbv zeta. split; [|split].
  - pose proof (suggest_rules_are_independent
                  (Analysis 2 [("ERROR", 2)] [("db", 2)] None
                     [ErrorPattern "db" "Connection refused after <NUM> ms" 1;
                      ErrorPattern "db" "Disk quota: access DENIED" 1]))
      as (C & P & R & _).
    cbv zeta in C, P, R. split; [|split].
    + apply C. exists "connection refused after <num> ms".
      split; [left; reflexivity | left; reflexivity].
    + apply P. exists "disk quota: access denied".
      split; [right; left; reflexivity | right; reflexivity].
    + apply R. exists "disk quota: access denied".
      split; [right; left; reflexivity | right; right; reflexivity].
  - pose proof (suggest_rules_are_independent
                  (Analysis 1 [("ERROR", 1)] [("db", 1)] None
                     [ErrorPattern "db" "it broke somewhere" 1]))
      as (_ & _ & _ & N & _).
    apply N. simpl. intros pat [<-|[]]. repeat split; reflexivity.
  - pose proof (suggest_rules_are_independent (Analysis 0 [] [] None []))
      as (_ & _ & _ & _ & E).
    apply E. reflexivity.
Defined.

(* ================================================================= *)
(** ** Facts about counters and their ranking *)

Section CounterFacts.
Context {K : Type} (eqb : K -> K -> bool).
Hypothesis eqb_eq : forall a b, eqb a b = true <-> a = b.

Lemma eqb_refl' (a : K) : eqb a a = true.
Proof. now apply eqb_eq. Qed.

Lemma eqb_false (a b : K) : a <> b -> eqb a b = false.
Proof. intros H. apply not_true_is_false. now rewrite eqb_eq. Qed.

Lemma first_seen_lt (k : K) (l : list K) :
  In k l -> first_seen eqb k l < length l.
Proof.
  induction l as [|x l IH]; simpl; [contradiction|].
  intros [->|H].
  - rewrite eqb_refl'. lia.
  - destruct (eqb k x); [lia|]. apply IH in H. lia.
Qed.

Lemma first_seen_absent (k : K) (l : list K) :
  ~ In k l -> first_seen eqb k l = length l.
Proof.
  induction l as [|x l IH]; simpl; [reflexivity|].
  intros H. rewrite eqb_false by (intros ->; apply H; now left).
  rewrite IH; [reflexivity | intros F; apply H; now right].
Qed.

Lemma first_seen_app (k : K) (l l' : list K) :
  In k l -> first_seen eqb k (l ++ l') = first_seen eqb k l.
Proof.
  induction l as [|x l IH]; simpl; [contradiction|].
  intros [->|H].
  - now rewrite eqb_refl'.
  - destruct (eqb k x); [reflexivity|]. now rewrite IH.
Qed.

Lemma first_seen_new (k : K) (l : list K) :
  ~ In k l -> first_seen eqb k (l ++ [k]) = length l.
Proof.
  induction l as [|x l IH]; simpl; intros H.
  - now rewrite eqb_refl'.
  - rewrite eqb_false by (intros ->; apply H; now left).
    rewrite IH; [reflexivity | intros F; apply H; now right].
Qed.

Lemma keys_incr (k : K) (c : list (K * nat)) :
  map fst (incr eqb k c) =
    if existsb (eqb k) (map fst c) then map fst c else (map fst c ++ [k])%list.
Proof.
  unfold incr. induction c as [|[k' n] c IH]; simpl; [reflexivity|].
  destruct (eqb k k') eqn:E; simpl; [reflexivity|].
  rewrite IH. now destruct (existsb (eqb k) (map fst c)).
Qed.

Lemma existsb_eqb_In (k : K) (l : list K) : existsb (eqb k) l = true <-> In k l.
Proof.
  rewrite existsb_exists. split.
  - intros (x & Hx & E). apply eqb_eq in E. now subst.
  - intros H. exists k. split; [exact H | apply eqb_refl'].
Qed.

Lemma Counter_snoc (l : list K) (k : K) :
  Counter eqb (l ++ [k]) = incr eqb k (Counter eqb l).
Proof. unfold Counter. now rewrite fold_left_app. Qed.

Lemma counter_val_incr (k k' : K) (c : list (K * nat)) :
  counter_val eqb k (incr eqb k' c) =
    counter_val eqb k c + (if eqb k k' then 1 else 0).
Proof.
  unfold counter_val, incr. induction c as [|[x n] c IH]; simpl.
  - destruct (eqb k k'); reflexivity.
  - destruct (eqb k' x) eqn:E; simpl.
    + apply eqb_eq in E. subst x.
      destruct (eqb k k'); lia.
    + destruct (eqb k x) eqn:E'; [|exact IH].
      apply eqb_eq in E'. subst x.
      rewrite eqb_false; [lia|]. intros ->. now rewrite eqb_refl' in E.
Qed.

Lemma StronglySorted_snoc (R : K -> K -> Prop) (l : list K) (x : K) :
  StronglySorted R l -> (forall k, In k l -> R k x) ->
  StronglySorted R (l ++ [x]).
Proof.
  induction 1 as [|a l Hs IH Ha]; intros Hx; simpl.
  - constructor; constructor.
  - constructor.
    + apply IH. intros k Hk. apply Hx. now right.
    + apply Forall_app. split; [exact Ha|].
      constructor; [|constructor]. apply Hx. now left.
Qed.

Lemma StronglySorted_weaken (A : Type) (R R' : A -> A -> Prop) (l : list A) :
  StronglySorted R l ->
  (forall a b, In a l -> In b l -> R a b -> R' a b) ->
  StronglySorted R' l.
Proof.
  induction 1 as [|a l Hs IH Ha]; intros Hw; constructor.
  - apply IH. intros x y Hx Hy. apply Hw; now right.
  - rewrite Forall_forall in *. intros y Hy.
    apply Hw; [now left | now right | now apply Ha].
Qed.

(** The keys of a counter are the distinct elements counted, in the order
    in which they first occur. *)
Lemma Counter_keys (l : list K) :
  (forall k, In k (map fst (Counter eqb l)) <-> In k l) /\
  StronglySorted (fun a b => first_seen eqb a l < first_seen eqb b l)
                 (map fst (Counter eqb l)).
Proof.
  induction l as [|x l [IHin IHs]] using rev_ind.
  - simpl. split; [tauto | constructor].
  - rewrite Counter_snoc, keys_incr.
    destruct (existsb (eqb x) (map fst (Counter eqb l))) eqn:E.
    + apply existsb_eqb_In, IHin in E. split.
      * intros k. rewrite IHin, in_app_iff. simpl.
        split; [tauto|]. intros [H|[<-|[]]]; auto.
      * eapply StronglySorted_weaken; [exact IHs|].
        intros a b Ha Hb. apply IHin in Ha, Hb.
        now rewrite !first_seen_app.
    + assert (Hx : ~ In x l).
      { intros F. apply IHin, existsb_eqb_In in F. congruence. }
      split.
      * intros k. rewrite !in_app_iff, IHin. tauto.
      * apply StronglySorted_snoc.
        -- eapply StronglySorted_weaken; [exact IHs|].
           intros a b Ha Hb. apply IHin in Ha, Hb.
           now rewrite !first_seen_app.
        -- intros k Hk. apply IHin in Hk.
           rewrite first_seen_app, first_seen_new by assumption.
           now apply first_seen_lt.
Qed.

Lemma In_insert_desc (x y : K * nat) (l : list (K * nat)) :
  In y (insert_desc x l) <-> y = x \/ In y l.
Proof.
  induction l as [|z l IH]; simpl.
  - split; [intros [H|[]]; auto | intros [H|[]]; auto].
  - destruct (Nat.ltb (snd x) (snd z)); simpl; [rewrite IH|]; split; intuition auto.
Qed.

Lemma In_sort_desc (y : K * nat) (l : list (K * nat)) :
  In y (sort_desc l) <-> In y l.
Proof.
  induction l as [|x l IH]; simpl; [tauto|].
  rewrite In_insert_desc, IH. split; intuition auto.
Qed.

(** Inserting an item that stood before all the others keeps the ranking. *)
Lemma insert_desc_ranked (R : K -> K -> Prop) (x : K * nat) (l : list (K * nat)) :
  StronglySorted (ranked R) l ->
  (forall y, In y l -> R (fst x) (fst y)) ->
  StronglySorted (ranked R) (insert_desc x l).
Proof.
  induction 1 as [|z l Hs IH Hz]; intros Hx; simpl.
  - constructor; constructor.
  - pose proof Hz as Fz. rewrite Forall_forall in Hz.
    destruct (Nat.ltb (snd x) (snd z)) eqn:E.
    + apply Nat.ltb_lt in E. constructor.
      * apply IH. intros y Hy. apply Hx. now right.
      * rewrite Forall_forall. intros y Hy.
        apply In_insert_desc in Hy. destruct Hy as [->|Hy]; [now left | now apply Hz].
    + apply Nat.ltb_ge in E. constructor; [constructor; assumption|].
      rewrite Forall_forall. intros y [<-|Hy].
      * unfold ranked.
        destruct (Nat.eq_dec (snd x) (snd z)) as [Q|Q]; [right | left; lia].
        split; [exact Q | apply Hx; now left].
      * pose proof (Hz y Hy) as [T|[T1 T2]]; unfold ranked.
        -- left. lia.
        -- destruct (Nat.eq_dec (snd x) (snd y)) as [Q|Q]; [right | left; lia].
           split; [exact Q | apply Hx; now right].
Qed.

(** The sort is stable: items that were in [R]-order keep it among equal
    counts, and counts decrease. *)
Lemma sort_desc_ranked (R : K -> K -> Prop) (l : list (K * nat)) :
  StronglySorted (fun a b => R (fst a) (fst b)) l ->
  StronglySorted (ranked R) (sort_desc l).
Proof.
  induction 1 as [|x l Hs IH Hx]; simpl; [constructor|].
  apply insert_desc_ranked; [exact IH|].
  rewrite Forall_forall in Hx. intros y Hy. apply Hx. now apply In_sort_desc.
Qed.

Lemma StronglySorted_firstn (A : Type) (R : A -> A -> Prop) (n : nat) (l : list A) :
  StronglySorted R l -> StronglySorted R (firstn n l).
Proof.
  revert n. induction l as [|x l IH]; intros n H.
  - rewrite firstn_nil. constructor.
  - destruct n; simpl; [constructor|].
    inversion H; subst. constructor; [now apply IH|].
    rewrite Forall_forall in *. intros y Hy. match goal with
    | H : forall _, In _ l -> _ |- _ => apply H end.
    revert Hy. clear. revert n. induction l as [|z l IHl]; intros [|n]; simpl; try tauto.
    intros [->|H]; [now left | right; eauto].
Qed.

Lemma StronglySorted_map_fst (R : K -> K -> Prop) (l : list (K * nat)) :
  StronglySorted R (map fst l) ->
  StronglySorted (fun a b => R (fst a) (fst b)) l.
Proof.
  induction l as [|x l IH]; simpl; intros H; [constructor|].
  inversion H; subst. constructor; [now apply IH|].
  rewrite Forall_forall in *. intros y Hy.
  match goal with H : forall _, In _ (map fst l) -> _ |- _ => apply H end.
  now apply in_map.
Qed.

Lemma StronglySorted_nth (A : Type) (R : A -> A -> Prop) (l : list A) :
  StronglySorted R l ->
  forall i j a b, i < j -> nth_error l i = Some a -> nth_error l j = Some b -> R a b.
Proof.
  induction 1 as [|x l Hs IH Hx]; intros i j a b Hij Ha Hb.
  - destruct i; discriminate.
  - destruct j as [|j]; [lia|]. simpl in Hb. destruct i as [|i]; simpl in Ha.
    + inversion Ha; subst. rewrite Forall_forall in Hx.
      apply Hx. eapply nth_error_In; eauto.
    + eapply IH; [|exact Ha|exact Hb]. lia.
Qed.

(** The ranking returned by [most_common]. *)
Lemma most_common_ranked (n : nat) (l : list K) :
  StronglySorted (ranked (fun a b => first_seen eqb a l < first_seen eqb b l))
                 (most_common n (Counter eqb l)).
Proof.
  unfold most_common. apply StronglySorted_firstn, sort_desc_ranked.
  apply (StronglySorted_map_fst
           (fun a b => first_seen eqb a l < first_seen eqb b l)).
  apply Counter_keys.
Qed.

Lemma most_common_In (n : nat) (l : list K) (item : K * nat) :
  In item (most_common n (Counter eqb l)) -> In (fst item) l.
Proof.
  unfold most_common. intros H.
  assert (H' : In item (Counter eqb l)).
  { apply In_sort_desc.
    rewrite <- (firstn_skipn n (sort_desc (Counter eqb l))).
    apply in_or_app. now left. }
  apply Counter_keys. now apply in_map.
Qed.

(** A counter holds, for each key, the number of times it was counted. *)
Lemma Counter_val (l : list K) (k : K) :
  counter_val eqb k (Counter eqb l) = length (filter (eqb k) l).
Proof.
  induction l as [|x l IH] using rev_ind; [reflexivity|].
  rewrite Counter_snoc, counter_val_incr, IH, filter_app, List.length_app.
  simpl. now destruct (eqb k x).
Qed.

Lemma StronglySorted_lt_NoDup (f : K -> nat) (l : list K) :
  StronglySorted (fun a b => f a < f b) l -> NoDup l.
Proof.
  induction 1 as [|x l Hs IH Hx]; constructor; [|exact IH].
  rewrite Forall_forall in Hx. intros F. specialize (Hx x F). lia.
Qed.

Lemma dict_get_In (c : list (K * nat)) (k : K) (n : nat) :
  NoDup (map fst c) -> In (k, n) c -> dict_get eqb k c = Some n.
Proof.
  induction c as [|[k' v] c IH]; simpl; [contradiction|].
  intros N [Q|H].
  - inversion Q; subst. now rewrite eqb_refl'.
  - inversion N; subst. rewrite eqb_false.
    + now apply IH.
    + intros ->. match goal with H' : ~ In _ _ |- _ => apply H' end.
      change k' with (fst (k', n)). now apply in_map.
Qed.

Lemma most_common_count (n : nat) (l : list K) (item : K * nat) :
  In item (most_common n (Counter eqb l)) ->
  snd item = length (filter (eqb (fst item)) l).
Proof.
  unfold most_common. intros H.
  assert (H' : In item (Counter eqb l)).
  { apply In_sort_desc.
    rewrite <- (firstn_skipn n (sort_desc (Counter eqb l))).
    apply in_or_app. now left. }
  destruct item as [k c]. simpl.
  rewrite <- Counter_val. unfold counter_val.
  rewrite (dict_get_In _ _ _ (StronglySorted_lt_NoDup _ _ (proj2 (Counter_keys l))) H').
  reflexivity.
Qed.

End CounterFacts.

(* ================================================================= *)
(** ** Facts about the aggregator *)

Section AggregatorFacts.

Lemma key_eqb_eq (a b : string * string) : key_eqb a b = true <-> a = b.
Proof.
  destruct a as [a1 a2], b as [b1 b2]. unfold key_eqb. simpl.
  rewrite andb_true_iff, !String.eqb_eq. split.
  - now intros [-> ->].
  - intros H. now inversion H.
Qed.

Lemma buffer_visit (a : accum) (e : entry) :
  errors_by_component (visit a e) = buffer_step (errors_by_component a) e.
Proof.
  unfold visit, visit_parsed, buffer_step, parsed.
  destruct (component (parse_log_entry (content e))); reflexivity.
Qed.

Lemma severities_visit (a : accum) (e : entry) :
  severities (visit a e) = incr String.eqb (severity (parsed e)) (severities a).
Proof.
  unfold visit, visit_parsed, parsed.
  destruct (component (parse_log_entry (content e))); reflexivity.
Qed.

Lemma buffer_fold (es : list entry) :
  forall a, errors_by_component (fold_left visit es a) =
            fold_left buffer_step es (errors_by_component a).
Proof.
  induction es as [|e es IH]; intros a; simpl; [reflexivity|].
  now rewrite IH, buffer_visit.
Qed.

Lemma severities_fold (es : list entry) :
  forall a sev,
    counter_val String.eqb sev (severities (fold_left visit es a)) =
      counter_val String.eqb sev (severities a) +
      length (filter (fun e => String.eqb sev (severity (parsed e))) es).
Proof.
  induction es as [|e es IH]; intros a sev; [simpl; lia|].
  cbn [fold_left filter].
  rewrite IH, severities_visit, (counter_val_incr String.eqb String.eqb_eq).
  destruct (String.eqb sev (severity (parsed e))); cbn [List.length]; lia.
Qed.

Lemma buffer_step_skip (b : list (string * list string)) (e : entry) :
  contributes e = false -> buffer_step b e = b.
Proof.
  unfold contributes, buffer_step.
  destruct (component (parsed e)); [|reflexivity]. now intros ->.
Qed.

Lemma buffer_fold_filter (es : list entry) :
  forall b, fold_left buffer_step (filter contributes es) b = fold_left buffer_step es b.
Proof.
  induction es as [|e es IH]; intros b; simpl; [reflexivity|].
  destruct (contributes e) eqn:C; simpl.
  - apply IH.
  - now rewrite (buffer_step_skip b e C).
Qed.

Lemma push_buffered (k v : string) (b : list (string * list string)) (c msg : string) :
  buffered (push String.eqb k v b) c msg -> buffered b c msg \/ (c = k /\ msg = v).
Proof.
  unfold buffered, push. induction b as [|[k' l] b IH]; simpl.
  - intros (errs & [E|[]] & Hm). inversion E; subst.
    destruct Hm as [<-|[]]. now right.
  - destruct (String.eqb k k') eqn:E.
    + apply String.eqb_eq in E. subst k'.
      intros (errs & [Q|Hin] & Hm).
      * inversion Q; subst. apply in_app_or in Hm.
        destruct Hm as [Hm|[<-|[]]]; [left | now right].
        exists l. split; [now left | exact Hm].
      * left. exists errs. split; [now right | exact Hm].
    + intros (errs & [Q|Hin] & Hm).
      * left. exists errs. split; [now left | exact Hm].
      * destruct IH as [(errs' & H1 & H2)|H].
        -- exists errs. split; assumption.
        -- left. exists errs'. split; [now right | exact H2].
        -- now right.
Qed.

(** Every buffered message was put there by an entry that has the component
    and an error severity. *)
Lemma fold_buffered (es : list entry) :
  forall b c msg,
    buffered (fold_left buffer_step es b) c msg ->
    buffered b c msg \/
    exists e, In e es /\ component (parsed e) = Some c /\
              is_error_severity (severity (parsed e)) = true /\
              message (parsed e) = msg.
Proof.
  induction es as [|e es IH]; intros b c msg H; simpl in H; [now left|].
  destruct (IH _ _ _ H) as [Hb|(e' & He' & Hrest)].
  - unfold buffer_step in Hb.
    destruct (component (parsed e)) as [k|] eqn:Ck; [|now left].
    destruct (is_error_severity (severity (parsed e))) eqn:Sv; [|now left].
    apply push_buffered in Hb. destruct Hb as [Hb|[-> ->]]; [now left|].
    right. exists e. repeat split; auto. now left.
  - right. exists e'. split; [now right | exact Hrest].
Qed.

Lemma pairs_buffered (b : list (string * list string)) (c pat : string) :
  In (c, pat) (error_pattern_pairs b) ->
  exists msg, buffered b c msg /\ 10 < String.length msg /\ pat = normalize msg.
Proof.
  unfold error_pattern_pairs. rewrite in_flat_map.
  intros ([k errs] & Hin & H). simpl in H. rewrite in_flat_map in H.
  destruct H as (msg & Hm & H). unfold pattern_of_error in H.
  destruct (Py.truthy msg && Nat.ltb 10 (String.length msg)) eqn:E; [|contradiction].
  destruct H as [Q|[]]. inversion Q; subst.
  apply andb_true_iff in E. destruct E as [_ E]. apply Nat.ltb_lt in E.
  exists msg. repeat split; auto. exists errs. auto.
Qed.

End AggregatorFacts.

(* ================================================================= *)
(** ** The aggregator: ranking and provenance of error patterns *)

(** C6.  The list of error patterns has at most ten items; counts never
    increase along it; and of two items with equal counts the one listed
    first is the one whose (component, pattern) key was appended first to the
    list of pairs that the counter is built from (the pairs of the first
    component's errors, then those of the second component, and so on).
    Each count is the number of times the item's key occurs in that list. *)
Theorem error_patterns_ranking (entries : list entry) :
  let out := error_patterns (analyze_log_entries entries) in
  let pairs := error_pattern_pairs (errors_by_component (accumulate entries)) in
  length out <= 10 /\
  (forall i j a b,
     i < j -> nth_error out i = Some a -> nth_error out j = Some b ->
     ep_count b <= ep_count a /\
     (ep_count a = ep_count b ->
      first_seen key_eqb (key_of a) pairs < first_seen key_eqb (key_of b) pairs)) /\
  (forall a,
     In a out ->
     In (key_of a) pairs /\
     ep_count a = length (filter (key_eqb (key_of a)) pairs)).
Proof.
  cbv zeta. unfold analyze_log_entries. cbn [error_patterns].
  unfold common_patterns.
  set (pairs := error_pattern_pairs (errors_by_component (accumulate entries))).
  split; [|split].
  - rewrite length_map. unfold most_common. apply firstn_le_length.
  - intros i j a b Hij Ha Hb.
    rewrite nth_error_map in Ha, Hb.
    destruct (nth_error (most_common 10 (Counter key_eqb pairs)) i) as [[ka na]|] eqn:Ea;
      [|discriminate].
    destruct (nth_error (most_common 10 (Counter key_eqb pairs)) j) as [[kb nb]|] eqn:Eb;
      [|discriminate].
    simpl in Ha, Hb. inversion Ha; subst a. inversion Hb; subst b. clear Ha Hb.
    pose proof (StronglySorted_nth _ _ _
                  (most_common_ranked key_eqb key_eqb_eq 10 pairs)
                  i j _ _ Hij Ea Eb) as Hr.
    unfold ranked in Hr. unfold render, key_of. cbn [ep_count ep_component ep_pattern fst snd] in *.
    destruct ka as [ca pa], kb as [cb pb]. cbn [fst snd] in *.
    destruct Hr as [Hr|[Hr1 Hr2]]; split; try lia; intros; auto; lia.
  - intros a Ha. apply in_map_iff in Ha. destruct Ha as ([[c pat] n] & <- & Hin).
    unfold render, key_of. cbn [ep_count ep_component ep_pattern fst snd].
    split.
    + exact (most_common_In key_eqb key_eqb_eq 10 pairs _ Hin).
    + exact (most_common_count key_eqb key_eqb_eq 10 pairs _ Hin).
Qed.

Lemma error_patterns_ranking_witness :
  let entries := map (Entry "app.log" None)
                     ["ERROR [A]: message number one";
                      "ERROR [B]: message number two";
                      "ERROR [A]: message number three"] in
  let pairs := error_pattern_pairs (errors_by_component (accumulate entries)) in
  pairs = [("A", "message number one"); ("A", "message number three");
           ("B", "message number two")] /\
  error_patterns (analyze_log_entries entries) =
    [ErrorPattern "A" "message number one" 1;
     ErrorPattern "A" "message number three" 1;
     ErrorPattern "B" "message number two" 1] /\
  1 <= 1 /\
  first_seen key_eqb ("A", "message number three") pairs <
  first_seen key_eqb ("B", "message number two") pairs /\
  In ("B", "message number two") pairs /\
  1 = length (filter (key_eqb ("B", "message number two")) pairs).
Proof.
  cbv zeta.
  split; [vm_compute; reflexivity|]. split; [vm_compute; reflexivity|].
  pose proof (error_patterns_ranking
                (map (Entry "app.log" None)
                     ["ERROR [A]: message number one";
                      "ERROR [B]: message number two";
                      "ERROR [A]: message number three"])) as (_ & H & C).
  cbv zeta in H, C.
  destruct (H 1 2 (ErrorPattern "A" "message number three" 1)
              (ErrorPattern "B" "message number two" 1)) as [H1 H2].
  - lia.
  - vm_compute. reflexivity.
  - vm_compute. reflexivity.
  - split; [exact H1|]. split; [apply H2; reflexivity|].
    apply (C (ErrorPattern "B" "message number two" 1)).
    vm_compute. right. right. left. reflexivity.
Defined.

(** C9.  Every entry is counted in [total_entries] and under its severity;
    an entry without a component leaves the error buffers as they are, so
    dropping all entries that lack a component or an error severity gives the
    same buffers and the same error patterns; and every error pattern comes
    from an entry that has both the component and one of the severities
    ERROR, CRITICAL, FATAL. *)
Theorem componentless_errors_do_not_contribute (entries : list entry) :
  total_entries (analyze_log_entries entries) = length entries /\
  (forall sev,
     counter_val String.eqb sev (severity_distribution (analyze_log_entries entries)) =
       length (filter (fun e => String.eqb sev (severity (parsed e))) entries)) /\
  (forall a e,
     component (parsed e) = None ->
     errors_by_component (visit a e) = errors_by_component a /\
     comps (visit a e) = comps a /\
     severities (visit a e) = incr String.eqb (severity (parsed e)) (severities a)) /\
  errors_by_component (accumulate entries) =
    errors_by_component (accumulate (filter contributes entries)) /\
  error_patterns (analyze_log_entries entries) =
    error_patterns (analyze_log_entries (filter contributes entries)) /\
  (forall item,
     In item (error_patterns (analyze_log_entries entries)) ->
     exists e,
       In e entries /\
       component (parsed e) = Some (ep_component item) /\
       is_error_severity (severity (parsed e)) = true /\
       10 < String.length (message (parsed e)) /\
       ep_pattern item = normalize (message (parsed e))).
Proof.
  assert (B : errors_by_component (accumulate entries) =
              errors_by_component (accumulate (filter contributes entries))).
  { unfold accumulate. now rewrite !buffer_fold, buffer_fold_filter. }
  split; [reflexivity|].
  split.
  { intros sev. unfold analyze_log_entries. cbn [severity_distribution].
    unfold accumulate. now rewrite severities_fold. }
  split.
  { intros a e H. rewrite severities_visit. split; [|split]; try reflexivity.
    - rewrite buffer_visit. unfold buffer_step. now rewrite H.
    - unfold visit, visit_parsed. fold (parsed e). now rewrite H. }
  split; [exact B|].
  split.
  { unfold analyze_log_entries. cbn [error_patterns]. unfold common_patterns.
    now rewrite B. }
  intros item H. unfold analyze_log_entries in H. cbn [error_patterns] in H.
  apply in_map_iff in H. destruct H as ([[c pat] n] & <- & H).
  unfold common_patterns in H.
  apply (most_common_In key_eqb key_eqb_eq) in H. cbn [fst] in H.
  apply pairs_buffered in H. destruct H as (msg & Hb & Hl & ->).
  unfold accumulate in Hb. rewrite buffer_fold in Hb.
  apply fold_buffered in Hb.
  destruct Hb as [(errs & [] & _)|(e & He & Hc & Hs & <-)].
  exists e. unfold render. cbn [ep_component ep_pattern fst snd]. auto.
Qed.

Lemma componentless_errors_witness :
  let entries := map (Entry "app.log" None)
                     ["ERROR no component here at all";
                      "FATAL [A]: message number one"] in
  severity (parsed (Entry "app.log" None "ERROR no component here at all")) = "ERROR" /\
  component (parsed (Entry "app.log" None "ERROR no component here at all")) = None /\
  total_entries (analyze_log_entries entries) = 2 /\
  counter_val String.eqb "ERROR" (severity_distribution (analyze_log_entries entries)) = 1 /\
  errors_by_component (visit accum0 (Entry "app.log" None "ERROR no component here at all")) = [] /\
  error_patterns (analyze_log_entries entries) =
    [ErrorPattern "A" "message number one" 1] /\
  exists e,
    In e entries /\ component (parsed e) = Some "A" /\
    is_error_severity (severity (parsed e)) = true /\
    10 < String.length (message (parsed e)) /\
    "message number one" = normalize (message (parsed e)).
Proof.
  cbv zeta.
  pose proof (componentless_errors_do_not_contribute
                (map (Entry "app.log" None)
                     ["ERROR no component here at all";
                      "FATAL [A]: message number one"]))
    as (T & S & V & _ & P & I).
  assert (C : component (parsed (Entry "app.log" None "ERROR no component here at all")) = None)
    by (vm_compute; reflexivity).
  destruct (V accum0 _ C) as (V1 & _ & _).
  split; [vm_compute; reflexivity|]. split; [exact C|].
  split; [exact T|]. split; [rewrite S; vm_compute; reflexivity|].
  split; [exact V1|].
  assert (Q : error_patterns
                (analyze_log_entries
                   (map (Entry "app.log" None)
                        ["ERROR no component here at all";
                         "FATAL [A]: message number one"])) =
              [ErrorPattern "A" "message number one" 1]).
  { rewrite P. vm_compute. reflexivity. }
  split; [exact Q|].
  apply (I (ErrorPattern "A" "message number one" 1)).
  rewrite Q. now left.
Defined.

(* ================================================================= *)
(** ** The histograms of the aggregator *)

Section HistogramFacts.

Lemma counter_total_incr {K : Type} (eqb : K -> K -> bool) (k : K) (c : list (K * nat)) :
  counter_total (incr eqb k c) = S (counter_total c).
Proof.
  unfold counter_total, incr. induction c as [|[k' n] c IH]; simpl; [reflexivity|].
  destruct (eqb k k'); simpl; [reflexivity|]. rewrite IH. lia.
Qed.

Lemma counter_total_Counter {K : Type} (eqb : K -> K -> bool) (l : list K) :
  counter_total (Counter eqb l) = length l.
Proof.
  induction l as [|x l IH] using rev_ind; [reflexivity|].
  unfold Counter in *. rewrite fold_left_app. simpl.
  rewrite counter_total_incr, IH, List.length_app. simpl. lia.
Qed.

(** An item of a counter holds a key that was counted, with the number of
    times it was. *)
Lemma Counter_item {K : Type} (eqb : K -> K -> bool)
    (eqb_eq : forall a b, eqb a b = true <-> a = b) (l : list K) (k : K) (n : nat) :
  In (k, n) (Counter eqb l) ->
  In k l /\ n = length (filter (eqb k) l) /\ 1 <= n.
Proof.
  intros H.
  assert (Hk : In k l).
  { apply (Counter_keys eqb eqb_eq l). change k with (fst (k, n)). now apply in_map. }
  assert (Hn : n = length (filter (eqb k) l)).
  { rewrite <- (Counter_val eqb eqb_eq). unfold counter_val.
    rewrite (dict_get_In eqb eqb_eq _ _ _
               (StronglySorted_lt_NoDup _ _ (proj2 (Counter_keys eqb eqb_eq l))) H).
    reflexivity. }
  repeat split; auto. rewrite Hn.
  assert (Hf : In k (filter (eqb k) l))
    by (apply filter_In; split; [exact Hk | now apply eqb_eq]).
  destruct (filter (eqb k) l); [contradiction | simpl; lia].
Qed.

Lemma severities_fold_Counter (es : list entry) :
  forall a, severities (fold_left visit es a) =
            fold_left (fun c k => incr String.eqb k c)
                      (map (fun e => severity (parsed e)) es) (severities a).
Proof.
  induction es as [|e es IH]; intros a; [reflexivity|].
  cbn [fold_left map]. now rewrite IH, severities_visit.
Qed.

Lemma comps_visit (a : accum) (e : entry) :
  comps (visit a e) =
    fold_left (fun c k => incr String.eqb k c) (component_list e) (comps a).
Proof.
  unfold visit, visit_parsed, component_list, parsed.
  destruct (component (parse_log_entry (content e))); reflexivity.
Qed.

Lemma comps_fold_Counter (es : list entry) :
  forall a, comps (fold_left visit es a) =
            fold_left (fun c k => incr String.eqb k c)
                      (flat_map component_list es) (comps a).
Proof.
  induction es as [|e es IH]; intros a; [reflexivity|].
  cbn [fold_left flat_map]. now rewrite IH, comps_visit, fold_left_app.
Qed.

Lemma length_filter_map {A B : Type} (p : B -> bool) (f : A -> B) (l : list A) :
  length (filter p (map f l)) = length (filter (fun x => p (f x)) l).
Proof.
  induction l as [|a l IH]; [reflexivity|].
  cbn [map filter]. destruct (p (f a)); cbn [List.length]; now rewrite IH.
Qed.

Lemma length_flat_map_le {A B : Type} (f : A -> list B) (l : list A) :
  (forall a, length (f a) <= 1) -> length (flat_map f l) <= length l.
Proof.
  intros H. induction l as [|a l IH]; simpl; [lia|].
  rewrite List.length_app. specialize (H a). lia.
Qed.

End HistogramFacts.

(** X1.  The severity distribution has one item per severity that occurs
    among the entries; every count is the number of entries with that
    severity, at least one, and the counts add up to the number of
    entries. *)
Theorem severity_distribution_counts (entries : list entry) :
  let dist := severity_distribution (analyze_log_entries entries) in
  counter_total dist = total_entries (analyze_log_entries entries) /\
  NoDup (map fst dist) /\
  (forall sev n,
     In (sev, n) dist ->
     (exists e, In e entries /\ severity (parsed e) = sev) /\ 1 <= n /\
     n = length (filter (fun e => String.eqb sev (severity (parsed e))) entries)).
Proof.
  cbv zeta. unfold analyze_log_entries. cbn [severity_distribution total_entries].
  unfold accumulate. rewrite severities_fold_Counter. cbn [severities accum0].
  fold (Counter String.eqb (map (fun e => severity (parsed e)) entries)).
  split; [|split].
  - now rewrite counter_total_Counter, length_map.
  - eapply StronglySorted_lt_NoDup. apply (Counter_keys String.eqb String.eqb_eq).
  - intros sev n H.
    destruct (Counter_item String.eqb String.eqb_eq _ _ _ H) as (Hin & Hn & H1).
    split; [|split; [exact H1|]].
    + apply in_map_iff in Hin. destruct Hin as (e & <- & He).
      now exists e.
    + rewrite Hn. apply length_filter_map.
Qed.

(** X2.  The component map has one item per component that occurs; every
    count is the number of entries with that component, at least one, and
    the counts add up to the number of entries that have a component, which
    is at most the number of entries. *)
Theorem components_counts (entries : list entry) :
  let cs := components (analyze_log_entries entries) in
  counter_total cs = length (flat_map component_list entries) /\
  counter_total cs <= total_entries (analyze_log_entries entries) /\
  NoDup (map fst cs) /\
  (forall c n,
     In (c, n) cs ->
     1 <= n /\
     n = length (filter (fun e => match component (parsed e) with
                                  | Some c' => String.eqb c c'
                                  | None => false
                                  end) entries)).
Proof.
  cbv zeta. unfold analyze_log_entries. cbn [components total_entries].
  unfold accumulate. rewrite comps_fold_Counter. cbn [comps accum0].
  fold (Counter String.eqb (flat_map component_list entries)).
  rewrite counter_total_Counter.
  split; [reflexivity|]. split; [|split].
  - apply length_flat_map_le. intros e. unfold component_list.
    destruct (component (parsed e)); simpl; lia.
  - eapply StronglySorted_lt_NoDup. apply (Counter_keys String.eqb String.eqb_eq).
  - intros c n H.
    destruct (Counter_item String.eqb String.eqb_eq _ _ _ H) as (_ & Hn & H1).
    split; [exact H1|]. rewrite Hn. clear.
    induction entries as [|e es IH]; [reflexivity|].
    cbn [flat_map filter]. rewrite filter_app, List.length_app, IH.
    unfold component_list. destruct (component (parsed e)) as [c'|]; simpl; [|reflexivity].
    destruct (String.eqb c c'); reflexivity.
Qed.

(* ================================================================= *)
(** ** The time pattern *)

Section TimeFacts.

Lemma ascii_compare_N (a b : ascii) :
  Ascii.compare a b = N.compare (N_of_ascii a) (N_of_ascii b).
Proof. reflexivity. Qed.

Lemma compare_not_lt_trans (a : string) :
  forall b c, String.compare b a <> Lt -> String.compare c b <> Lt ->
              String.compare c a <> Lt.
Proof.
  induction a as [|x a IH]; intros b c Hba Hcb.
  - destruct c; simpl; discriminate.
  - destruct b as [|y b]; [simpl in Hba; now elim Hba|].
    destruct c as [|z c]; [simpl in Hcb; now elim Hcb|].
    simpl in *. rewrite ascii_compare_N in *.
    destruct (N.compare_spec (N_of_ascii y) (N_of_ascii x)) as [Eyx|Lyx|Gyx];
      try congruence;
      destruct (N.compare_spec (N_of_ascii z) (N_of_ascii y)) as [Ezy|Lzy|Gzy];
      try congruence;
      destruct (N.compare_spec (N_of_ascii z) (N_of_ascii x)) as [Ezx|Lzx|Gzx];
      try discriminate; try lia.
    now apply (IH b c).
Qed.

Lemma str_le_trans (a b c : string) : str_le a b -> str_le b c -> str_le a c.
Proof.
  unfold str_le, String.ltb. intros Hab Hbc.
  pose proof (compare_not_lt_trans a b c) as T.
  destruct (String.compare b a) eqn:E1; try discriminate;
    destruct (String.compare c b) eqn:E2; try discriminate;
    destruct (String.compare c a) eqn:E3; try reflexivity;
    exfalso; apply T; congruence.
Qed.

Lemma str_le_refl (a : string) : str_le a a.
Proof.
  unfold str_le, String.ltb.
  assert (E : String.compare a a = Eq).
  { induction a as [|x a IH]; simpl; [reflexivity|].
    rewrite ascii_compare_N, N.compare_refl. exact IH. }
  now rewrite E.
Qed.

(** When [y] is below [x], [x] is not below [y]. *)
Lemma ltb_str_le (y x : string) : String.ltb y x = true -> str_le y x.
Proof.
  unfold str_le, String.ltb. rewrite (String.compare_antisym x y).
  destruct (String.compare y x); simpl; congruence.
Qed.

Lemma In_insert_asc (x y : string) (l : list string) :
  In y (insert_asc x l) <-> y = x \/ In y l.
Proof.
  induction l as [|z l IH]; simpl.
  - split; [intros [H|[]]; auto | intros [H|[]]; auto].
  - destruct (String.ltb z x); simpl; [rewrite IH|]; split; intuition auto.
Qed.

Lemma In_sorted (y : string) (l : list string) : In y (sorted l) <-> In y l.
Proof.
  induction l as [|x l IH]; simpl; [tauto|].
  rewrite In_insert_asc, IH. split; intuition auto.
Qed.

Lemma length_insert_asc (x : string) (l : list string) :
  length (insert_asc x l) = S (length l).
Proof.
  induction l as [|z l IH]; simpl; [reflexivity|].
  destruct (String.ltb z x); simpl; [now rewrite IH | reflexivity].
Qed.

Lemma length_sorted (l : list string) : length (sorted l) = length l.
Proof.
  induction l as [|x l IH]; simpl; [reflexivity|].
  now rewrite length_insert_asc, IH.
Qed.

Lemma insert_asc_sorted (x : string) (l : list string) :
  StronglySorted str_le l -> StronglySorted str_le (insert_asc x l).
Proof.
  induction 1 as [|z l Hs IH Hz]; simpl.
  - constructor; constructor.
  - destruct (String.ltb z x) eqn:E.
    + constructor; [exact IH|].
      rewrite Forall_forall in *. intros y Hy.
      apply In_insert_asc in Hy. destruct Hy as [->|Hy]; [now apply ltb_str_le | now apply Hz].
    + constructor; [constructor; assumption|].
      rewrite Forall_forall in *. intros y [<-|Hy]; [exact E|].
      eapply str_le_trans; [exact E | now apply Hz].
Qed.

Lemma sorted_sorted (l : list string) : StronglySorted str_le (sorted l).
Proof.
  induction l as [|x l IH]; simpl; [constructor | now apply insert_asc_sorted].
Qed.

Lemma last_shift {A : Type} (l : list A) :
  forall z x, last (z :: l) x = last l z.
Proof.
  induction l as [|y l IH]; intros z x; [reflexivity|].
  change (last (z :: y :: l) x) with (last (y :: l) x).
  now rewrite !IH.
Qed.

Lemma last_In {A : Type} (l : list A) :
  forall d, In (last l d) (d :: l).
Proof.
  induction l as [|x l IH]; intros d; [now left|].
  rewrite last_shift. right. apply IH.
Qed.

Lemma StronglySorted_last (R : string -> string -> Prop) (l : list string) :
  (forall a, R a a) ->
  forall x, StronglySorted R (x :: l) ->
            forall y, In y (x :: l) -> R y (last l x).
Proof.
  intros Rr. induction l as [|z l IH]; intros x Hs y Hy.
  - destruct Hy as [<-|[]]. apply Rr.
  - inversion Hs as [|? ? Hs' Hx]; subst.
    rewrite last_shift.
    destruct Hy as [<-|Hy].
    + rewrite Forall_forall in Hx. apply Hx. apply last_In.
    + now apply IH.
Qed.

Lemma timestamps_visit (a : accum) (e : entry) :
  timestamps (visit a e) = (timestamps a ++ timestamp_list e)%list.
Proof.
  unfold visit, visit_parsed, timestamp_list, parsed.
  destruct (component (parse_log_entry (content e)));
    destruct (timestamp (parse_log_entry (content e))); cbn [timestamps];
    try reflexivity; now rewrite app_nil_r.
Qed.

Lemma timestamps_fold (es : list entry) :
  forall a, timestamps (fold_left visit es a) =
            (timestamps a ++ flat_map timestamp_list es)%list.
Proof.
  induction es as [|e es IH]; intros a; cbn [fold_left flat_map].
  - now rewrite app_nil_r.
  - now rewrite IH, timestamps_visit, <- app_assoc.
Qed.

End TimeFacts.

(** X3.  The time pattern is absent exactly when no entry has a timestamp.
    When present, its total is the number of entries with a timestamp, and
    its first and last occurrence are timestamps of the batch that are
    respectively below and above every other one, in code-point order. *)
Theorem time_pattern_bounds (entries : list entry) :
  let stamps := flat_map timestamp_list entries in
  (time_pattern (analyze_log_entries entries) = None <-> stamps = []) /\
  (forall tp,
     time_pattern (analyze_log_entries entries) = Some tp ->
     total_occurrences tp = length stamps /\
     In (first_occurrence tp) stamps /\
     In (last_occurrence tp) stamps /\
     (forall t, In t stamps ->
        str_le (first_occurrence tp) t /\ str_le t (last_occurrence tp))).
Proof.
  cbv zeta. unfold analyze_log_entries. cbn [time_pattern].
  unfold accumulate. rewrite timestamps_fold. cbn [timestamps accum0 app].
  set (stamps := flat_map timestamp_list entries).
  unfold time_pattern_of.
  pose proof (length_sorted stamps) as L.
  pose proof (sorted_sorted stamps) as S.
  pose proof (fun y => In_sorted y stamps) as I.
  destruct (sorted stamps) as [|t0 rest].
  - split.
    + split; [intros _ | reflexivity].
      destruct stamps; [reflexivity | discriminate].
    + intros tp H. discriminate.
  - split.
    + split; [discriminate|]. intros E. rewrite E in L. discriminate.
    + intros tp H. inversion H; subst tp; clear H.
      cbn [total_occurrences first_occurrence last_occurrence].
      split; [exact L|]. split; [apply I; now left|].
      split; [apply I; apply last_In|].
      intros t Ht. apply I in Ht. split.
      * inversion S as [|? ? _ F]; subst. rewrite Forall_forall in F.
        destruct Ht as [<-|Ht]; [apply str_le_refl | now apply F].
      * now apply (StronglySorted_last str_le rest str_le_refl t0 S).
Qed.

(* ================================================================= *)
(** ** The error buffers *)

Section BufferFacts.

Lemma dict_get_push (k k' v : string) (b : list (string * list string)) :
  dict_get String.eqb k (push String.eqb k' v b) =
    if String.eqb k k' then Some (buffer_val k b ++ [v])%list
    else dict_get String.eqb k b.
Proof.
  unfold push, buffer_val. induction b as [|[x l] b IH]; simpl.
  - destruct (String.eqb k k'); reflexivity.
  - destruct (String.eqb k' x) eqn:E; simpl.
    + apply String.eqb_eq in E. subst x.
      destruct (String.eqb k k'); reflexivity.
    + destruct (String.eqb k x) eqn:E'.
      * apply String.eqb_eq in E'. subst x.
        rewrite String.eqb_sym, E. reflexivity.
      * exact IH.
Qed.

Lemma buffer_step_get (c : string) (b : list (string * list string)) (e : entry) :
  dict_get String.eqb c (buffer_step b e) =
    if error_of c e then Some (buffer_val c b ++ [message (parsed e)])%list
    else dict_get String.eqb c b.
Proof.
  unfold buffer_step, error_of.
  destruct (component (parsed e)) as [c'|]; [|reflexivity].
  destruct (is_error_severity (severity (parsed e))).
  - rewrite dict_get_push, andb_true_r. reflexivity.
  - now rewrite andb_false_r.
Qed.

Lemma buffer_fold_get (c : string) (es : list entry) :
  forall b,
    dict_get String.eqb c (fold_left buffer_step es b) =
      match map (fun e => message (parsed e)) (filter (error_of c) es) with
      | [] => dict_get String.eqb c b
      | msgs => Some (buffer_val c b ++ msgs)%list
      end.
Proof.
  induction es as [|e es IH]; intros b; [reflexivity|].
  cbn [fold_left filter]. rewrite IH.
  unfold buffer_val at 1. rewrite buffer_step_get.
  destruct (error_of c e); cbn [map].
  - destruct (map (fun e0 => message (parsed e0)) (filter (error_of c) es)).
    + reflexivity.
    + now rewrite <- app_assoc.
  - reflexivity.
Qed.

End BufferFacts.

(** X4.  After the loop, the error buffer of a component holds the messages
    of the entries that have this component and an error severity, in the
    order of the entries; the component has a buffer exactly when there is
    such an entry. *)
Theorem error_buffer_contents (entries : list entry) (c : string) :
  let errors := map (fun e => message (parsed e)) (filter (error_of c) entries) in
  buffer_val c (errors_by_component (accumulate entries)) = errors /\
  (dict_get String.eqb c (errors_by_component (accumulate entries)) = None <->
   errors = []).
Proof.
  cbv zeta. unfold accumulate, buffer_val.
  rewrite buffer_fold, buffer_fold_get. cbn [errors_by_component accum0 dict_get].
  destruct (map (fun e => message (parsed e)) (filter (error_of c) entries)).
  - split; [reflexivity | tauto].
  - split; [reflexivity|]. split; discriminate.
Qed.

(* ================================================================= *)
(** ** The digit mask *)

Section DigitFacts.

Lemma rep_accepts (p : ascii -> bool) (s : string) :
  forall hi st, rep p 0 hi st s accept <> None.
Proof.
  induction s as [|c s IH]; intros hi st; simpl; [discriminate|].
  destruct (p c && room hi); [|discriminate].
  destruct (rep p 0 (option_map pred hi) (step st c) s accept); discriminate.
Qed.

Lemma num_match_digit (st : mstate) (c : ascii) (s : string) :
  digit c = true -> match_here num_re st (String c s) <> None.
Proof.
  intros H. unfold match_here, num_re. cbn [run rep]. rewrite H. cbn [room andb pred option_map].
  pose proof (rep_accepts digit s None (step st c)) as R.
  destruct (rep digit 0 None (step st c) s accept); [discriminate | now elim R].
Qed.

Lemma num_match_other (st : mstate) (c : ascii) (s : string) :
  digit c = false -> match_here num_re st (String c s) = None.
Proof.
  intros H. unfold match_here, num_re. cbn [run rep]. now rewrite H.
Qed.

Lemma all_chars_app_intro (p : ascii -> bool) (a b : string) :
  all_chars p a = true -> all_chars p b = true -> all_chars p (a ++ b) = true.
Proof. intros Ha Hb. now rewrite all_chars_app, Ha, Hb. Qed.

(** Whatever the digit mask returns has no digit left. *)
Lemma mask_nums_scan (s : string) :
  forall skip st, all_chars not_digit (sub_scan num_re "<NUM>" skip st s) = true.
Proof.
  induction s as [|c s IH]; intros skip st.
  - destruct skip; reflexivity.
  - destruct skip as [|n]; cbn [sub_scan]; [|apply IH].
    destruct (match_here num_re st (String c s)) as [[e s']|] eqn:E.
    + destruct (pos e - pos st) as [|n] eqn:P.
      * pose proof (masks_consume st _ e s' (or_intror E)). lia.
      * apply all_chars_app_intro; [reflexivity | apply IH].
    + cbn [all_chars]. rewrite IH, andb_true_r.
      unfold not_digit. destruct (digit c) eqn:D; [|reflexivity].
      now elim (num_match_digit st c s D).
Qed.

(** A text without digits goes through the digit mask unchanged. *)
Lemma mask_nums_fixed (s : string) :
  forall st, all_chars not_digit s = true -> sub_scan num_re "<NUM>" 0 st s = s.
Proof.
  induction s as [|c s IH]; intros st H; [reflexivity|].
  cbn [all_chars] in H. apply andb_true_iff in H. destruct H as [Hc Hs].
  cbn [sub_scan]. rewrite num_match_other.
  - now rewrite IH.
  - unfold not_digit in Hc. now destruct (digit c).
Qed.

End DigitFacts.

(** X5.  A normalised pattern holds no decimal digit, so a second pass of
    the digit mask leaves it as it is. *)
Theorem normalize_leaves_no_digit (error : string) :
  all_chars not_digit (normalize error) = true /\
  mask_nums (normalize error) = normalize error.
Proof.
  assert (H : all_chars not_digit (normalize error) = true)
    by (unfold normalize, mask_nums, sub; apply mask_nums_scan).
  split; [exact H|].
  unfold mask_nums at 1. unfold sub. now apply mask_nums_fixed.
Qed.

(* ================================================================= *)
(** ** The fields of a parsed entry are parts of the line *)

Section SliceFacts.

Lemma part_refl (s : string) : part s s.
Proof. exists "", "". simpl. now rewrite app_empty_r. Qed.

Lemma part_trans (a b c : string) : part a b -> part b c -> part a c.
Proof.
  intros (x & y & ->) (u & v & ->).
  exists (u ++ x), (y ++ v). now rewrite !app_assoc_str.
Qed.

Lemma part_suffix (a s : string) : part s (a ++ s).
Proof. exists a, "". now rewrite app_empty_r. Qed.

Lemma part_prefix (s b : string) : part s (s ++ b).
Proof. now exists "", b. Qed.

Lemma lstrip_suffix (s : string) : exists a, s = a ++ Py.lstrip s.
Proof.
  induction s as [|c s [a IH]]; simpl; [now exists ""|].
  destruct (Py.isspace c); [|now exists ""].
  exists (String c a). simpl. now rewrite <- IH.
Qed.

Lemma rstrip_prefix (s : string) : exists b, s = Py.rstrip s ++ b.
Proof.
  induction s as [|c s [b IH]]; simpl; [now exists ""|].
  destruct (Py.rstrip s) as [|d r].
  - destruct (Py.isspace c); [now exists (String c s) | now exists s].
  - exists b. simpl in *. now rewrite <- IH.
Qed.

Lemma strip_part (s : string) : part (Py.strip s) s.
Proof.
  unfold Py.strip.
  destruct (lstrip_suffix s) as [a Ha].
  destruct (rstrip_prefix (Py.lstrip s)) as [b Hb].
  exists a, b. now rewrite <- Hb.
Qed.

Lemma split1_last_part (sep s : string) : part (Py.split1_last sep s) s.
Proof.
  unfold Py.split1_last. destruct (Py.after_first sep s) as [r|] eqn:E.
  - destruct (after_first_sound _ _ _ E) as [pre ->].
    rewrite <- app_assoc_str. apply part_suffix.
  - apply part_refl.
Qed.

Lemma remainder_part (line : string) : part (remainder_of line) line.
Proof.
  unfold remainder_of. destruct (search severity_re line) as [m|].
  - eapply part_trans; [apply strip_part | apply split1_last_part].
  - apply part_refl.
Qed.

Lemma search_text (r : regex) (line : string) (m : rmatch) :
  search r line = Some m ->
  exists pre t post e,
    line = pre ++ t ++ post /\ group0 m line = t /\
    span r (steps start pre) (t ++ post) e post.
Proof.
  intros H. unfold search in H.
  destruct (scan_sound _ _ _ _ H) as (pre & s1 & e & s' & -> & Sp & ->).
  destruct (span_text _ _ _ _ _ Sp) as (t & -> & P & _).
  exists pre, t, s', e. repeat split; auto.
  unfold group0. cbn [m_start m_end]. rewrite P, pos_steps. simpl.
  apply slice_middle.
Qed.

(** What a match of a pattern looks like: its characters are among those the
    pattern can consume and its length is within the pattern's bounds. *)
Lemma span_shape (r : regex) :
  forall st t s' st',
    span r st (t ++ s') st' s' ->
    all_chars (may_consume r) t = true /\
    min_len r <= String.length t /\ within (max_len r) (String.length t).
Proof.
  assert (cancel : forall a b s : string, a ++ s = b ++ s -> a = b).
  { intros a b s H.
    assert (L : String.length a = String.length b).
    { apply (f_equal String.length) in H. rewrite !length_app in H. lia. }
    revert b H L. induction a as [|x a IH]; intros [|y b] H L; try discriminate; auto.
    simpl in *. inversion H. f_equal. apply IH; auto. }
  induction r as [|p|p lo hi|r1 IH1 r2 IH2|r1 IH1 r2 IH2| |n r1 IH1];
    intros st t s' st' H; simpl in H.
  - destruct H as [_ H]. apply (cancel "" t s') in H. subst t. simpl. auto.
  - destruct H as (c & H & Pc & _).
    apply (cancel t (String c "") s') in H. subst t. simpl. rewrite Pc. auto.
  - destruct H as (u & H & Pu & Hlo & Hhi & _).
    apply cancel in H. subst u. simpl. auto.
  - destruct H as (st1 & s1 & Sp1 & Sp2).
    destruct (span_text _ _ _ _ _ Sp1) as (t1 & E1 & _).
    destruct (span_text _ _ _ _ _ Sp2) as (t2 & E2 & _).
    subst s1. rewrite <- app_assoc_str in E1. apply cancel in E1. subst t.
    rewrite app_assoc_str in Sp1.
    destruct (IH1 _ _ _ _ Sp1) as (A1 & L1 & M1).
    destruct (IH2 _ _ _ _ Sp2) as (A2 & L2 & M2).
    simpl. rewrite all_chars_app, length_app. repeat split.
    + rewrite (all_chars_weaken _ (fun c => may_consume r1 c || may_consume r2 c) _
                 (fun c Hc => proj2 (orb_true_iff _ _) (or_introl Hc)) A1).
      now rewrite (all_chars_weaken _ (fun c => may_consume r1 c || may_consume r2 c) _
                     (fun c Hc => proj2 (orb_true_iff _ _) (or_intror Hc)) A2).
    + lia.
    + destruct (max_len r1), (max_len r2); simpl in *; auto; lia.
  - destruct H as [H|H].
    + destruct (IH1 _ _ _ _ H) as (A1 & L1 & M1). simpl. repeat split.
      * eapply all_chars_weaken; [|exact A1]. intros c Hc. now rewrite Hc.
      * lia.
      * destruct (max_len r1), (max_len r2); simpl in *; auto; lia.
    + destruct (IH2 _ _ _ _ H) as (A2 & L2 & M2). simpl. repeat split.
      * eapply all_chars_weaken; [|exact A2]. intros c Hc. rewrite Hc. apply orb_true_r.
      * lia.
      * destruct (max_len r1), (max_len r2); simpl in *; auto; lia.
  - destruct H as (_ & H & _). apply (cancel "" t s') in H. subst t. simpl. auto.
  - destruct H as (st1 & Sp1 & _). now apply (IH1 _ _ _ _ Sp1).
Qed.

End SliceFacts.

(** X6.  The message of a parsed line is always a part of the line, and it
    carries no leading or trailing blanks whenever a severity keyword or a
    component bracket was found. *)
Theorem message_is_part_of_line (line : string) :
  part (message (parse_log_entry line)) line /\
  (search severity_re line <> None \/ component (parse_log_entry line) <> None ->
   Py.strip (message (parse_log_entry line)) = message (parse_log_entry line)).
Proof.
  rewrite message_of_remainder, component_of_remainder. split.
  - destruct (search component_re (remainder_of line)).
    + eapply part_trans; [apply strip_part|].
      eapply part_trans; [apply split1_last_part | apply remainder_part].
    + apply remainder_part.
  - destruct (search component_re (remainder_of line)); [intros _; apply strip_idem|].
    intros [H|H]; [|now elim H].
    unfold remainder_of. destruct (search severity_re line); [apply strip_idem | now elim H].
Qed.

(** X7.  A component, when the parser finds one, is not empty, holds no
    closing bracket, and stands between brackets in the line. *)
Theorem component_is_bracketed (line c : string) :
  component (parse_log_entry line) = Some c ->
  1 <= String.length c /\
  all_chars not_close c = true /\
  part ("[" ++ c ++ "]") line.
Proof.
  rewrite component_of_remainder.
  destruct (search component_re (remainder_of line)) as [cm|] eqn:E; [|discriminate].
  simpl. intros H. inversion H; subst c; clear H.
  destruct (component_match_text _ _ E) as (pre & c & post & Hr & Hc & Hl & ->).
  repeat split; auto.
  eapply part_trans; [|apply remainder_part].
  exists pre, post. rewrite Hr. simpl. now rewrite app_assoc_str.
Qed.

(** X8.  A timestamp, when the parser finds one, is a part of the line of
    14 to 19 characters, all of them digits or one of [- / : T] and the
    space. *)
Theorem timestamp_is_part_of_line (line t : string) :
  timestamp (parse_log_entry line) = Some t ->
  part t line /\
  14 <= String.length t <= 19 /\
  all_chars timestamp_char t = true.
Proof.
  unfold parse_log_entry. cbn [timestamp].
  destruct (search timestamp_re line) as [m|] eqn:E; [|discriminate].
  simpl. intros H. inversion H; subst t; clear H.
  destruct (search_text _ _ _ E) as (pre & t & post & e & Hl & -> & Sp).
  destruct (span_shape _ _ _ _ _ Sp) as (A & L & M).
  split; [now exists pre, post|]. split.
  - change (min_len timestamp_re) with 14 in L.
    change (max_len timestamp_re) with (Some 19) in M. simpl in M. lia.
  - eapply all_chars_weaken; [|exact A].
    intros c Hc.
    assert (G : forall x, implb (may_consume timestamp_re x) (timestamp_char x) = true)
      by (apply for_all_ascii; vm_compute; reflexivity).
    specialize (G c). rewrite Hc in G. exact G.
Qed.

(** X9.  The advisor returns between one and three suggestions without
    repetition: either the single fallback, or some of the three categories
    in the order connection, permission, resource. *)
Theorem suggestions_shape (a : analysis) :
  1 <= length (suggest_solutions a) <= 3 /\
  NoDup (suggest_solutions a) /\
  (In uncategorized (suggest_solutions a) -> suggest_solutions a = [uncategorized]) /\
  (suggest_solutions a = [uncategorized] \/
   exists keep, suggest_solutions a =
                  filter keep [connection_issues; permission_issues; resource_limits]).
Proof.
  rewrite suggest_by_cases.
  assert (D1 : connection_issues <> permission_issues) by discriminate.
  assert (D2 : connection_issues <> resource_limits) by discriminate.
  assert (D3 : permission_issues <> resource_limits) by discriminate.
  destruct (existsb connection_rule (lowered_patterns a)) eqn:C,
           (existsb permission_rule (lowered_patterns a)) eqn:P,
           (existsb resource_rule (lowered_patterns a)) eqn:R; simpl;
    (split; [lia|]);
    (split; [repeat constructor; simpl; intuition congruence|]);
    (split; [intros H; repeat (destruct H as [H|H]; try discriminate); try contradiction; reflexivity|]).
  - right. exists (fun _ => true). reflexivity.
  - right. exists (fun s => negb (String.eqb (problem s) "System resource limits")). reflexivity.
  - right. exists (fun s => negb (String.eqb (problem s) "Permission issues")). reflexivity.
  - right. exists (fun s => String.eqb (problem s) "Connection issues"). reflexivity.
  - right. exists (fun s => negb (String.eqb (problem s) "Connection issues")). reflexivity.
  - right. exists (fun s => String.eqb (problem s) "Permission issues"). reflexivity.
  - right. exists (fun s => String.eqb (problem s) "System resource limits"). reflexivity.
  - now left.
Qed.

(* ================================================================= *)
(** ** File discovery *)

Section DiscoveryFacts.
Variable path_join : string -> string -> string.

Lemma firstn_full {A : Type} (n : nat) (l l' : list A) :
  n <= length l -> firstn n (l ++ l') = firstn n l.
Proof.
  intros H. rewrite firstn_app.
  replace (n - length l) with 0 by lia. simpl. apply app_nil_r.
Qed.

Lemma firstn_eq_length {A : Type} (n : nat) (l l' : list A) :
  firstn n l = firstn n l' -> n <= length l -> n <= length l'.
Proof.
  intros E H. apply (f_equal (@length A)) in E.
  rewrite !length_firstn in E. lia.
Qed.

Lemma found_step (max_files : nat) (log_files seen : list string) (p : string) :
  found_so_far max_files log_files seen ->
  found_so_far max_files (log_files ++ [p]) (seen ++ [p]).
Proof.
  intros (F & B & I). repeat split.
  - destruct (Nat.lt_ge_cases (length log_files) max_files) as [L|L].
    + now rewrite (B L).
    + rewrite !firstn_full; auto. eapply firstn_eq_length; eauto.
  - rewrite List.length_app. simpl. intros L. rewrite B by lia. reflexivity.
  - intros x Hx. apply in_app_or in Hx. apply in_or_app.
    destruct Hx as [Hx|Hx]; [left; now apply I | now right].
Qed.

Lemma found_more (max_files : nat) (log_files seen more : list string) :
  max_files <= length log_files ->
  found_so_far max_files log_files seen ->
  found_so_far max_files log_files (seen ++ more).
Proof.
  intros L (F & B & I). repeat split.
  - rewrite firstn_full; auto. eapply firstn_eq_length; eauto.
  - intros L'. lia.
  - intros x Hx. apply in_or_app. left. now apply I.
Qed.

Lemma scan_dir_found (root : string) (max_files : nat) (files : list string) :
  forall log_files seen,
    found_so_far max_files log_files seen ->
    found_so_far max_files (scan_dir path_join root files max_files log_files)
                 (seen ++ map (path_join root) (filter is_log_name files)).
Proof.
  induction files as [|file rest IH]; intros log_files seen H; cbn [scan_dir filter map].
  - now rewrite app_nil_r.
  - destruct (is_log_name file) eqn:E; cbn [map].
    + replace (seen ++ path_join root file :: map (path_join root) (filter is_log_name rest))%list
        with ((seen ++ [path_join root file]) ++ map (path_join root) (filter is_log_name rest))%list
        by (now rewrite <- app_assoc).
      apply (found_step _ _ _ (path_join root file)) in H.
      destruct (Nat.leb max_files (length (log_files ++ [path_join root file]))) eqn:L.
      * apply Nat.leb_le in L. now apply found_more.
      * now apply IH.
    + destruct (Nat.leb max_files (length log_files)) eqn:L.
      * apply Nat.leb_le in L. now apply found_more.
      * now apply IH.
Qed.

Lemma scan_dir_length (root : string) (max_files : nat) (files : list string) :
  forall log_files,
    length (scan_dir path_join root files max_files log_files)
    <= Nat.max max_files (S (length log_files)).
Proof.
  induction files as [|file rest IH]; intros log_files; cbn [scan_dir]; [lia|].
  set (next := if is_log_name file then (log_files ++ [path_join root file])%list
               else log_files).
  assert (N : length next <= S (length log_files)).
  { unfold next. destruct (is_log_name file); [rewrite List.length_app; simpl|]; lia. }
  destruct (Nat.leb max_files (length next)) eqn:L; [lia|].
  apply Nat.leb_gt in L. specialize (IH next). lia.
Qed.

Lemma find_fold_found (max_files : nat) (walk : list (string * list string * list string)) :
  forall log_files seen,
    found_so_far max_files log_files seen ->
    found_so_far max_files
      (fold_left (fun acc item => scan_dir path_join (fst (fst item)) (snd item) max_files acc)
                 walk log_files)
      (seen ++ candidates path_join walk).
Proof.
  induction walk as [|item walk IH]; intros log_files seen H; cbn [fold_left candidates flat_map].
  - now rewrite app_nil_r.
  - rewrite app_assoc. apply IH. now apply scan_dir_found.
Qed.

Lemma find_fold_length (max_files : nat) (walk : list (string * list string * list string)) :
  forall log_files,
    length (fold_left (fun acc item => scan_dir path_join (fst (fst item)) (snd item) max_files acc)
                      walk log_files)
    <= Nat.max max_files (length log_files) + length walk.
Proof.
  induction walk as [|item walk IH]; intros log_files; cbn [fold_left]; [simpl; lia|].
  specialize (IH (scan_dir path_join (fst (fst item)) (snd item) max_files log_files)).
  pose proof (scan_dir_length (fst (fst item)) max_files (snd item) log_files).
  simpl. lia.
Qed.

End DiscoveryFacts.

(** X10.  Every file found is a file of the walk with suffix [.log] or
    [.csv], joined to its directory.  The first [max_files] files found are
    the first [max_files] such files in walk order, and when there are fewer
    than [max_files] of them all are found; but the list is not cut at
    [max_files]: it can hold up to one more file per directory walked. *)
Theorem find_log_files_bound (path_join : string -> string -> string)
    (walk : list (string * list string * list string)) (max_files : nat) :
  let found := find_log_files path_join walk max_files in
  (forall p, In p found ->
     exists root dirs files file,
       In (root, dirs, files) walk /\ In file files /\
       is_log_name file = true /\ p = path_join root file) /\
  firstn max_files found = firstn max_files (candidates path_join walk) /\
  (length (candidates path_join walk) < max_files ->
   found = candidates path_join walk) /\
  length found <= max_files + length walk.
Proof.
  cbv zeta. unfold find_log_files.
  assert (H0 : found_so_far max_files [] []).
  { repeat split; auto. intros x []. }
  pose proof (find_fold_found path_join max_files walk [] [] H0) as (F & B & I).
  cbn [app] in F, B, I.
  split; [|split; [exact F|split]].
  - intros p Hp. apply I in Hp. unfold candidates in Hp.
    apply in_flat_map in Hp. destruct Hp as ([[root dirs] files] & Hw & Hp).
    cbn [fst snd] in Hp. apply in_map_iff in Hp. destruct Hp as (file & <- & Hf).
    apply filter_In in Hf. destruct Hf as [Hf Hl].
    exists root, dirs, files, file. auto.
  - intros L. apply B.
    apply (f_equal (@length string)) in F. rewrite !length_firstn in F. lia.
  - pose proof (find_fold_length path_join max_files walk []) as L. simpl in L. lia.
Qed.

Lemma find_log_files_bound_witness :
  let join := fun root file => root ++ "/" ++ file in
  let walk := [("logs", ["old"], ["a.log"; "b.txt"; "c.csv"]);
               ("logs/old", [], ["d.log"; "e.log"])] in
  find_log_files join walk 1 = ["logs/a.log"; "logs/old/d.log"] /\
  (exists root dirs files file,
     In (root, dirs, files) walk /\ In file files /\
     is_log_name file = true /\ "logs/old/d.log" = join root file) /\
  find_log_files join walk 5 = candidates join walk.
Proof.
  cbv zeta.
  pose proof (find_log_files_bound (fun root file => root ++ "/" ++ file)
                [("logs", ["old"], ["a.log"; "b.txt"; "c.csv"]);
                 ("logs/old", [], ["d.log"; "e.log"])] 1) as (M & _).
  pose proof (find_log_files_bound (fun root file => root ++ "/" ++ file)
                [("logs", ["old"], ["a.log"; "b.txt"; "c.csv"]);
                 ("logs/old", [], ["d.log"; "e.log"])] 5) as (_ & _ & A & _).
  cbv zeta in M, A.
  split; [vm_compute; reflexivity|]. split.
  - apply M. vm_compute. right. left. reflexivity.
  - apply A. vm_compute. lia.
Defined.

(* ================================================================= *)
(** ** Search and CSV loading *)

Section SearchFacts.
Variable read_csv : string -> option data_frame.
Variable read_lines : string -> list string.

Lemma matching_lines_In (file_path term : string) (lines : list string) :
  forall i e,
    In e (matching_lines file_path term i lines) <->
    exists j line,
      nth_error lines j = Some line /\
      Py.contains (Py.lower term) (Py.lower line) = true /\
      e = Entry file_path (Some (i + j + 1)) (Py.strip line).
Proof.
  induction lines as [|l rest IH]; intros i e; cbn [matching_lines].
  - split; [intros [] | intros (j & line & H & _)]. destruct j; discriminate.
  - rewrite in_app_iff, IH. split.
    + intros [H|(j & line & Hn & Hc & ->)].
      * destruct (Py.contains (Py.lower term) (Py.lower l)) eqn:C; [|contradiction].
        destruct H as [<-|[]]. exists 0, l. rewrite Nat.add_0_r. auto.
      * exists (S j), line. repeat split; auto.
        replace (i + S j + 1) with (S i + j + 1) by lia. reflexivity.
    + intros (j & line & Hn & Hc & ->). destruct j as [|j]; simpl in Hn.
      * inversion Hn; subst. left. rewrite Hc, Nat.add_0_r. now left.
      * right. exists j, line. repeat split; auto.
        replace (i + S j + 1) with (S i + j + 1) by lia. reflexivity.
Qed.

Lemma all_some_map {A B : Type} (f : A -> option B) (g : A -> B) (l : list A) :
  (forall a, In a l -> f a = Some (g a)) -> all_some (map f l) = Some (map g l).
Proof.
  induction l as [|a l IH]; intros H; simpl; [reflexivity|].
  rewrite (H a) by now left. rewrite IH; [reflexivity|].
  intros x Hx. apply H. now right.
Qed.

(** The message of a trimmed line is trimmed. *)
Lemma message_of_trimmed (line : string) :
  Py.strip line = line ->
  Py.strip (message (parse_log_entry line)) = message (parse_log_entry line).
Proof.
  intros T. rewrite message_of_remainder.
  destruct (search component_re (remainder_of line)); [apply strip_idem|].
  unfold remainder_of. destruct (search severity_re line); [apply strip_idem | exact T].
Qed.

End SearchFacts.

(** X11.  A match of [search_files] comes from one of the files: from a
    [.csv] file it is an entry of the CSV loader, from any other file it is
    a line that contains the search term, both lower-cased, with the
    1-based number of the line and the line trimmed as content. *)
Theorem search_files_matches
    (read_csv : string -> option data_frame) (read_lines : string -> list string)
    (files : list string) (search_term : string) (e : entry) :
  In e (search_files read_csv read_lines files search_term) <->
  exists file_path,
    In file_path files /\
    ((ends_with ".csv" file_path = true /\ In e (load_csv_logs read_csv file_path)) \/
     (ends_with ".csv" file_path = false /\
      exists n line,
        1 <= n <= length (read_lines file_path) /\
        nth_error (read_lines file_path) (n - 1) = Some line /\
        Py.contains (Py.lower search_term) (Py.lower line) = true /\
        e = Entry file_path (Some n) (Py.strip line))).
Proof.
  unfold search_files. rewrite in_flat_map. split.
  - intros (fp & Hf & H). exists fp. split; [exact Hf|].
    destruct (ends_with ".csv" fp); [now left|]. right. split; [reflexivity|].
    apply matching_lines_In in H. destruct H as (j & line & Hn & Hc & ->).
    exists (j + 1), line. repeat split; auto; try lia.
    + assert (j < length (read_lines fp)) by (apply nth_error_Some; congruence). lia.
    + now replace (j + 1 - 1) with j by lia.
  - intros (fp & Hf & [[C H]|[C (n & line & Hb & Hn & Hc & ->)]]);
      exists fp; rewrite C; split; auto.
    apply matching_lines_In. exists (n - 1), line. repeat split; auto.
    now replace (0 + (n - 1) + 1) with n by lia.
Qed.

(** X12.  The content of a match found in a text file is trimmed, and so is
    the message parsed from it, whichever fields the parser finds; when it
    finds neither a severity nor a component, the message is the trimmed
    line itself. *)
Theorem text_match_message_is_trimmed
    (file_path search_term : string) (lines : list string) (e : entry) :
  In e (matching_lines file_path search_term 0 lines) ->
  Py.strip (content e) = content e /\
  Py.strip (message (parsed e)) = message (parsed e) /\
  (search severity_re (content e) = None -> component (parsed e) = None ->
   exists line, In line lines /\ message (parsed e) = Py.strip line).
Proof.
  intros H. apply matching_lines_In in H. destruct H as (j & line & Hn & _ & ->).
  cbn [content]. unfold parsed. cbn [content].
  split; [apply strip_idem|]. split.
  - apply message_of_trimmed, strip_idem.
  - intros Hs Hc. exists line. split; [eapply nth_error_In; eauto|].
    rewrite component_of_remainder in Hc. rewrite message_of_remainder.
    destruct (parse_unmatched _ Hs) as [_ R]. rewrite R in *.
    destruct (search component_re (Py.strip line)); [discriminate | reflexivity].
Qed.

(** X13.  A CSV file that cannot be read, or whose frame lacks one of the
    columns Timestamp, Level, Component, Message, gives no entry at all.
    A frame with the four columns in every row gives one entry per row, in
    order, each without line number and with the row rendered as
    ["<timestamp> <level> [<component>]: <message>"]. *)
Theorem load_csv_logs_entries
    (read_csv : string -> option data_frame) (file_path : string) :
  (read_csv file_path = None -> load_csv_logs read_csv file_path = []) /\
  (forall df col,
     read_csv file_path = Some df ->
     In col ["Timestamp"; "Level"; "Component"; "Message"] ->
     ~ In col (df_columns df) ->
     load_csv_logs read_csv file_path = []) /\
  (forall df (cells : list (string * string) -> string * string * string * string),
     read_csv file_path = Some df ->
     (forall col, In col ["Timestamp"; "Level"; "Component"; "Message"] ->
                  In col (df_columns df)) ->
     (forall row, In row (df_rows df) ->
        dict_get String.eqb "Timestamp" row = Some (fst (fst (fst (cells row)))) /\
        dict_get String.eqb "Level" row = Some (snd (fst (fst (cells row)))) /\
        dict_get String.eqb "Component" row = Some (snd (fst (cells row))) /\
        dict_get String.eqb "Message" row = Some (snd (cells row))) ->
     load_csv_logs read_csv file_path =
       map (fun row => Entry file_path None
                         (csv_content (fst (fst (fst (cells row)))) (snd (fst (fst (cells row))))
                                      (snd (fst (cells row))) (snd (cells row))))
           (df_rows df)).
Proof.
  unfold load_csv_logs. split; [|split].
  - now intros ->.
  - intros df col -> Hc Hn.
    destruct (forallb _ _) eqn:F; [|reflexivity]. exfalso.
    rewrite forallb_forall in F. specialize (F col Hc).
    apply existsb_exists in F. destruct F as (x & Hx & E).
    apply String.eqb_eq in E. subst x. contradiction.
  - intros df cells -> Hc Hr.
    assert (F : forallb (fun col => existsb (String.eqb col) (df_columns df))
                  (map column ["timestamp"; "severity"; "component"; "message"]) = true).
    { apply forallb_forall. intros col Hcol. apply existsb_exists.
      exists col. split; [now apply Hc | apply String.eqb_refl]. }
    rewrite F.
    rewrite (all_some_map _ (fun row => Entry file_path None
                         (csv_content (fst (fst (fst (cells row)))) (snd (fst (fst (cells row))))
                                      (snd (fst (cells row))) (snd (cells row))))).
    + reflexivity.
    + intros row Hrow. destruct (Hr row Hrow) as (H1 & H2 & H3 & H4).
      unfold row_entry.
      change (column "timestamp") with "Timestamp".
      change (column "severity") with "Level".
      change (column "component") with "Component".
      change (column "message") with "Message".
      now rewrite H1, H2, H3, H4.
Qed.

(* ================================================================= *)
(** ** From a CSV row to a parsed entry *)

Section RoundTripFacts.

Lemma app_inv_head_str (a b c : string) : a ++ b = a ++ c -> b = c.
Proof. induction a as [|x a IH]; simpl; intros H; [exact H | inversion H; auto]. Qed.

(** Two ways of cutting the same text: one first piece is a prefix of the
    other. *)
Lemma app_eq_cases (a : string) :
  forall b t post,
    a ++ b = t ++ post ->
    (exists y, a = t ++ y) \/ (exists c z, t = a ++ String c z).
Proof.
  induction a as [|x a IH]; intros b t post H.
  - destruct t as [|c z]; [left; now exists "" | right; now exists c, z].
  - destruct t as [|c t]; [left; now exists (String x a)|].
    simpl in H. inversion H; subst c.
    destruct (IH _ _ _ H2) as [(y & ->)|(c & z & ->)].
    + left. now exists y.
    + right. now exists c, z.
Qed.

Lemma snoc_split (pre : string) :
  forall a c x,
    a ++ String c "" = pre ++ x -> x <> "" ->
    exists x', x = x' ++ String c "" /\ a = pre ++ x'.
Proof.
  induction pre as [|p pre IH]; intros a c x H Hx; simpl in H.
  - exists a. auto.
  - destruct a as [|a0 a]; simpl in H.
    + inversion H. destruct pre; [simpl in *; congruence | discriminate].
    + inversion H; subst a0.
      destruct (IH _ _ _ H2 Hx) as (x' & -> & ->). now exists x'.
Qed.

(** A run of word characters that does not occur in [ts] cannot start inside
    [ts] followed by a blank. *)
Lemma word_not_across (ts t : string) :
  all_chars Py.is_word t = true -> ~ part t ts ->
  forall pre x rest post,
    ts ++ " " = pre ++ x -> x <> "" -> x ++ rest = t ++ post -> False.
Proof.
  intros Hw Hp pre x rest post Hs Hx He.
  destruct (snoc_split _ _ _ _ Hs Hx) as (x' & -> & ->).
  rewrite app_assoc_str in He.
  destruct (app_eq_cases _ _ _ _ He) as [(y & ->)|(c & z & ->)].
  - apply Hp. now exists pre, y.
  - rewrite app_assoc_str in He. apply app_inv_head_str in He.
    simpl in He. inversion He; subst c.
    rewrite all_chars_app in Hw. apply andb_true_iff in Hw.
    destruct Hw as [_ Hw]. simpl in Hw. discriminate.
Qed.

Lemma scan_skip (r : regex) (prefix : string) :
  forall st s,
    (forall pre x, prefix = pre ++ x -> x <> "" ->
                   match_here r (steps st pre) (x ++ s) = None) ->
    scan r st (prefix ++ s) = scan r (steps st prefix) s.
Proof.
  induction prefix as [|c p IH]; intros st s H; [reflexivity|].
  cbn [append scan steps].
  assert (H0 : match_here r (steps st "") (String c p ++ s) = None)
    by (apply H; [reflexivity | discriminate]).
  cbn [steps append] in H0. rewrite H0.
  apply IH. intros pre x Hp Hx.
  apply (H (String c pre) x); [now rewrite Hp | exact Hx].
Qed.

Lemma scan_here (r : regex) (st : mstate) (s : string) (e : mstate) (s' : string) :
  match_here r st s = Some (e, s') ->
  scan r st s = Some (RMatch (pos st) (pos e) (caps e)).
Proof. intros H. destruct s; simpl; now rewrite H. Qed.

Lemma after_first_skip (sep prefix : string) :
  forall s,
    (forall pre x, prefix = pre ++ x -> x <> "" -> Py.drop_prefix sep (x ++ s) = None) ->
    Py.after_first sep (prefix ++ s) = Py.after_first sep s.
Proof.
  induction prefix as [|c p IH]; intros s H; [reflexivity|].
  cbn [append Py.after_first].
  assert (H0 : Py.drop_prefix sep (String c p ++ s) = None)
    by (apply (H ""); [reflexivity | discriminate]).
  cbn [append] in H0. rewrite H0.
  apply IH. intros pre x Hp Hx.
  apply (H (String c pre) x); [now rewrite Hp | exact Hx].
Qed.

Lemma lower_char_word (a b : ascii) :
  Py.lower_char a = Py.lower_char b -> Py.is_word a = Py.is_word b.
Proof.
  intros H.
  assert (G : forall x y,
             implb (Ascii.eqb (Py.lower_char x) (Py.lower_char y))
                   (Bool.eqb (Py.is_word x) (Py.is_word y)) = true).
  { intros x. apply for_all_ascii. revert x. apply for_all_ascii.
    vm_compute. reflexivity. }
  specialize (G a b). rewrite H, Ascii.eqb_refl in G. simpl in G.
  now apply Bool.eqb_prop.
Qed.

Lemma lower_words (t : string) :
  forall w, Py.lower t = Py.lower w ->
            all_chars Py.is_word w = true -> all_chars Py.is_word t = true.
Proof.
  induction t as [|x t IH]; intros [|c w] H Hw; try discriminate; auto.
  unfold Py.lower in *. simpl in *. inversion H.
  apply andb_true_iff in Hw. destruct Hw as [Hc Hw].
  rewrite (lower_char_word _ _ H1), Hc. simpl. now apply (IH w).
Qed.

Lemma keyword_words (w : string) :
  In w severity_keywords -> all_chars Py.is_word w = true.
Proof.
  unfold severity_keywords. simpl.
  intros H. repeat (destruct H as [<-|H]; [reflexivity|]). contradiction.
Qed.

(** The text of a severity match at a given position. *)
Lemma severity_here_text (st : mstate) (s : string) (e : mstate) (s' : string) :
  match_here severity_re st s = Some (e, s') ->
  exists t w, s = t ++ s' /\ In w severity_keywords /\ Py.lower t = Py.lower w.
Proof.
  intros H. apply match_here_sound in H.
  unfold severity_re in H. cbn [span] in H.
  destruct H as (st1 & s1 & (-> & -> & _) & st2 & s2 & (st3 & SpA & ->) & (-> & -> & _)).
  destruct (span_alts _ _ _ _ _ SpA) as (r & Hr & Spr).
  apply in_map_iff in Hr. destruct Hr as (w & <- & Hw).
  destruct (span_lit_ci _ _ _ _ _ Spr) as (t & -> & _ & Ht).
  now exists t, w.
Qed.

Lemma part_lower_contains (t w ts : string) :
  Py.lower t = Py.lower w -> part t ts ->
  Py.contains (Py.lower w) (Py.lower ts) = true.
Proof.
  intros Ht (a & b & ->). unfold Py.lower in *.
  now rewrite !map_str_app, Ht, contains_app.
Qed.

(** A keyword after a blank and before a blank is matched as it stands. *)
Lemma keyword_match (w : string) (st0 : mstate) (rest : string) :
  In w severity_keywords ->
  exists e,
    match_here severity_re (step st0 " ") (w ++ String " " rest)
      = Some (e, String " " rest) /\
    pos e = String.length w + S (pos st0) /\
    caps e = (1, (S (pos st0), String.length w + S (pos st0))) :: caps st0.
Proof.
  unfold severity_keywords. simpl.
  intros H;
    repeat (destruct H as [<-|H];
            [remember (match_here severity_re (step st0 " ") _) as m eqn:E;
             vm_compute in E; subst m; eexists;
             split; [reflexivity | split; reflexivity]|]).
  contradiction.
Qed.

Lemma rstrip_app (a b : string) :
  Py.rstrip (a ++ b) =
    match Py.rstrip b with
    | EmptyString => Py.rstrip a
    | r => a ++ r
    end.
Proof.
  induction a as [|x a IH]; simpl.
  - now destruct (Py.rstrip b).
  - rewrite IH. destruct (Py.rstrip b) as [|d r]; [reflexivity|].
    destruct a; reflexivity.
Qed.

Lemma lstrip_rstrip (s : string) : Py.lstrip (Py.rstrip s) = Py.rstrip (Py.lstrip s).
Proof.
  induction s as [|c s IH]; [reflexivity|].
  cbn [Py.lstrip]. destruct (Py.isspace c) eqn:Sc.
  - rewrite <- IH. cbn [Py.rstrip].
    destruct (Py.rstrip s) as [|d r]; [now rewrite Sc|].
    cbn [Py.lstrip]. now rewrite Sc.
  - cbn [Py.rstrip]. destruct (Py.rstrip s) as [|d r]; rewrite ?Sc; cbn [Py.lstrip]; now rewrite Sc.
Qed.

Lemma strip_rstrip (s : string) : Py.strip (Py.rstrip s) = Py.strip s.
Proof. unfold Py.strip. now rewrite lstrip_rstrip, rstrip_idem. Qed.

(** A greedy repetition stops at the first character outside its class when
    the rest of the pattern accepts there. *)
Lemma rep_stop (p : ascii -> bool) (t : string) :
  forall lo st c s' k res,
    all_chars p t = true -> p c = false -> lo <= String.length t ->
    k (steps st t) (String c s') = Some res ->
    rep p lo None st (t ++ String c s') k = Some res.
Proof.
  induction t as [|x t IH]; intros lo st c s' k res H Hc L Hk; simpl in *.
  - rewrite Hc. simpl. destruct lo; [exact Hk | lia].
  - apply andb_true_iff in H. destruct H as [Hx Ht]. rewrite Hx. simpl.
    rewrite (IH (pred lo) (step st x) c s' k res); auto. lia.
Qed.

Lemma component_at_start (comp tail : string) :
  1 <= String.length comp -> all_chars not_close comp = true ->
  option_map (fun cm => group 1 cm ("[" ++ comp ++ "]" ++ tail))
             (search component_re ("[" ++ comp ++ "]" ++ tail)) = Some comp.
Proof.
  intros L H.
  assert (M : match_here component_re start ("[" ++ comp ++ "]" ++ tail) =
              Some (step (set_cap 1 1 (pos (steps (step start "[") comp))
                                  (steps (step start "[") comp)) "]", tail)).
  { unfold match_here, component_re. cbn [cats run append].
    change (just "[" "[") with true. cbv iota.
    apply rep_stop; auto. }
  unfold search. rewrite (scan_here _ _ _ _ _ M). cbn [option_map].
  unfold group. cbn [m_caps step set_cap caps lookup_cap].
  rewrite !caps_steps. cbn [caps start step lookup_cap Nat.eqb].
  rewrite pos_steps. cbn [pos step start].
  f_equal. exact (slice_middle "[" comp ("]" ++ tail)).
Qed.

End RoundTripFacts.

Section RoundTrip.
Variables ts sev comp msg : string.
Hypothesis ts_plain :
  forall w, In w severity_keywords -> Py.contains (Py.lower w) (Py.lower ts) = false.
Hypothesis sev_keyword : In sev severity_keywords.
Hypothesis comp_nonempty : 1 <= String.length comp.
Hypothesis comp_open : all_chars not_close comp = true.

Let tail : string := "[" ++ comp ++ "]: " ++ msg.

Lemma csv_content_cut :
  csv_content ts sev comp msg = (ts ++ " ") ++ sev ++ String " " tail.
Proof. unfold csv_content, tail. now rewrite app_assoc_str. Qed.

Lemma csv_no_early_match (pre x : string) (s : string) :
  ts ++ " " = pre ++ x -> x <> "" ->
  match_here severity_re (steps start pre) (x ++ s) = None.
Proof.
  intros Hs Hx.
  destruct (match_here severity_re (steps start pre) (x ++ s)) as [[e s']|] eqn:E;
    [|reflexivity].
  exfalso. destruct (severity_here_text _ _ _ _ E) as (t & w & Ht & Hw & Hl).
  apply (word_not_across ts t) with (pre := pre) (x := x) (rest := s) (post := s'); auto.
  - apply (lower_words t w Hl), keyword_words, Hw.
  - intros P. pose proof (part_lower_contains _ _ _ Hl P) as C.
    rewrite (ts_plain w Hw) in C. discriminate.
Qed.

Lemma csv_severity_match :
  exists m,
    search severity_re (csv_content ts sev comp msg) = Some m /\
    group0 m (csv_content ts sev comp msg) = sev /\
    group 1 m (csv_content ts sev comp msg) = sev.
Proof.
  rewrite csv_content_cut. unfold search.
  rewrite scan_skip by (intros pre x; apply csv_no_early_match).
  rewrite steps_app. cbn [steps].
  destruct (keyword_match sev (steps start ts) tail sev_keyword) as (e & M & P & C).
  rewrite (scan_here _ _ _ _ _ M).
  eexists. split; [reflexivity|].
  unfold group0, group. cbn [m_start m_end m_caps pos step].
  rewrite C, P. cbn [lookup_cap Nat.eqb].
  rewrite pos_steps. cbn [pos start].
  replace (S (0 + String.length ts)) with (String.length (ts ++ " "))
    by (rewrite length_app; simpl; lia).
  replace (String.length sev + String.length (ts ++ " "))
    with (String.length (ts ++ " ") + String.length sev) by lia.
  split; apply slice_middle.
Qed.

Lemma csv_sev_not_before (pre x s : string) :
  ts ++ " " = pre ++ x -> x <> "" -> Py.drop_prefix sev (x ++ s) = None.
Proof.
  intros Hs Hx.
  destruct (Py.drop_prefix sev (x ++ s)) as [r|] eqn:E; [|reflexivity].
  exfalso. apply drop_prefix_sound in E.
  apply (word_not_across ts sev) with (pre := pre) (x := x) (rest := s) (post := r); auto.
  - now apply keyword_words.
  - intros P. pose proof (part_lower_contains sev sev ts eq_refl P) as C.
    rewrite (ts_plain sev sev_keyword) in C. discriminate.
Qed.

Lemma csv_remainder :
  remainder_of (csv_content ts sev comp msg) =
    "[" ++ comp ++ "]" ++ ":" ++ Py.rstrip (" " ++ msg).
Proof.
  destruct csv_severity_match as (m & S & G0 & _).
  unfold remainder_of. rewrite S, G0.
  unfold Py.split1_last. rewrite csv_content_cut at 1.
  rewrite after_first_skip by (intros pre x; apply csv_sev_not_before).
  rewrite (after_first_here _ _ _ (drop_prefix_app sev (String " " tail))).
  unfold Py.strip, tail. cbn [Py.lstrip append].
  change (Py.isspace " ") with true. change (Py.isspace "[") with false. cbv iota.
  replace (String "[" (comp ++ String "]" (String ":" (String " " msg))))
    with (("[" ++ comp ++ "]:") ++ String " " msg)
    by (simpl; now rewrite app_assoc_str).
  rewrite rstrip_app.
  assert (A : Py.rstrip ("[" ++ comp ++ "]:") = "[" ++ comp ++ "]:").
  { replace ("[" ++ comp ++ "]:") with (("[" ++ comp ++ "]") ++ ":")
      by (simpl; now rewrite app_assoc_str).
    now rewrite rstrip_app. }
  destruct (Py.rstrip (String " " msg)) as [|d r].
  - rewrite A. reflexivity.
  - simpl. now rewrite app_assoc_str.
Qed.

Lemma csv_marker_first (r : string) :
  Py.after_first "]:" ("[" ++ comp ++ "]" ++ ":" ++ r) = Some r.
Proof.
  replace ("[" ++ comp ++ "]" ++ ":" ++ r) with (("[" ++ comp) ++ "]:" ++ r)
    by (simpl; reflexivity).
  rewrite after_first_skip.
  - reflexivity.
  - intros pre x Hs Hx. destruct x as [|c x]; [congruence|].
    assert (Hall : all_chars not_close ("[" ++ comp) = true)
      by (simpl; exact comp_open).
    rewrite Hs, all_chars_app in Hall. apply andb_true_iff in Hall.
    destruct Hall as [_ Hall]. cbn [all_chars] in Hall. apply andb_true_iff in Hall.
    destruct Hall as [Hc _]. unfold not_close, just in Hc.
    cbn [append Py.drop_prefix].
    destruct (Ascii.eqb "]" c); [discriminate | reflexivity].
Qed.

End RoundTrip.

(** A text of timestamp characters holds no severity keyword in any case. *)
Lemma timestamp_text_plain (ts w : string) :
  all_chars timestamp_char ts = true -> In w severity_keywords ->
  Py.contains (Py.lower w) (Py.lower ts) = false.
Proof.
  intros Hts Hw.
  set (low := fun c => timestamp_char c || just "t" c).
  assert (L : all_chars low (Py.lower ts) = true).
  { assert (G : forall c, implb (timestamp_char c) (low (Py.lower_char c)) = true)
      by (apply for_all_ascii; vm_compute; reflexivity).
    clear Hw. induction ts as [|c ts IH]; [reflexivity|].
    cbn [all_chars] in Hts. apply andb_true_iff in Hts. destruct Hts as [Hc Hts].
    unfold Py.lower in *. cbn [Py.map_str all_chars].
    specialize (G c). rewrite Hc in G. simpl in G. rewrite G. simpl. now apply IH. }
  unfold Py.contains.
  destruct (Py.after_first (Py.lower w) (Py.lower ts)) as [r|] eqn:E; [|reflexivity].
  exfalso. destruct (after_first_sound _ _ _ E) as [pre Hp].
  rewrite Hp, !all_chars_app in L.
  apply andb_true_iff in L. destruct L as [_ L].
  apply andb_true_iff in L. destruct L as [L _].
  revert L. unfold severity_keywords in Hw. simpl in Hw.
  repeat (destruct Hw as [<-|Hw]; [vm_compute; discriminate|]). contradiction.
Qed.

(** X14.  A CSV row rendered by the loader parses back to its cells: when
    the timestamp cell is made of digits and the characters [- / : T] and
    space, the level cell is one of the seven keywords and the component
    cell is not empty and has no closing bracket, the parsed entry has that
    level as severity, that component, and the message cell trimmed as
    message. *)
Theorem csv_row_round_trip (ts sev comp msg : string) :
  all_chars timestamp_char ts = true ->
  In sev severity_keywords ->
  1 <= String.length comp ->
  all_chars not_close comp = true ->
  let p := parse_log_entry (csv_content ts sev comp msg) in
  severity p = sev /\ component p = Some comp /\ message p = Py.strip msg.
Proof.
  intros Hchars Hsev Hl Hc. cbv zeta.
  pose proof (fun w => timestamp_text_plain ts w Hchars) as Hts.
  pose proof (csv_remainder ts sev comp msg Hts Hsev Hl) as R.
  pose proof (component_at_start comp (":" ++ Py.rstrip (" " ++ msg)) Hl Hc) as C.
  split; [|split].
  - destruct (csv_severity_match ts sev comp msg Hts Hsev Hl) as (m & S & _ & G1).
    unfold parse_log_entry. cbn [severity]. rewrite S, G1.
    now apply upper_keyword.
  - rewrite component_of_remainder, R. exact C.
  - rewrite message_of_remainder, R.
    destruct (search component_re ("[" ++ comp ++ "]" ++ ":" ++ Py.rstrip (" " ++ msg)));
      [|discriminate].
    unfold Py.split1_last. rewrite (csv_marker_first comp Hc).
    rewrite strip_rstrip. unfold Py.strip. cbn [append Py.lstrip].
    change (Py.isspace " ") with true. reflexivity.
Qed.

Lemma csv_row_round_trip_witness :
  let p := parse_log_entry (csv_content "2023-06-01 10:05" "ERROR" "Demo" "Connection failed ") in
  severity p = "ERROR" /\ component p = Some "Demo" /\
  message p = Py.strip "Connection failed ".
Proof.
  apply (csv_row_round_trip "2023-06-01 10:05" "ERROR" "Demo" "Connection failed ").
  - reflexivity.
  - now left.
  - simpl. lia.
  - reflexivity.
Defined.

(* ================================================================= *)
(** ** AI enhancement *)

Section EnhanceFacts.

Lemma words_from_solid (s : string) :
  forall cur k,
    all_chars not_blank cur = true ->
    In k (Enhance.words_from cur s) ->
    k <> "" /\ all_chars not_blank k = true.
Proof.
  induction s as [|c s IH]; intros cur k Hc Hk; cbn [Enhance.words_from] in Hk.
  - destruct cur; simpl in Hk; [contradiction|].
    destruct Hk as [<-|[]]. split; [discriminate | exact Hc].
  - destruct (Py.isspace c) eqn:Sc.
    + apply in_app_or in Hk. destruct Hk as [Hk|Hk].
      * destruct cur; simpl in Hk; [contradiction|].
        destruct Hk as [<-|[]]. split; [discriminate | exact Hc].
      * now apply (IH "" k).
    + apply (IH (cur ++ String c "") k); [|exact Hk].
      rewrite all_chars_app, Hc. simpl. unfold not_blank. now rewrite Sc.
Qed.

Lemma length_firstn_le {A : Type} (n : nat) (l : list A) : length (firstn n l) <= n.
Proof. rewrite length_firstn. lia. Qed.

Lemma In_firstn {A : Type} (n : nat) (l : list A) (x : A) :
  In x (firstn n l) -> In x l.
Proof.
  intros H. rewrite <- (firstn_skipn n l). apply in_or_app. now left.
Qed.

End EnhanceFacts.

(** X15.  The enhancement loop returns one item per suggestion, with the
    problems unchanged and in order.  An item is marked as enhanced exactly
    when the model's answer differs from the base solution; it then keeps the
    base as original solution.  When the model call fails, or answers the
    base text, the item carries the base solution, is not marked, and has no
    original solution. *)
Theorem enhance_all_items (model : string -> option string)
    (eps : list error_pattern) (solutions : list suggestion) :
  let out := Enhance.enhance_all model eps solutions in
  map Enhance.en_problem out = map problem solutions /\
  (forall i s e,
     nth_error solutions i = Some s -> nth_error out i = Some e ->
     let answer := model (Enhance.prompt_of (problem s) (solution s)
                            (Enhance.example_patterns (problem s) eps)) in
     (Enhance.ai_enhanced e = true <->
      exists text, answer = Some text /\ text <> solution s) /\
     (Enhance.ai_enhanced e = true ->
      answer = Some (Enhance.en_solution e) /\
      Enhance.original_solution e = Some (solution s)) /\
     (Enhance.ai_enhanced e = false ->
      Enhance.en_solution e = solution s /\ Enhance.original_solution e = None)).
Proof.
  cbv zeta. unfold Enhance.enhance_all. split.
  - rewrite map_map. reflexivity.
  - intros i s e Hs He. rewrite nth_error_map, Hs in He. simpl in He.
    inversion He; subst e; clear He.
    unfold Enhance.enhance_one, Enhance.enhance_solution_direct.
    cbn [Enhance.ai_enhanced Enhance.en_solution Enhance.original_solution].
    destruct (model (Enhance.prompt_of (problem s) (solution s)
                       (Enhance.example_patterns (problem s) eps))) as [text|].
    + destruct (String.eqb text (solution s)) eqn:E; cbn [negb].
      * apply String.eqb_eq in E. subst text. split; [|split].
        -- split; [discriminate|]. intros (t & Ht & Hn). inversion Ht; subst. now elim Hn.
        -- discriminate.
        -- auto.
      * apply String.eqb_neq in E. split; [|split].
        -- split; [intros _; now exists text | reflexivity].
        -- auto.
        -- discriminate.
    + rewrite String.eqb_refl. cbn [negb]. split; [|split].
      * split; [discriminate|]. intros (t & Ht & _). discriminate.
      * discriminate.
      * auto.
Qed.

Lemma enhance_all_items_witness :
  let model := fun prompt : string =>
                 if Py.contains "Problem: Connection issues" prompt
                 then Some "Restart the gateway." else None in
  let out := Enhance.enhance_all model [] [connection_issues; uncategorized] in
  map Enhance.en_problem out = ["Connection issues"; "Uncategorized errors"] /\
  (exists e, nth_error out 0 = Some e /\ Enhance.ai_enhanced e = true /\
             Enhance.en_solution e = "Restart the gateway." /\
             Enhance.original_solution e = Some (solution connection_issues)) /\
  (exists e, nth_error out 1 = Some e /\ Enhance.ai_enhanced e = false /\
             Enhance.en_solution e = solution uncategorized /\
             Enhance.original_solution e = None).
Proof.
  cbv zeta.
  set (model := fun prompt : string =>
                  if Py.contains "Problem: Connection issues" prompt
                  then Some "Restart the gateway." else None).
  pose proof (enhance_all_items model [] [connection_issues; uncategorized]) as (P & I).
  cbv zeta in P, I.
  split; [exact P|]. split.
  - eexists. split; [reflexivity|].
    destruct (I 0 connection_issues _ eq_refl eq_refl) as (A & B & _).
    assert (T : Enhance.ai_enhanced
                  (Enhance.enhance_one model [] connection_issues) = true).
    { apply A. exists "Restart the gateway.". split; [vm_compute; reflexivity | discriminate]. }
    split; [exact T|]. destruct (B T) as (B1 & B2).
    split; [|exact B2]. vm_compute in B1. vm_compute. congruence.
  - eexists. split; [reflexivity|].
    destruct (I 1 uncategorized _ eq_refl eq_refl) as (_ & _ & C).
    assert (F : Enhance.ai_enhanced (Enhance.enhance_one model [] uncategorized) = false)
      by (vm_compute; reflexivity).
    split; [exact F|]. exact (C F).
Defined.

(** X16.  At most three patterns are handed to the model as examples for a
    problem; each is the pattern of an error pattern of the analysis whose
    lower-cased text contains one of the blank-separated words of the
    lower-cased problem, a word being non-empty and free of blanks. *)
Theorem example_patterns_are_relevant (problem : string)
    (eps : list error_pattern) :
  length (Enhance.example_patterns problem eps) <= 3 /\
  (forall x,
     In x (Enhance.example_patterns problem eps) ->
     exists p k,
       In p eps /\ x = ep_pattern p /\
       In k (Enhance.split_ws (Py.lower problem)) /\
       k <> "" /\ all_chars not_blank k = true /\
       Py.contains k (Py.lower x) = true).
Proof.
  unfold Enhance.example_patterns. split; [apply length_firstn_le|].
  intros x Hx. apply In_firstn in Hx. apply in_map_iff in Hx.
  destruct Hx as (p & <- & Hp). apply filter_In in Hp. destruct Hp as [Hp Hm].
  unfold Enhance.mentions in Hm. apply existsb_exists in Hm.
  destruct Hm as (k & Hk & Hc).
  exists p, k. repeat split; auto;
    now apply (words_from_solid (Py.lower problem) "" k eq_refl Hk).
Qed.

Lemma example_patterns_witness :
  let eps := [ErrorPattern "db" "Connection refused" 4;
              ErrorPattern "db" "connect timeout" 3;
              ErrorPattern "io" "Too many issues" 1] in
  Enhance.example_patterns "Connection issues" eps =
    ["Connection refused"; "Too many issues"] /\
  exists p k,
    In p eps /\ "Too many issues" = ep_pattern p /\
    In k (Enhance.split_ws (Py.lower "Connection issues")) /\
    k <> "" /\ all_chars not_blank k = true /\
    Py.contains k (Py.lower "Too many issues") = true.
Proof.
  cbv zeta. split; [vm_compute; reflexivity|].
  apply (example_patterns_are_relevant "Connection issues").
  vm_compute. right. left. reflexivity.
Defined.

(* ================================================================= *)
(** ** The properties above at concrete inputs *)

Lemma severity_distribution_counts_witness :
  counter_total (severity_distribution (analyze_log_entries sample_batch)) = 5 /\
  (exists e, In e sample_batch /\ severity (parsed e) = "ERROR") /\ 1 <= 3 /\
  3 = length (filter (fun e => String.eqb "ERROR" (severity (parsed e))) sample_batch).
Proof.
  pose proof (severity_distribution_counts sample_batch) as (T & _ & I).
  cbv zeta in T, I. split; [rewrite T; reflexivity|].
  apply (I "ERROR" 3). vm_compute. left. reflexivity.
Defined.

Lemma components_counts_witness :
  counter_total (components (analyze_log_entries sample_batch)) = 4 /\
  1 <= 2 /\
  2 = length (filter (fun e => match component (parsed e) with
                               | Some c' => String.eqb "A" c'
                               | None => false
                               end) sample_batch).
Proof.
  pose proof (components_counts sample_batch) as (T & _ & _ & I).
  cbv zeta in T, I. split; [rewrite T; vm_compute; reflexivity|].
  apply (I "A" 2). vm_compute. left. reflexivity.
Defined.

Lemma time_pattern_bounds_witness :
  let tp := TimeSpan "2023-01-01 00:00:00" "2024-05-06 07:08:09" 3 in
  time_pattern (analyze_log_entries sample_batch) = Some tp /\
  total_occurrences tp = length (flat_map timestamp_list sample_batch) /\
  str_le (first_occurrence tp) "2023-01-02 03:04:05" /\
  str_le "2023-01-02 03:04:05" (last_occurrence tp) /\
  (time_pattern (analyze_log_entries []) = None).
Proof.
  cbv zeta.
  pose proof (time_pattern_bounds sample_batch) as (_ & B).
  pose proof (time_pattern_bounds []) as (N & _).
  cbv zeta in B, N.
  assert (E : time_pattern (analyze_log_entries sample_batch) =
              Some (TimeSpan "2023-01-01 00:00:00" "2024-05-06 07:08:09" 3))
    by (vm_compute; reflexivity).
  destruct (B _ E) as (L & _ & _ & A).
  split; [exact E|]. split; [exact L|].
  destruct (A "2023-01-02 03:04:05") as (A1 & A2); [vm_compute; left; reflexivity|].
  split; [exact A1|]. split; [exact A2|].
  apply N. reflexivity.
Defined.

Lemma error_buffer_contents_witness :
  buffer_val "A" (errors_by_component (accumulate sample_batch)) =
    ["message number one"; "message number three"] /\
  dict_get String.eqb "C" (errors_by_component (accumulate sample_batch)) = None.
Proof.
  pose proof (error_buffer_contents sample_batch "A") as (V & _).
  pose proof (error_buffer_contents sample_batch "C") as (_ & N).
  cbv zeta in V, N. split.
  - rewrite V. vm_compute. reflexivity.
  - apply N. vm_compute. reflexivity.
Defined.

Lemma message_is_part_of_line_witness :
  let line := "ERROR [db]:  disk full  " in
  part (message (parse_log_entry line)) line /\
  Py.strip (message (parse_log_entry line)) = message (parse_log_entry line) /\
  message (parse_log_entry line) = "disk full".
Proof.
  cbv zeta.
  pose proof (message_is_part_of_line "ERROR [db]:  disk full  ") as (P & T).
  split; [exact P|]. split; [|vm_compute; reflexivity].
  apply T. left. vm_compute. discriminate.
Defined.

Lemma component_is_bracketed_witness :
  let line := "warn: [net io] link down" in
  component (parse_log_entry line) = Some "net io" /\
  1 <= String.length "net io" /\
  all_chars not_close "net io" = true /\
  part ("[" ++ "net io" ++ "]") line.
Proof.
  cbv zeta.
  assert (E : component (parse_log_entry "warn: [net io] link down") = Some "net io")
    by (vm_compute; reflexivity).
  split; [exact E|]. exact (component_is_bracketed _ _ E).
Defined.

Lemma timestamp_is_part_of_line_witness :
  let line := "at 3/14/2024 09:26 INFO up" in
  timestamp (parse_log_entry line) = Some "3/14/2024 09:26" /\
  part "3/14/2024 09:26" line /\
  14 <= String.length "3/14/2024 09:26" <= 19 /\
  all_chars timestamp_char "3/14/2024 09:26" = true.
Proof.
  cbv zeta.
  assert (E : timestamp (parse_log_entry "at 3/14/2024 09:26 INFO up") = Some "3/14/2024 09:26")
    by (vm_compute; reflexivity).
  split; [exact E|]. exact (timestamp_is_part_of_line _ _ E).
Defined.

Lemma suggestions_shape_witness :
  let a := Analysis 1 [("ERROR", 1)] [("db", 1)] None
             [ErrorPattern "db" "it broke somewhere" 1] in
  1 <= length (suggest_solutions a) <= 3 /\
  suggest_solutions a = [uncategorized].
Proof.
  cbv zeta.
  pose proof (suggestions_shape
                (Analysis 1 [("ERROR", 1)] [("db", 1)] None
                   [ErrorPattern "db" "it broke somewhere" 1])) as (L & _ & U & _).
  split; [exact L|]. apply U. vm_compute. left. reflexivity.
Defined.

Lemma search_files_matches_witness :
  In (Entry "app.log" (Some 2) "Error: disk full")
     (search_files (fun _ => None) sample_lines ["data.csv"; "app.log"] "error") /\
  search_files (fun _ => None) sample_lines ["data.csv"; "app.log"] "error" =
    [Entry "app.log" (Some 2) "Error: disk full";
     Entry "app.log" (Some 3) "ERRORS seen"].
Proof.
  split; [|vm_compute; reflexivity].
  apply (search_files_matches (fun _ => None) sample_lines).
  exists "app.log". split; [right; left; reflexivity|].
  right. split; [reflexivity|].
  exists 2, "  Error: disk full  ".
  split; [vm_compute; lia|]. repeat split; vm_compute; reflexivity.
Defined.

Lemma text_match_message_witness :
  let e := Entry "app.log" (Some 1) "plain note" in
  In e (matching_lines "app.log" "note" 0 ["  plain note  "; "other"]) /\
  Py.strip (content e) = content e /\
  Py.strip (message (parsed e)) = message (parsed e) /\
  exists line, In line ["  plain note  "; "other"] /\ message (parsed e) = Py.strip line.
Proof.
  cbv zeta.
  assert (H : In (Entry "app.log" (Some 1) "plain note")
                 (matching_lines "app.log" "note" 0 ["  plain note  "; "other"]))
    by (vm_compute; left; reflexivity).
  destruct (text_match_message_is_trimmed _ _ _ _ H) as (A & B & C).
  split; [exact H|]. split; [exact A|]. split; [exact B|].
  apply C; vm_compute; reflexivity.
Defined.

Lemma load_csv_logs_entries_witness :
  load_csv_logs (fun _ => None) "demo.csv" = [] /\
  load_csv_logs (fun _ => Some (DataFrame ["Timestamp"; "Level"; "Message"] []))
                "demo.csv" = [] /\
  load_csv_logs (fun _ => Some sample_frame) "demo.csv" =
    [Entry "demo.csv" None "2023-06-01 10:05 ERROR [Demo]: Connection failed"].
Proof.
  split; [|split].
  - apply (load_csv_logs_entries (fun _ => None) "demo.csv"). reflexivity.
  - pose proof (load_csv_logs_entries
                  (fun _ => Some (DataFrame ["Timestamp"; "Level"; "Message"] []))
                  "demo.csv") as (_ & M & _).
    apply (M _ "Component" eq_refl).
    + right. right. left. reflexivity.
    + simpl. intros [H|[H|[H|[]]]]; discriminate.
  - pose proof (load_csv_logs_entries (fun _ => Some sample_frame) "demo.csv")
      as (_ & _ & R).
    rewrite (R sample_frame sample_cells eq_refl).
    + vm_compute. reflexivity.
    + intros col Hc. exact Hc.
    + intros row [<-|[]]. repeat split; reflexivity.
Defined.

(* ================================================================= *)
(** ** The ranked patterns are distinct *)

Section RankingFacts.
Context {K : Type}.

Lemma keys_insert_desc (x : K * nat) (l : list (K * nat)) (k : K) :
  In k (map fst (insert_desc x l)) <-> k = fst x \/ In k (map fst l).
Proof.
  induction l as [|y l IH]; simpl.
  - split; [intros [H|[]]; auto | intros [H|[]]; auto].
  - destruct (Nat.ltb (snd x) (snd y)); simpl; [rewrite IH|]; split; intuition auto.
Qed.

Lemma keys_sort_desc (l : list (K * nat)) (k : K) :
  In k (map fst (sort_desc l)) <-> In k (map fst l).
Proof.
  induction l as [|x l IH]; simpl; [tauto|].
  rewrite keys_insert_desc, IH. split; intuition auto.
Qed.

Lemma NoDup_insert_desc (x : K * nat) (l : list (K * nat)) :
  ~ In (fst x) (map fst l) -> NoDup (map fst l) ->
  NoDup (map fst (insert_desc x l)).
Proof.
  induction l as [|y l IH]; simpl; intros Hx Hn.
  - constructor; [tauto | constructor].
  - destruct (Nat.ltb (snd x) (snd y)); simpl.
    + inversion Hn; subst. constructor.
      * rewrite keys_insert_desc. intros [E|H]; [apply Hx; now left | contradiction].
      * apply IH; auto.
    + constructor; [exact Hx | exact Hn].
Qed.

Lemma NoDup_sort_desc (l : list (K * nat)) :
  NoDup (map fst l) -> NoDup (map fst (sort_desc l)).
Proof.
  induction l as [|x l IH]; simpl; intros H; [constructor|].
  inversion H; subst. apply NoDup_insert_desc; [|now apply IH].
  now rewrite keys_sort_desc.
Qed.

Lemma NoDup_firstn_keys {A : Type} (n : nat) (l : list A) :
  NoDup l -> NoDup (firstn n l).
Proof.
  revert n. induction l as [|x l IH]; intros n H.
  - rewrite firstn_nil. constructor.
  - destruct n; simpl; [constructor|]. inversion H; subst.
    constructor; [|now apply IH].
    intros F. apply In_firstn in F. contradiction.
Qed.

Lemma total_insert_desc (x : K * nat) (l : list (K * nat)) :
  counter_total (insert_desc x l) = snd x + counter_total l.
Proof.
  unfold counter_total. induction l as [|y l IH]; simpl; [reflexivity|].
  destruct (Nat.ltb (snd x) (snd y)); simpl; [rewrite IH|]; lia.
Qed.

Lemma total_sort_desc (l : list (K * nat)) :
  counter_total (sort_desc l) = counter_total l.
Proof.
  induction l as [|x l IH]; simpl; [reflexivity|].
  rewrite total_insert_desc, IH. unfold counter_total. simpl. reflexivity.
Qed.

Lemma total_firstn (n : nat) (l : list (K * nat)) :
  counter_total (firstn n l) <= counter_total l.
Proof.
  unfold counter_total. revert n. induction l as [|x l IH]; intros n.
  - rewrite firstn_nil. simpl. lia.
  - destruct n; simpl; [lia|]. specialize (IH n). lia.
Qed.

End RankingFacts.

(** X17.  No two of the returned error patterns have the same component and
    pattern, and their counts add up to at most the number of buffered error
    messages that are longer than ten characters. *)
Theorem error_patterns_are_distinct (entries : list entry) :
  let out := error_patterns (analyze_log_entries entries) in
  NoDup (map key_of out) /\
  list_sum (map ep_count out) <=
    length (error_pattern_pairs (errors_by_component (accumulate entries))).
Proof.
  cbv zeta. unfold analyze_log_entries. cbn [error_patterns].
  unfold common_patterns, most_common.
  set (pairs := error_pattern_pairs (errors_by_component (accumulate entries))).
  rewrite !map_map. split.
  - replace (map (fun x => key_of (render x)) (firstn 10 (sort_desc (Counter key_eqb pairs))))
      with (firstn 10 (map fst (sort_desc (Counter key_eqb pairs)))).
    + apply NoDup_firstn_keys, NoDup_sort_desc.
      eapply StronglySorted_lt_NoDup. apply (Counter_keys key_eqb key_eqb_eq).
    + rewrite firstn_map. apply map_ext. intros [[c p] n]. reflexivity.
  - replace (map (fun x => ep_count (render x)) (firstn 10 (sort_desc (Counter key_eqb pairs))))
      with (map snd (firstn 10 (sort_desc (Counter key_eqb pairs))))
      by (apply map_ext; intros [[c p] n]; reflexivity).
    fold (counter_total (firstn 10 (sort_desc (Counter key_eqb pairs)))).
    eapply Nat.le_trans; [apply total_firstn|].
    rewrite total_sort_desc, counter_total_Counter. lia.
Qed.

(* ================================================================= *)
(** ** The ID mask inside a message *)

Section IdMaskFacts.

Lemma last_char_some (c : ascii) (s : string) :
  exists e, last_char (String c s) = Some e.
Proof.
  revert c. induction s as [|d s IH]; intros c; [now exists c|].
  destruct (IH d) as [e He]. exists e. exact He.
Qed.

Lemma last_char_cons (c : ascii) (s : string) :
  last_char (String c s) = match last_char s with Some d => Some d | None => Some c end.
Proof.
  destruct s as [|d s]; [reflexivity|].
  destruct (last_char_some d s) as [e He].
  change (last_char (String c (String d s))) with (last_char (String d s)).
  now rewrite He.
Qed.

Lemma last_char_none (s : string) : last_char s = None -> s = "".
Proof.
  destruct s as [|c s]; [reflexivity|]. rewrite last_char_cons.
  destruct (last_char s); discriminate.
Qed.

Lemma prev_steps_last (s : string) :
  forall st, prev (steps st s) =
             match last_char s with Some c => Some c | None => prev st end.
Proof.
  induction s as [|c s IH]; intros st; [reflexivity|].
  cbn [steps]. rewrite IH, last_char_cons. now destruct (last_char s).
Qed.

Lemma ends_open_cons (c : ascii) (s : string) :
  ends_open (String c s) = true -> hex_or_hyphen c = true ->
  ends_open s = true.
Proof.
  unfold ends_open. rewrite last_char_cons.
  destruct (last_char s); [auto|]. intros H Hc. now rewrite Hc in H.
Qed.

Lemma ends_open_tail (c : ascii) (s : string) :
  ends_open (String c s) = true -> s <> "" -> ends_open s = true.
Proof.
  unfold ends_open. rewrite last_char_cons.
  destruct (last_char s) eqn:E; [auto|]. intros _ H.
  now apply last_char_none in E.
Qed.

Lemma ends_open_not_all (s : string) :
  ends_open s = true -> all_chars hex_or_hyphen s = false.
Proof.
  induction s as [|c s IH]; [discriminate|]. intros H. cbn [all_chars].
  destruct (hex_or_hyphen c) eqn:Hc; [|reflexivity].
  now rewrite (IH (ends_open_cons _ _ H Hc)).
Qed.

Lemma at_bound_local (st : mstate) (c : ascii) (s rest : string) :
  at_bound st (String c s ++ rest) = option_map (glue rest) (at_bound st (String c s)).
Proof.
  unfold at_bound, at_boundary. cbn [append head].
  now destruct (xorb (word_opt (prev st)) (word_opt (Some c))).
Qed.

(** A run that must stop inside [x] does not look at what follows [x]. *)
Lemma rep_local (rest : string) (x : string) :
  forall lo st,
    ends_open x = true ->
    rep hex_or_hyphen lo None st (x ++ rest) at_bound =
      option_map (glue rest) (rep hex_or_hyphen lo None st x at_bound).
Proof.
  induction x as [|c x IH]; intros lo st H; [discriminate|].
  cbn [append rep].
  assert (Stop : match lo with
                 | 0 => at_bound st (String c (x ++ rest))
                 | S _ => None
                 end =
                 option_map (glue rest)
                   match lo with 0 => at_bound st (String c x) | S _ => None end).
  { destruct lo; [exact (at_bound_local st c x rest) | reflexivity]. }
  destruct (hex_or_hyphen c) eqn:Hc; cbn [andb room]; [|exact Stop].
  change (option_map pred None) with (@None nat).
  rewrite (IH (pred lo) (step st c) (ends_open_cons _ _ H Hc)).
  destruct (rep hex_or_hyphen (pred lo) None (step st c) x at_bound) as [r|];
    [reflexivity | exact Stop].
Qed.

Lemma id_match_unfold (st : mstate) (s : string) :
  match_here id_re st s =
    if at_boundary st s then rep hex_or_hyphen 8 None st s at_bound else None.
Proof. reflexivity. Qed.

Lemma id_match_local (st : mstate) (x rest : string) :
  ends_open x = true ->
  match_here id_re st (x ++ rest) = option_map (glue rest) (match_here id_re st x).
Proof.
  intros H. rewrite !id_match_unfold.
  destruct x as [|c x]; [discriminate|].
  replace (at_boundary st (String c x ++ rest)) with (at_boundary st (String c x))
    by reflexivity.
  destruct (at_boundary st (String c x)); [|reflexivity].
  now apply rep_local.
Qed.

Lemma id_match_short (st : mstate) (x : string) (e : mstate) (s' : string) :
  ends_open x = true -> match_here id_re st x = Some (e, s') ->
  pos e - pos st < String.length x.
Proof.
  intros H M. apply match_here_sound in M.
  unfold id_re in M. cbn [cats span] in M.
  destruct M as (st1 & s1 & (-> & -> & _) & st2 & s2 &
                 (t & Hx & Ht & _ & _ & ->) & (-> & -> & _)).
  rewrite pos_steps. subst x. rewrite length_app.
  destruct s2 as [|d s2]; [|simpl; lia].
  rewrite app_empty_r in H. apply ends_open_not_all in H. congruence.
Qed.

(** The mask works on a text that ends outside the class without regard to
    what comes after it. *)
Lemma sub_scan_app (repl rest : string) (x : string) :
  forall skip st,
    ends_open x = true -> skip < String.length x ->
    sub_scan id_re repl skip st (x ++ rest) =
      sub_scan id_re repl skip st x ++ sub_scan id_re repl 0 (steps st x) rest.
Proof.
  induction x as [|c x IH]; intros skip st H L; [discriminate|].
  assert (Next : forall n, n < String.length x \/ (n = 0 /\ x = "") ->
            sub_scan id_re repl n (step st c) (x ++ rest) =
              sub_scan id_re repl n (step st c) x ++
              sub_scan id_re repl 0 (steps (step st c) x) rest).
  { intros n [Hn|[-> ->]].
    - apply IH; [|exact Hn]. apply (ends_open_tail c); [exact H|].
      destruct x; [simpl in Hn; lia | discriminate].
    - reflexivity. }
  destruct skip as [|n].
  - cbn [append sub_scan steps].
    change (String c (x ++ rest)) with (String c x ++ rest).
    rewrite (id_match_local st (String c x) rest H).
    destruct (match_here id_re st (String c x)) as [[e s']|] eqn:M; cbn [option_map glue fst].
    + pose proof (id_match_short _ _ _ _ H M) as Sh. simpl in Sh.
      destruct (pos e - pos st) as [|m].
      * cbn [append]. f_equal. apply Next.
        destruct x; [right; auto | left; simpl; lia].
      * rewrite Next by (left; lia). now rewrite app_assoc_str.
    + cbn [append]. f_equal. apply Next.
      destruct x; [right; auto | left; simpl; lia].
  - cbn [append sub_scan steps]. simpl in L. apply Next. left. lia.
Qed.

Lemma sub_scan_skip_app (r : regex) (repl : string) (a : string) :
  forall st s, sub_scan r repl (String.length a) st (a ++ s) =
               sub_scan r repl 0 (steps st a) s.
Proof.
  induction a as [|c a IH]; intros st s; [reflexivity|].
  cbn [String.length append sub_scan steps]. apply IH.
Qed.

(** The matcher only looks at the previous character of its state; its
    positions move along with the start. *)
Lemma rep_same_view (a b : nat) (p : ascii -> bool) (s : string) :
  forall lo hi st st' k k',
    same_view a b st st' ->
    (forall st1 st1' s1, same_view a b st1 st1' ->
                         same_result a b (k st1 s1) (k' st1' s1)) ->
    same_result a b (rep p lo hi st s k) (rep p lo hi st' s k').
Proof.
  induction s as [|c s IH]; intros lo hi st st' k k' V K; cbn [rep].
  - destruct lo; [now apply K | exact I].
  - assert (Stop : same_result a b
                     match lo with 0 => k st (String c s) | S _ => None end
                     match lo with 0 => k' st' (String c s) | S _ => None end)
      by (destruct lo; [now apply K | exact I]).
    destruct (p c && room hi); [|exact Stop].
    assert (V' : same_view a b (step st c) (step st' c)).
    { destruct V as [V1 V2]. split; [reflexivity | simpl; lia]. }
    pose proof (IH (pred lo) (option_map pred hi) _ _ k k' V' K) as R.
    destruct (rep p (pred lo) (option_map pred hi) (step st c) s k) as [[e s1]|],
             (rep p (pred lo) (option_map pred hi) (step st' c) s k') as [[e' s1']|];
      simpl in R; try contradiction; [exact R | exact Stop].
Qed.

Lemma run_same_view (a b : nat) (r : regex) :
  forall st st' s k k',
    same_view a b st st' ->
    (forall st1 st1' s1, same_view a b st1 st1' ->
                         same_result a b (k st1 s1) (k' st1' s1)) ->
    same_result a b (run r st s k) (run r st' s k').
Proof.
  induction r as [|p|p lo hi|r1 IH1 r2 IH2|r1 IH1 r2 IH2| |n r1 IH1];
    intros st st' s k k' V K; cbn [run].
  - now apply K.
  - destruct s as [|c s]; [exact I|]. destruct (p c); [|exact I].
    apply K. destruct V as [V1 V2]. split; [reflexivity | simpl; lia].
  - now apply rep_same_view.
  - apply IH1; [exact V|]. intros st1 st1' s1 V1. now apply IH2.
  - pose proof (IH1 st st' s k k' V K) as R1.
    destruct (run r1 st s k) as [[e s1]|], (run r1 st' s k') as [[e' s1']|];
      simpl in R1; try contradiction; [exact R1|].
    now apply IH2.
  - unfold at_boundary. destruct V as [V1 V2]. rewrite <- V1.
    destruct (xorb (word_opt (prev st)) (word_opt (head s))); [|exact I].
    apply K. now split.
  - apply IH1; [exact V|]. intros st1 st1' s1 [V1 V2]. apply K. now split.
Qed.

Lemma sub_scan_same_view (r : regex) (repl : string) (s : string) :
  forall skip st st',
    prev st = prev st' ->
    sub_scan r repl skip st s = sub_scan r repl skip st' s.
Proof.
  induction s as [|c s IH]; intros skip st st' V; [now destruct skip|].
  destruct skip as [|n]; cbn [sub_scan]; [|now apply IH].
  assert (R : same_result (pos st') (pos st)
                (match_here r st (String c s)) (match_here r st' (String c s))).
  { apply run_same_view; [split; [exact V | lia]|].
    intros st1 st1' s1 V1. simpl. now split. }
  destruct (match_here r st (String c s)) as [[e s1]|],
           (match_here r st' (String c s)) as [[e' s1']|];
    simpl in R; try contradiction.
  - destruct R as [[_ P] _].
    replace (pos e' - pos st') with (pos e - pos st) by lia.
    destruct (pos e - pos st); [f_equal|]; now rewrite (IH _ (step st c) (step st' c)).
  - f_equal. now apply IH.
Qed.

Lemma separator_class (c : ascii) :
  separator c = true -> Py.is_word c = false /\ hex_or_hyphen c = false.
Proof.
  unfold separator. intros H. apply andb_true_iff in H.
  destruct H as [H1 H2]. now destruct (Py.is_word c), (hex_or_hyphen c).
Qed.

(** After a separator, or at its start, the rest of a message is masked as
    if it stood alone. *)
Lemma sub_scan_fresh (repl post : string) (st : mstate) :
  sep_opt (head post) = true ->
  sub_scan id_re repl 0 st post = sub_scan id_re repl 0 start post.
Proof.
  destruct post as [|d post]; [reflexivity|]. cbn [head sep_opt]. intros H.
  destruct (separator_class d H) as [_ Hd].
  assert (N : forall st0, match_here id_re st0 (String d post) = None).
  { intros st0. rewrite id_match_unfold. cbn [rep]. rewrite Hd. cbn [andb].
    now destruct (at_boundary st0 (String d post)). }
  cbn [sub_scan]. rewrite !N. f_equal. now apply sub_scan_same_view.
Qed.

(** An ID run between separators is matched as a whole. *)
Lemma id_run_match (st : mstate) (w post : string) :
  word_opt (prev st) = false -> sep_opt (head post) = true ->
  all_chars hex_or_hyphen w = true -> 8 <= String.length w ->
  word_opt (head w) = true -> word_opt (last_char w) = true ->
  match_here id_re st (w ++ post) = Some (steps st w, post).
Proof.
  intros Hp Hs Hw L Hh Hl. rewrite id_match_unfold.
  assert (B : at_boundary st (w ++ post) = true).
  { unfold at_boundary. rewrite Hp. destruct w as [|c w]; [discriminate|]. exact Hh. }
  rewrite B.
  assert (E : at_bound (steps st w) post = Some (steps st w, post)).
  { unfold at_bound, at_boundary. rewrite prev_steps_last.
    destruct (last_char w) as [c|] eqn:Ec; [|discriminate]. cbn [word_opt] in *.
    rewrite Hl. destruct post as [|d post]; [reflexivity|].
    cbn [head sep_opt word_opt] in *.
    destruct (separator_class d Hs) as [Hd _]. now rewrite Hd. }
  destruct post as [|d post].
  - rewrite app_empty_r in *. now apply rep_to_end.
  - cbn [head sep_opt] in Hs. destruct (separator_class d Hs) as [_ Hd].
    now apply rep_stop.
Qed.

(** A word with a character outside the class is passed over, whatever
    follows it. *)
Lemma sub_scan_word_app (repl post : string) (x : string) :
  forall st,
    all_chars Py.is_word x = true ->
    word_opt (prev st) = true \/ all_chars hex_or_hyphen x = false ->
    sub_scan id_re repl 0 st (x ++ post) =
      x ++ sub_scan id_re repl 0 (steps st x) post.
Proof.
  induction x as [|c x IH]; intros st Hw Hd; [reflexivity|].
  assert (N : match_here id_re st (String c x ++ post) = None).
  { destruct (match_here id_re st (String c x ++ post)) as [[e s'']|] eqn:E; [|reflexivity].
    exfalso. apply match_here_sound in E.
    unfold id_re in E. cbn [cats span] in E.
    destruct E as (st1 & s1 & (-> & -> & B1) & st2 & s2 &
                   (t & Hs & Ht & Hl & _ & ->) & (-> & -> & B2)).
    unfold at_boundary in B1, B2. cbn [append head word_opt] in B1.
    pose proof Hw as Hw0.
    cbn [all_chars] in Hw.
    apply andb_true_iff in Hw. destruct Hw as [Hc Hw'].
    rewrite Hc in B1.
    destruct Hd as [Hd|Hd]; [rewrite Hd in B1; discriminate|].
    destruct (app_eq_cases _ _ _ _ Hs) as [(y & Hx)|(d & z & Hx)].
    - rewrite Hx in Hs. rewrite app_assoc_str in Hs.
      apply app_inv_head_str in Hs. subst s2.
      rewrite Hx, all_chars_app, Ht in Hd. cbn [andb] in Hd.
      rewrite Hx, all_chars_app in Hw0. apply andb_true_iff in Hw0.
      destruct Hw0 as [Wt Wy].
      rewrite (prev_after_words t st Wt) in B2 by lia.
      destruct y as [|d y]; [discriminate|].
      cbn [all_chars] in Wy. apply andb_true_iff in Wy. destruct Wy as [Wd _].
      cbn [append head word_opt] in B2. rewrite Wd in B2. discriminate.
    - rewrite Hx, all_chars_app in Ht. apply andb_true_iff in Ht.
      destruct Ht as [Ht _]. congruence. }
  cbn [append sub_scan steps] in *. rewrite N.
  cbn [all_chars] in Hw. apply andb_true_iff in Hw. destruct Hw as [Hc Hw'].
  rewrite IH; [reflexivity | exact Hw' | left; exact Hc].
Qed.

Lemma sub_scan_prefix (repl pre rest : string) :
  sep_opt (last_char pre) = true ->
  sub_scan id_re repl 0 start (pre ++ rest) =
    sub_scan id_re repl 0 start pre ++ sub_scan id_re repl 0 (steps start pre) rest /\
  word_opt (prev (steps start pre)) = false.
Proof.
  intros H. rewrite prev_steps_last.
  destruct (last_char pre) as [c|] eqn:E.
  - cbn [sep_opt] in H. destruct (separator_class c H) as [Hw Hc]. split.
    + apply sub_scan_app.
      * unfold ends_open. now rewrite E, Hc.
      * destruct pre; [discriminate | simpl; lia].
    + exact Hw.
  - apply last_char_none in E. subst pre. split; reflexivity.
Qed.

Lemma sub_scan_id_run (repl : string) (st : mstate) (w post : string) :
  word_opt (prev st) = false -> sep_opt (head post) = true ->
  all_chars hex_or_hyphen w = true -> 8 <= String.length w ->
  word_opt (head w) = true -> word_opt (last_char w) = true ->
  sub_scan id_re repl 0 st (w ++ post) =
    repl ++ sub_scan id_re repl 0 (steps st w) post.
Proof.
  intros Hp Hs Hw L Hh Hl.
  pose proof (id_run_match st w post Hp Hs Hw L Hh Hl) as M.
  destruct w as [|c w]; [simpl in L; lia|].
  change (String c w ++ post) with (String c (w ++ post)) in *.
  cbn [sub_scan]. rewrite M. rewrite pos_steps. cbn [String.length steps].
  replace (pos st + S (String.length w) - pos st) with (S (String.length w)) by lia.
  f_equal. apply sub_scan_skip_app.
Qed.

End IdMaskFacts.

(* ================================================================= *)
(** ** The ID mask is case-sensitive and bounded by word boundaries *)

(** C3 (as stated, refuted).  The upper-case run ["DEADBEEF12"] is not
    replaced by ["<ID>"], alone or inside a message: the ID substitution
    leaves it as it is and the digit mask then replaces its digits, so the
    error ["request DEADBEEF12 lost"] of component ["db"] is reported with
    the pattern ["request DEADBEEF<NUM> lost"].  A lower-case run inside a
    longer word, as in ["zdeadbeef1"], is not replaced either. *)
Lemma upper_case_id_fails :
  mask_ids "DEADBEEF12" = "DEADBEEF12" /\
  normalize "DEADBEEF12" = "DEADBEEF<NUM>" /\
  mask_ids "DEADBEEF12" <> "<ID>" /\
  mask_ids "request DEADBEEF12 lost" = "request DEADBEEF12 lost" /\
  normalize "request DEADBEEF12 lost" = "request DEADBEEF<NUM> lost" /\
  error_patterns
    (analyze_log_entries
       [Entry "app.log" (Some 1) "ERROR [db]: request DEADBEEF12 lost"]) =
    [ErrorPattern "db" "request DEADBEEF<NUM> lost" 1] /\
  mask_ids "request zdeadbeef1 lost" = "request zdeadbeef1 lost".
Proof.
  repeat split; try (vm_compute; reflexivity). vm_compute. discriminate.
Qed.

(** C3 (amended).  The first substitution is case-sensitive and bounded by
    word boundaries.  Take a message [pre ++ w ++ post] in which [w] stands
    between separators (characters that are neither word characters nor
    hyphens) or the ends of the message.  If [w] is a run of 8 or more
    characters of [[a-f0-9\-]] that begins and ends with a word character,
    the substitution replaces exactly [w] by ["<ID>"]; if [w] is a word (a run
    of word characters) holding any character outside [[a-f0-9\-]], such as
    an upper-case letter, it is left unchanged.  In both cases the text
    before and the text after are masked on their own.  The result goes
    through the digit mask, and is the pattern recorded for a message of
    more than 10 characters. *)
Theorem id_mask_between_boundaries (comp pre w post : string) :
  sep_opt (last_char pre) = true -> sep_opt (head post) = true ->
  (all_chars hex_or_hyphen w = true -> 8 <= String.length w ->
   word_opt (head w) = true -> word_opt (last_char w) = true ->
   mask_ids (pre ++ w ++ post) = mask_ids pre ++ "<ID>" ++ mask_ids post) /\
  (all_chars Py.is_word w = true -> all_chars hex_or_hyphen w = false ->
   mask_ids (pre ++ w ++ post) = mask_ids pre ++ w ++ mask_ids post) /\
  (10 < String.length (pre ++ w ++ post) ->
   pattern_of_error comp (pre ++ w ++ post) =
     [(comp, mask_nums (mask_ids (pre ++ w ++ post)))]).
Proof.
  intros Hpre Hpost.
  destruct (sub_scan_prefix "<ID>" pre (w ++ post) Hpre) as [Cut Hprev].
  split; [|split].
  - intros Hw L Hh Hl. unfold mask_ids, sub. rewrite Cut. f_equal.
    rewrite sub_scan_id_run by assumption. f_equal. now apply sub_scan_fresh.
  - intros Hw Hd. unfold mask_ids, sub. rewrite Cut. f_equal.
    rewrite sub_scan_word_app by auto. f_equal. now apply sub_scan_fresh.
  - intros L. unfold pattern_of_error, normalize.
    destruct (pre ++ w ++ post) as [|c s]; [simpl in L; lia|].
    cbn [Py.truthy andb].
    destruct (Nat.ltb_spec 10 (String.length (String c s))) as [_|N]; [reflexivity | lia].
Qed.

Lemma id_mask_between_boundaries_witness :
  mask_ids ("request " ++ "deadbeef12" ++ " lost") =
    mask_ids "request " ++ "<ID>" ++ mask_ids " lost" /\
  mask_ids ("id " ++ "550e8400-e29b-41d4-a716-446655440000" ++ ", gone") =
    mask_ids "id " ++ "<ID>" ++ mask_ids ", gone" /\
  mask_ids ("request " ++ "DEADBEEF12" ++ " lost") =
    mask_ids "request " ++ "DEADBEEF12" ++ mask_ids " lost" /\
  pattern_of_error "db" ("request " ++ "DEADBEEF12" ++ " lost") =
    [("db", mask_nums (mask_ids ("request " ++ "DEADBEEF12" ++ " lost")))].
Proof.
  split; [|split; [|split]].
  - apply (id_mask_between_boundaries "db" "request " "deadbeef12" " lost");
      [reflexivity | reflexivity | reflexivity | simpl; lia | reflexivity | reflexivity].
  - apply (id_mask_between_boundaries
             "db" "id " "550e8400-e29b-41d4-a716-446655440000" ", gone");
      [reflexivity | reflexivity | reflexivity | simpl; lia | reflexivity | reflexivity].
  - apply (id_mask_between_boundaries "db" "request " "DEADBEEF12" " lost");
      reflexivity.
  - apply (id_mask_between_boundaries "db" "request " "DEADBEEF12" " lost");
      [reflexivity | reflexivity | simpl; lia].
Defined.

(* ================================================================= *)
(** ** Facts about the matcher on text beyond U+00FF *)

Section WideFacts.

Import Wide.
Local Open Scope list_scope.

Lemma wide_pos_steps (st : Wide.mstate) (t : text) :
  Wide.pos (Wide.steps st t) = Wide.pos st + length t.
Proof.
  revert st; induction t as [|c t IH]; intros st; simpl; [lia|].
  rewrite IH. simpl. lia.
Qed.

Lemma wide_rep_sound (p : uchar -> bool) (s : text) :
  forall lo hi st k res,
    Wide.rep p lo hi st s k = Some res ->
    exists t s', s = t ++ s' /\ forallb p t = true /\
                 lo <= length t /\ within hi (length t) /\
                 k (Wide.steps st t) s' = Some res.
Proof.
  induction s as [|c s IH]; intros lo hi st k res H.
  - simpl in H. destruct lo; [|discriminate].
    exists [], []. repeat split; auto. destruct hi; simpl; lia.
  - simpl in H.
    assert (Stop : match lo with 0 => k st (c :: s) | S _ => None end = Some res ->
                   exists t s', c :: s = t ++ s' /\ forallb p t = true /\
                     lo <= length t /\ within hi (length t) /\
                     k (Wide.steps st t) s' = Some res).
    { intros E. destruct lo; [|discriminate].
      exists [], (c :: s). repeat split; auto. destruct hi; simpl; lia. }
    destruct (p c) eqn:Pc; simpl in H; [|now apply Stop].
    destruct (room hi) eqn:Rm; [|now apply Stop].
    destruct (Wide.rep p (pred lo) (option_map pred hi) (Wide.step st c) s k) eqn:E;
      [|now apply Stop].
    inversion H; subst p0; clear H.
    destruct (IH _ _ _ _ _ E) as (t & s' & Hs & Ht & Hlo & Hhi & Hk).
    exists (c :: t), s'. simpl. rewrite Pc, Ht, Hs.
    repeat split; auto; try lia.
    destruct hi as [h|]; simpl in *; [|exact I].
    destruct h; [discriminate | lia].
Qed.

Lemma wide_run_sound (r : Wide.regex) :
  forall st s k res,
    Wide.run r st s k = Some res ->
    exists st' s', Wide.span r st s st' s' /\ k st' s' = Some res.
Proof.
  induction r as [|p|p lo hi|r1 IH1 r2 IH2|r1 IH1 r2 IH2| |n r1 IH1];
    intros st s k res H; simpl in H.
  - exists st, s. simpl. auto.
  - destruct s as [|c s]; [discriminate|].
    destruct (p c) eqn:Pc; [|discriminate].
    exists (Wide.step st c), s. simpl. eauto.
  - destruct (wide_rep_sound _ _ _ _ _ _ _ H) as (t & s' & Hs & Ht & Hlo & Hhi & Hk).
    exists (Wide.steps st t), s'. simpl. split; [exists t|]; auto.
  - destruct (IH1 _ _ _ _ H) as (st1 & s1 & Sp1 & H1).
    destruct (IH2 _ _ _ _ H1) as (st2 & s2 & Sp2 & H2).
    exists st2, s2. simpl. eauto.
  - destruct (Wide.run r1 st s k) eqn:E.
    + inversion H; subst p; clear H.
      destruct (IH1 _ _ _ _ E) as (st1 & s1 & Sp1 & H1).
      exists st1, s1. simpl. auto.
    + destruct (IH2 _ _ _ _ H) as (st2 & s2 & Sp2 & H2).
      exists st2, s2. simpl. auto.
  - destruct (Wide.at_boundary st s) eqn:B; [|discriminate].
    exists st, s. simpl. auto.
  - destruct (IH1 _ _ _ _ H) as (st1 & s1 & Sp1 & H1).
    exists (Wide.set_cap n (Wide.pos st) (Wide.pos st1) st1), s1. simpl. eauto.
Qed.

Lemma wide_match_here_sound (r : Wide.regex) (st : Wide.mstate) (s : text)
    (e : Wide.mstate) (s' : text) :
  Wide.match_here r st s = Some (e, s') -> Wide.span r st s e s'.
Proof.
  intros H. destruct (wide_run_sound _ _ _ _ _ H) as (st' & s1 & Sp & Hk).
  unfold Wide.accept in Hk. now inversion Hk; subst.
Qed.

Lemma wide_scan_sound (r : Wide.regex) (s : text) :
  forall st m,
    Wide.scan r st s = Some m ->
    exists pre s1 e s',
      s = pre ++ s1 /\ Wide.span r (Wide.steps st pre) s1 e s' /\
      m = RMatch (Wide.pos (Wide.steps st pre)) (Wide.pos e) (Wide.caps e).
Proof.
  induction s as [|c s IH]; intros st m H; simpl in H.
  - destruct (Wide.match_here r st []) as [[e s']|] eqn:E; [|discriminate].
    inversion H; subst m. exists [], [], e, s'. simpl.
    repeat split; auto. now apply wide_match_here_sound.
  - destruct (Wide.match_here r st (c :: s)) as [[e s']|] eqn:E.
    + inversion H; subst m. exists [], (c :: s), e, s'. simpl.
      repeat split; auto. now apply wide_match_here_sound.
    + destruct (IH _ _ H) as (pre & s1 & e & s' & -> & Sp & ->).
      exists (c :: pre), s1, e, s'. simpl. auto.
Qed.

Lemma wide_span_alts (rs : list Wide.regex) :
  forall st s st' s',
    Wide.span (Wide.alts rs) st s st' s' ->
    exists r, In r rs /\ Wide.span r st s st' s'.
Proof.
  induction rs as [|r rs IH]; intros st s st' s' H.
  - simpl in H. destruct H as (c & _ & F & _). discriminate.
  - destruct rs as [|r' rs].
    + exists r. simpl. auto.
    + change (Wide.span r st s st' s' \/ Wide.span (Wide.alts (r' :: rs)) st s st' s') in H.
      destruct H as [H|H].
      * exists r. simpl. auto.
      * destruct (IH _ _ _ _ H) as (r0 & In0 & Sp0).
        exists r0. split; [right|]; auto.
Qed.

Lemma wide_span_lit_ci (w : string) :
  forall st s st' s',
    Wide.span (Wide.lit_ci w) st s st' s' ->
    exists t, s = t ++ s' /\ st' = Wide.steps st t /\
              spelled Wide.is_ci w t = true.
Proof.
  induction w as [|c w IH]; intros st s st' s' H; simpl in H.
  - destruct H as [-> ->]. exists []. auto.
  - destruct H as (st1 & s1 & (x & -> & Hx & ->) & Sp).
    destruct (IH _ _ _ _ Sp) as (t & -> & -> & Ht).
    exists (x :: t). simpl. now rewrite Hx, Ht.
Qed.

Lemma wide_slice_middle (pre t s : text) :
  Wide.slice (length pre) (length pre + length t) (pre ++ t ++ s) = t.
Proof.
  unfold Wide.slice.
  replace (length pre + length t - length pre) with (length t) by lia.
  rewrite skipn_app, skipn_all, Nat.sub_diag. cbn [skipn app].
  rewrite firstn_app, firstn_all, Nat.sub_diag. cbn [firstn]. apply app_nil_r.
Qed.

(** The severity search matches a spelling of a keyword under the
    case-insensitive comparison; group 0 and group 1 are the same text. *)
Lemma wide_severity_match_text (line : text) (m : rmatch) :
  Wide.search Wide.severity_re line = Some m ->
  exists pre t post w,
    line = pre ++ t ++ post /\ In w severity_keywords /\
    spelled Wide.is_ci w t = true /\
    m_start m = length pre /\
    Wide.group0 m line = t /\ Wide.group 1 m line = t.
Proof.
  intros H. unfold Wide.search in H.
  destruct (wide_scan_sound _ _ _ _ H) as (pre & s1 & e & s' & Hl & Sp & Hm).
  unfold Wide.severity_re in Sp. cbn [Wide.span] in Sp.
  destruct Sp as (st1 & s1' & (-> & -> & _) & st2 & s2 & (st3 & SpA & ->) & (-> & -> & _)).
  destruct (wide_span_alts _ _ _ _ _ SpA) as (r & Hr & Spr).
  apply in_map_iff in Hr. destruct Hr as (w & <- & Hw).
  destruct (wide_span_lit_ci _ _ _ _ _ Spr) as (t & -> & -> & Ht).
  exists pre, t, s2, w.
  assert (P0 : Wide.pos (Wide.steps Wide.start pre) = length pre)
    by (rewrite wide_pos_steps; reflexivity).
  assert (P1 : Wide.pos (Wide.steps (Wide.steps Wide.start pre) t) = length pre + length t)
    by (rewrite wide_pos_steps, P0; reflexivity).
  subst m line. unfold Wide.group0, Wide.group.
  cbn [m_start m_end m_caps Wide.set_cap Wide.pos Wide.caps lookup_cap].
  rewrite P0, P1. simpl Nat.eqb. cbv iota.
  repeat split; auto; apply wide_slice_middle.
Qed.

(** What upper-casing does to a character that matched an upper-case letter
    of a keyword. *)
Lemma wide_upper_ci (c : ascii) (x : uchar) :
  Wide.is_ci c x = true -> Py.upper_char c = c ->
  Wide.upper_char x = Latin c \/ (x = DotI /\ c = "I"%char).
Proof.
  intros H U.
  assert (I : Ascii.eqb (Py.lower_char c) "i" = true -> c = "I"%char).
  { intros E. apply Ascii.eqb_eq in E.
    change "i"%char with (Py.lower_char "i") in E.
    apply lower_char_upper_char in E. now rewrite U in E. }
  destruct x as [a| | |n k]; simpl in H.
  - left. apply Ascii.eqb_eq in H. apply lower_char_upper_char in H.
    simpl. now rewrite H, U.
  - right. auto.
  - left. simpl. now rewrite (I H).
  - discriminate.
Qed.

Lemma wide_upper_spelled (w : string) :
  forall t, spelled Wide.is_ci w t = true -> Py.upper w = w ->
            forallb not_dot_i t = true ->
            Wide.upper t = of_string w.
Proof.
  induction w as [|c w IH]; intros [|x t] H U D; try discriminate; [reflexivity|].
  simpl in H, D. apply andb_true_iff in H, D.
  destruct H as [Hx Ht], D as [Dx Dt].
  unfold Py.upper in U. simpl in U. inversion U as [[Uc Uw]].
  rewrite Uc, Uw. simpl. f_equal.
  - destruct (wide_upper_ci c x Hx Uc) as [E|[-> _]]; [exact E | discriminate].
  - apply IH; auto.
Qed.

Lemma wide_upper_not_unknown (w : string) (t : text) :
  In w severity_keywords -> spelled Wide.is_ci w t = true ->
  Wide.upper t <> of_string "UNKNOWN".
Proof.
  intros Hw H E.
  assert (F : exists c w', w = String c w' /\ Py.upper_char c = c /\ c <> "U"%char).
  { unfold severity_keywords in Hw. simpl in Hw.
    repeat (destruct Hw as [<-|Hw];
            [eexists _, _; split; [reflexivity|]; split; [reflexivity | discriminate]|]).
    contradiction. }
  destruct F as (c & w' & -> & Uc & Nc).
  destruct t as [|x t]; [discriminate|].
  simpl in H. apply andb_true_iff in H. destruct H as [Hx _].
  simpl in E. inversion E as [[Ex Et]].
  destruct (wide_upper_ci c x Hx Uc) as [E1|[-> _]].
  - rewrite E1 in Ex. inversion Ex. contradiction.
  - discriminate.
Qed.

Lemma wide_starts_spelled (p : ascii -> uchar -> bool) (w : string) :
  forall t post, spelled p w t = true -> starts p w (t ++ post) = true.
Proof.
  induction w as [|c w IH]; intros [|x t] post H; try discriminate.
  - now destruct post.
  - simpl in *. apply andb_true_iff in H. destruct H as [Hx Ht].
    now rewrite Hx, IH.
Qed.

Lemma wide_occurs_spelled (p : ascii -> uchar -> bool) (w : string) (pre t post : text) :
  spelled p w t = true -> occurs p w (pre ++ t ++ post) = true.
Proof.
  intros H. induction pre as [|x pre IH].
  - cbn [app]. destruct (t ++ post) eqn:E; cbn [occurs];
      rewrite <- E, (wide_starts_spelled p w t post H); reflexivity.
  - cbn [app occurs]. rewrite IH. apply orb_true_r.
Qed.

(** A line in which no keyword occurs under the search's comparison has no
    severity match. *)
Lemma wide_no_keyword_no_severity (line : text) :
  (forall w, In w severity_keywords -> occurs Wide.is_ci w line = false) ->
  Wide.search Wide.severity_re line = None.
Proof.
  intros H. destruct (Wide.search Wide.severity_re line) as [m|] eqn:E; [|reflexivity].
  destruct (wide_severity_match_text _ _ E) as (pre & t & post & w & Hl & Hw & Ht & _).
  specialize (H _ Hw). subst line.
  rewrite (wide_occurs_spelled _ _ pre t post Ht) in H. discriminate.
Qed.

(** Without U+0130 and U+0131 the search's comparison is the comparison of
    letters up to case. *)
Lemma wide_starts_undotted (w : string) :
  forall s, forallb undotted s = true ->
            starts Wide.is_ci w s = true -> starts same_letter w s = true.
Proof.
  induction w as [|c w IH]; intros [|x s] U H; try discriminate; auto.
  simpl in *. apply andb_true_iff in U, H.
  destruct U as [Ux Us], H as [Hx Hs].
  rewrite (IH s Us Hs), andb_true_r.
  destruct x; try discriminate; exact Hx.
Qed.

Lemma wide_occurs_undotted (w : string) (s : text) :
  forallb undotted s = true ->
  occurs same_letter w s = false -> occurs Wide.is_ci w s = false.
Proof.
  induction s as [|x s IH]; intros U H.
  - cbn [occurs] in *. apply orb_false_iff in H. destruct H as [H _].
    destruct (starts Wide.is_ci w []) eqn:E; [|reflexivity].
    now rewrite (wide_starts_undotted w [] U E) in H.
  - cbn [occurs] in *. apply orb_false_iff in H. destruct H as [H1 H2].
    pose proof U as U0. cbn [forallb] in U. apply andb_true_iff in U.
    destruct U as [_ Us]. rewrite (IH Us H2), orb_false_r.
    destruct (starts Wide.is_ci w (x :: s)) eqn:E; [|reflexivity].
    now rewrite (wide_starts_undotted w _ U0 E) in H1.
Qed.

Lemma wide_parse_unmatched (line : text) :
  Wide.search Wide.severity_re line = None ->
  Wide.severity (Wide.parse_log_entry line) = of_string "UNKNOWN" /\
  Wide.remainder_of line = line /\
  Wide.component (Wide.parse_log_entry line) =
    option_map (fun cm => Wide.group 1 cm line)
               (Wide.search Wide.component_re line).
Proof.
  intros H. unfold Wide.parse_log_entry, Wide.remainder_of. rewrite H. auto.
Qed.

End WideFacts.

(* ================================================================= *)
(** ** The severity search and the default UNKNOWN *)

(** C10 (as stated, refuted).  [re.IGNORECASE] lets U+0130 and U+0131 match
    the letter I of a keyword.  In the line U+0130 ["NFO [x]: y"] the search
    matches the first four characters and the severity is that text, which
    is none of the seven keywords and not the default.  The line
    ["[pre] UNKNOWN "] U+0131 ["nfo [a] x"] holds the word UNKNOWN and none
    of the seven keywords in any mix of upper and lower case; the search
    matches U+0131 ["nfo"], the severity is INFO, and the component found is
    ["a"], in the text after the match, while the first bracket of the full
    line is ["[pre]"]. *)
Lemma dotted_i_spells_keyword_fails :
  (Wide.search Wide.severity_re Wide.dotted_line = Some (RMatch 0 4 [(1, (0, 4))]) /\
   Wide.severity (Wide.parse_log_entry Wide.dotted_line) =
     Wide.DotI :: Wide.of_string "NFO" /\
   ~ In (Wide.severity (Wide.parse_log_entry Wide.dotted_line)) Wide.keywords /\
   Wide.severity (Wide.parse_log_entry Wide.dotted_line) <> Wide.of_string "UNKNOWN") /\
  (forallb (fun w => negb (Wide.occurs Wide.same_letter w Wide.dotless_line))
           severity_keywords = true /\
   Wide.occurs Wide.same_letter "UNKNOWN" Wide.dotless_line = true /\
   Wide.search Wide.severity_re Wide.dotless_line =
     Some (RMatch 14 18 [(1, (14, 18))]) /\
   Wide.severity (Wide.parse_log_entry Wide.dotless_line) = Wide.of_string "INFO" /\
   Wide.remainder_of Wide.dotless_line = Wide.of_string "[a] x" /\
   Wide.component (Wide.parse_log_entry Wide.dotless_line) =
     Some (Wide.of_string "a") /\
   option_map (fun cm => Wide.group 1 cm Wide.dotless_line)
              (Wide.search Wide.component_re Wide.dotless_line) =
     Some (Wide.of_string "pre")).
Proof.
  split.
  - split; [vm_compute; reflexivity|]. split; [vm_compute; reflexivity|].
    split; [|vm_compute; discriminate].
    vm_compute. intros H.
    repeat (destruct H as [H|H]; [discriminate|]). exact H.
  - repeat split; vm_compute; reflexivity.
Qed.

(** C10 (amended).  The severity search matches a keyword spelled letter by
    letter under Python's case-insensitive comparison: each letter in either
    case, and the letter I also as U+0130 or U+0131.  The severity is the
    matched text in upper case; it is the keyword itself when the match
    holds no U+0130, and it is never UNKNOWN.  A line in which no keyword
    occurs under that comparison has no severity match; for a line without
    U+0130 and U+0131 this is a line in which no keyword occurs in any mix
    of upper and lower case.  When the search finds nothing, the severity
    is the default UNKNOWN and the component bracket is searched in the full
    line, whether or not the word UNKNOWN occurs in it. *)
Theorem unknown_is_only_the_default_on_any_text (line : Wide.text) :
  (forall m, Wide.search Wide.severity_re line = Some m ->
     Wide.severity (Wide.parse_log_entry line) = Wide.upper (Wide.group0 m line) /\
     (exists w, In w severity_keywords /\
                Wide.spelled Wide.is_ci w (Wide.group0 m line) = true /\
                (forallb Wide.not_dot_i (Wide.group0 m line) = true ->
                 Wide.severity (Wide.parse_log_entry line) = Wide.of_string w)) /\
     Wide.upper (Wide.group0 m line) <> Wide.of_string "UNKNOWN") /\
  ((forall w, In w severity_keywords -> Wide.occurs Wide.is_ci w line = false) ->
   Wide.search Wide.severity_re line = None) /\
  (forallb Wide.undotted line = true ->
   (forall w, In w severity_keywords ->
              Wide.occurs Wide.same_letter w line = false) ->
   Wide.search Wide.severity_re line = None) /\
  (Wide.search Wide.severity_re line = None ->
     Wide.severity (Wide.parse_log_entry line) = Wide.of_string "UNKNOWN" /\
     Wide.remainder_of line = line /\
     Wide.component (Wide.parse_log_entry line) =
       option_map (fun cm => Wide.group 1 cm line)
                  (Wide.search Wide.component_re line)).
Proof.
  split; [|split; [|split]].
  - intros m H.
    destruct (wide_severity_match_text _ _ H)
      as (pre & t & post & w & _ & Hw & Ht & _ & G0 & G1).
    assert (S : Wide.severity (Wide.parse_log_entry line) = Wide.upper t).
    { unfold Wide.parse_log_entry. cbn [Wide.severity]. now rewrite H, G1. }
    rewrite G0, S. split; [reflexivity|]. split.
    + exists w. split; [exact Hw|]. split; [exact Ht|].
      intros D. apply wide_upper_spelled; auto. now apply upper_keyword.
    + now apply (wide_upper_not_unknown w).
  - apply wide_no_keyword_no_severity.
  - intros U H. apply wide_no_keyword_no_severity.
    intros w Hw. apply wide_occurs_undotted; auto.
  - apply wide_parse_unmatched.
Qed.

Lemma unknown_is_only_the_default_on_any_text_witness :
  (let line := Wide.dotless_line in
   Wide.search Wide.severity_re line = Some (RMatch 14 18 [(1, (14, 18))]) /\
   Wide.severity (Wide.parse_log_entry line) = Wide.of_string "INFO" /\
   Wide.severity (Wide.parse_log_entry line) <> Wide.of_string "UNKNOWN") /\
  (let line := Wide.of_string "[pre] UNKNOWN [post]: msg" in
   Wide.occurs Wide.same_letter "UNKNOWN" line = true /\
   Wide.search Wide.severity_re line = None /\
   Wide.severity (Wide.parse_log_entry line) = Wide.of_string "UNKNOWN" /\
   Wide.remainder_of line = line /\
   Wide.component (Wide.parse_log_entry line) = Some (Wide.of_string "pre")).
Proof.
  cbv zeta. split.
  - pose proof (unknown_is_only_the_default_on_any_text Wide.dotless_line) as (M & _).
    assert (H : Wide.search Wide.severity_re Wide.dotless_line =
                Some (RMatch 14 18 [(1, (14, 18))])) by (vm_compute; reflexivity).
    destruct (M _ H) as (S & _ & N).
    split; [exact H|]. split; [rewrite S; vm_compute; reflexivity|].
    rewrite S. exact N.
  - pose proof (unknown_is_only_the_default_on_any_text
                  (Wide.of_string "[pre] UNKNOWN [post]: msg")) as (_ & _ & P & D).
    assert (H : Wide.search Wide.severity_re
                  (Wide.of_string "[pre] UNKNOWN [post]: msg") = None).
    { apply P; [vm_compute; reflexivity|].
      unfold severity_keywords. simpl. intros w Hw.
      repeat (destruct Hw as [<-|Hw]; [vm_compute; reflexivity|]). contradiction. }
    destruct (D H) as (S1 & R1 & C1).
    split; [vm_compute; reflexivity|].
    split; [exact H|]. split; [exact S1|]. split; [exact R1|].
    rewrite C1. vm_compute. reflexivity.
Defined.

(* ================================================================= *)
(** ** On text up to U+00FF the two parsers are the same *)

Section WideBridge.

Local Open Scope list_scope.

Lemma of_string_app (a b : string) :
  Wide.of_string (a ++ b)%string = Wide.of_string a ++ Wide.of_string b.
Proof. induction a as [|c a IH]; simpl; [reflexivity | now rewrite IH]. Qed.

Lemma of_string_inj (a b : string) :
  Wide.of_string a = Wide.of_string b -> a = b.
Proof.
  revert b; induction a as [|c a IH]; intros [|d b] H; try discriminate; auto.
  simpl in H. inversion H. f_equal. now apply IH.
Qed.

Lemma of_string_upper (s : string) :
  Wide.upper (Wide.of_string s) = Wide.of_string (Py.upper s).
Proof.
  unfold Py.upper. induction s as [|c s IH]; simpl; [reflexivity | now rewrite IH].
Qed.

Lemma of_string_lstrip (s : string) :
  Wide.lstrip (Wide.of_string s) = Wide.of_string (Py.lstrip s).
Proof.
  induction s as [|c s IH]; simpl; [reflexivity|].
  destruct (Py.isspace c); [exact IH | reflexivity].
Qed.

Lemma of_string_rstrip (s : string) :
  Wide.rstrip (Wide.of_string s) = Wide.of_string (Py.rstrip s).
Proof.
  induction s as [|c s IH]; simpl; [reflexivity|].
  rewrite IH. destruct (Py.rstrip s); simpl; [|reflexivity].
  now destruct (Py.isspace c).
Qed.

Lemma of_string_strip (s : string) :
  Wide.strip (Wide.of_string s) = Wide.of_string (Py.strip s).
Proof. unfold Wide.strip, Py.strip. now rewrite of_string_lstrip, of_string_rstrip. Qed.

Lemma of_string_drop_prefix (p : string) :
  forall s, Wide.drop_prefix (Wide.of_string p) (Wide.of_string s) =
            option_map Wide.of_string (Py.drop_prefix p s).
Proof.
  induction p as [|a p IH]; intros s; [reflexivity|].
  destruct s as [|b s]; [reflexivity|]. simpl.
  destruct (Ascii.eqb a b); [apply IH | reflexivity].
Qed.

Lemma of_string_after_first (sep s : string) :
  Wide.after_first (Wide.of_string sep) (Wide.of_string s) =
    option_map Wide.of_string (Py.after_first sep s).
Proof.
  induction s as [|c s IH].
  - cbn [Py.after_first Wide.of_string Wide.after_first].
    pose proof (of_string_drop_prefix sep "") as E. cbn [Wide.of_string] in E.
    rewrite E. now destruct (Py.drop_prefix sep "").
  - cbn [Py.after_first Wide.of_string Wide.after_first].
    change (Wide.Latin c :: Wide.of_string s) with (Wide.of_string (String c s)).
    rewrite of_string_drop_prefix.
    destruct (Py.drop_prefix sep (String c s)); [reflexivity | exact IH].
Qed.

Lemma of_string_split1_last (sep s : string) :
  Wide.split1_last (Wide.of_string sep) (Wide.of_string s) =
    Wide.of_string (Py.split1_last sep s).
Proof.
  unfold Wide.split1_last, Py.split1_last. rewrite of_string_after_first.
  now destruct (Py.after_first sep s).
Qed.

Lemma of_string_substring (s : string) :
  forall i n, firstn n (skipn i (Wide.of_string s)) = Wide.of_string (substring i n s).
Proof.
  induction s as [|c s IH]; intros i n.
  - destruct i, n; reflexivity.
  - destruct i as [|i].
    + destruct n as [|n]; [reflexivity|]. simpl. f_equal. apply (IH 0 n).
    + simpl. apply IH.
Qed.

Lemma of_string_slice (i j : nat) (s : string) :
  Wide.slice i j (Wide.of_string s) = Wide.of_string (Py.slice i j s).
Proof. apply of_string_substring. Qed.

Lemma of_state_boundary (st : mstate) (s : string) :
  Wide.at_boundary (of_state st) (Wide.of_string s) = at_boundary st s.
Proof.
  unfold Wide.at_boundary, at_boundary. f_equal.
  - unfold of_state. cbn [Wide.prev]. now destruct (prev st).
  - now destruct s.
Qed.

Lemma rep_widens (p : ascii -> bool) (P : Wide.uchar -> bool) (s : string) :
  (forall a, P (Wide.Latin a) = p a) ->
  forall lo hi st k K,
    (forall st1 s1, K (of_state st1) (Wide.of_string s1) = of_result (k st1 s1)) ->
    Wide.rep P lo hi (of_state st) (Wide.of_string s) K =
      of_result (rep p lo hi st s k).
Proof.
  intros HP. induction s as [|c s IH]; intros lo hi st k K HK.
  - simpl. destruct lo; [apply (HK st "") | reflexivity].
  - cbn [Wide.of_string Wide.rep rep]. rewrite HP.
    assert (Stop : match lo with
                   | 0 => K (of_state st) (Wide.Latin c :: Wide.of_string s)
                   | S _ => None
                   end =
                   of_result match lo with 0 => k st (String c s) | S _ => None end).
    { destruct lo; [apply (HK st (String c s)) | reflexivity]. }
    destruct (p c && room hi); [|exact Stop].
    change (Wide.step (of_state st) (Wide.Latin c)) with (of_state (step st c)).
    rewrite (IH (pred lo) (option_map pred hi) (step st c) k K HK).
    destruct (rep p (pred lo) (option_map pred hi) (step st c) s k);
      [reflexivity | exact Stop].
Qed.

(** On text up to U+00FF, a pattern and its wide form run alike. *)
Lemma run_widens (r : regex) :
  forall R st s k K,
    widens r R ->
    (forall st1 s1, K (of_state st1) (Wide.of_string s1) = of_result (k st1 s1)) ->
    Wide.run R (of_state st) (Wide.of_string s) K = of_result (run r st s k).
Proof.
  induction r as [|p|p lo hi|r1 IH1 r2 IH2|r1 IH1 r2 IH2| |n r1 IH1];
    intros R st s k K W HK; destruct R; try contradiction; cbn [widens] in W;
    cbn [Wide.run run].
  - apply HK.
  - destruct s as [|c s]; [reflexivity|]. cbn [Wide.of_string]. rewrite W.
    destruct (p c); [apply (HK (step st c) s) | reflexivity].
  - destruct W as (W & <- & <-). now apply rep_widens.
  - destruct W as [W1 W2]. apply IH1; [exact W1|].
    intros st1 s1. now apply IH2.
  - destruct W as [W1 W2]. rewrite (IH1 _ st s k K W1 HK).
    destruct (run r1 st s k); [reflexivity|]. now apply IH2.
  - rewrite of_state_boundary. destruct (at_boundary st s); [apply HK | reflexivity].
  - destruct W as [<- W]. apply IH1; [exact W|].
    intros st1 s1. apply (HK (set_cap n (pos st) (pos st1) st1) s1).
Qed.

Lemma scan_widens (r : regex) (R : Wide.regex) (s : string) :
  widens r R ->
  forall st, Wide.scan R (of_state st) (Wide.of_string s) = scan r st s.
Proof.
  intros W. induction s as [|c s IH]; intros st.
  - cbn [Wide.of_string Wide.scan scan]. unfold Wide.match_here, match_here.
    change (@nil Wide.uchar) with (Wide.of_string "").
    rewrite (run_widens r R st "" accept Wide.accept W) by reflexivity.
    destruct (run r st "" accept) as [[e s']|]; reflexivity.
  - cbn [Wide.of_string Wide.scan scan]. unfold Wide.match_here, match_here.
    change (Wide.Latin c :: Wide.of_string s) with (Wide.of_string (String c s)).
    rewrite (run_widens r R st (String c s) accept Wide.accept W) by reflexivity.
    destruct (run r st (String c s) accept) as [[e s']|]; [reflexivity|].
    apply (IH (step st c)).
Qed.

Lemma search_widens (r : regex) (R : Wide.regex) (s : string) :
  widens r R -> Wide.search R (Wide.of_string s) = search r s.
Proof. intros W. exact (scan_widens r R s W start). Qed.

Lemma group0_widens (m : rmatch) (s : string) :
  Wide.group0 m (Wide.of_string s) = Wide.of_string (group0 m s).
Proof. apply of_string_slice. Qed.

Lemma group_widens (n : nat) (m : rmatch) (s : string) :
  Wide.group n m (Wide.of_string s) = Wide.of_string (group n m s).
Proof.
  unfold Wide.group, group. destruct (lookup_cap n (m_caps m)) as [[i j]|];
    [apply of_string_slice | reflexivity].
Qed.

Lemma lit_ci_widens (w : string) : widens (lit_ci w) (Wide.lit_ci w).
Proof. induction w as [|c w IH]; simpl; [exact I | split; [reflexivity | exact IH]]. Qed.

Lemma timestamp_re_widens : widens timestamp_re Wide.timestamp_re.
Proof. cbv [widens timestamp_re Wide.timestamp_re cats Wide.cats times Wide.times]. repeat split. Qed.

Lemma severity_re_widens : widens severity_re Wide.severity_re.
Proof.
  unfold severity_re, Wide.severity_re, severity_keywords.
  cbn [map alts Wide.alts widens]. repeat split; apply lit_ci_widens.
Qed.

Lemma component_re_widens : widens component_re Wide.component_re.
Proof. cbv [widens component_re Wide.component_re cats Wide.cats]. repeat split. Qed.

Lemma remainder_of_widens (line : string) :
  Wide.remainder_of (Wide.of_string line) = Wide.of_string (remainder_of line).
Proof.
  unfold Wide.remainder_of, remainder_of.
  rewrite (search_widens _ _ line severity_re_widens).
  destruct (search severity_re line) as [m|]; [|reflexivity].
  now rewrite group0_widens, of_string_split1_last, of_string_strip.
Qed.

(** On a line of code points up to U+00FF, [parse_log_entry] on any text
    gives the entry that [parse_log_entry] on such text gives. *)
Lemma parse_log_entry_widens (line : string) :
  Wide.parse_log_entry (Wide.of_string line) = of_entry (parse_log_entry line).
Proof.
  unfold Wide.parse_log_entry, parse_log_entry, of_entry.
  cbn [raw timestamp severity component message].
  rewrite remainder_of_widens.
  rewrite (search_widens _ _ line timestamp_re_widens).
  rewrite (search_widens _ _ line severity_re_widens).
  rewrite (search_widens _ _ (remainder_of line) component_re_widens).
  f_equal.
  - destruct (search timestamp_re line); [|reflexivity].
    cbn [option_map]. now rewrite group0_widens.
  - destruct (search severity_re line); [|reflexivity].
    now rewrite group_widens, of_string_upper.
  - destruct (search component_re (remainder_of line)); [|reflexivity].
    cbn [option_map]. now rewrite group_widens.
  - destruct (search component_re (remainder_of line)); [|reflexivity].
    change (Wide.of_string "]:") with (Wide.of_string "]:"%string).
    now rewrite of_string_split1_last, of_string_strip.
Qed.

End WideBridge.

(** X18.  On any text without U+0130, the severity of a parsed line is
    UNKNOWN or one of the seven keywords. *)
Theorem severity_vocabulary (line : Wide.text) :
  forallb Wide.not_dot_i line = true ->
  In (Wide.severity (Wide.parse_log_entry line))
     (Wide.of_string "UNKNOWN" :: Wide.keywords).
Proof.
  intros D. destruct (Wide.search Wide.severity_re line) as [m|] eqn:E.
  - right.
    destruct (wide_severity_match_text _ _ E)
      as (pre & t & post & w & Hl & Hw & Ht & _ & _ & G1).
    assert (S : Wide.severity (Wide.parse_log_entry line) = Wide.upper t).
    { unfold Wide.parse_log_entry. cbn [Wide.severity]. now rewrite E, G1. }
    rewrite S. subst line. rewrite !forallb_app in D.
    apply andb_true_iff in D. destruct D as [_ D].
    apply andb_true_iff in D. destruct D as [D _].
    rewrite (wide_upper_spelled w t Ht (upper_keyword w Hw) D).
    unfold Wide.keywords. now apply in_map.
  - left. destruct (wide_parse_unmatched _ E) as [S _]. now rewrite S.
Qed.

Lemma severity_vocabulary_witness :
  forallb Wide.not_dot_i Wide.dotless_line = true /\
  In (Wide.severity (Wide.parse_log_entry Wide.dotless_line))
     (Wide.of_string "UNKNOWN" :: Wide.keywords).
Proof.
  split; [reflexivity|]. apply (severity_vocabulary Wide.dotless_line). reflexivity.
Defined.
